(** * ANFIS identified by particle-swarm optimisation: model and properties

    Shallow embedding of [anfis_diabetes_main.py]: the ANFIS forward model
    ([build_combs], [expand_input_dataset], [build_param], [forward_steps],
    [create_model], with [logsig] and [build_class_matrix]) and the PSO
    engine ([PSO], [group_best], [hypersphere_point] and the three velocity
    confinements), with the rest of the class ([eval_data], [param_anfis]),
    the objective handed to the optimiser ([interface_PSO]) and the
    utilities ([f_activation], [normalize_data], [scale_data],
    [get_classes], [build_classes], [calc_rmse], [calc_accu],
    [info_anfis], [bounds_pso]).

    Numbers.  The program computes with numpy float64 arrays.  A float is
    modelled as an extended real [f64]: a finite real, one of the two
    infinities, or NaN.  Arithmetic on finite values is exact (rounding,
    overflow and underflow are not modelled, and the two zeros are not
    told apart: a zero divisor counts as +0); on the special values it
    follows IEEE-754 as numpy applies it, so that a division by zero yields
    an infinity or NaN and [fmax]/[fmin] skip a NaN operand.  A statement
    that holds of the reals only, and not of the rounded numbers of the
    program, says so; the first three layers of the forward pass are also
    written on binary64 numbers ([b64_normalized_row]) to show what
    rounding changes.

    Arrays.  A vector is a list and a matrix a list of rows.  Element-wise
    operations are zips; they agree with numpy on operands of equal shape,
    and the places where numpy raises on a shape mismatch are modelled
    where a definition says so.

    Objects and effects.  The methods of [ANFIS] run in a state-and-error
    monad over the object; [PSO] threads its loop variables in a record and
    reads its random numbers from a given realisation of the generator. *)

From Stdlib Require Import Floats.PrimFloat.
From Stdlib Require Import Reals Lra Lia List Arith ZArith Bool Sorted.
Import ListNotations.

Local Open Scope R_scope.

(** ** Extended reals *)

Inductive f64 : Type :=
| Fin (r : R)
| PInf
| NInf
| NaN.

Definition R_ltb (a b : R) : bool := if Rlt_dec a b then true else false.
Definition R_leb (a b : R) : bool := if Rle_dec a b then true else false.
Definition R_eqb (a b : R) : bool := if Req_dec_T a b then true else false.

Definition is_nan (x : f64) : bool :=
  match x with NaN => true | _ => false end.

Definition is_finite (x : f64) : bool :=
  match x with Fin _ => true | _ => false end.

Definition xneg (x : f64) : f64 :=
  match x with
  | Fin a => Fin (- a)
  | PInf => NInf
  | NInf => PInf
  | NaN => NaN
  end.

Definition xadd (x y : f64) : f64 :=
  match x, y with
  | NaN, _ | _, NaN => NaN
  | PInf, NInf | NInf, PInf => NaN
  | PInf, _ | _, PInf => PInf
  | NInf, _ | _, NInf => NInf
  | Fin a, Fin b => Fin (a + b)
  end.

Definition xsub (x y : f64) : f64 := xadd x (xneg y).

(** Sign of an infinity times a finite factor: zero times infinity is NaN. *)
Definition inf_times (pos : bool) (a : R) : f64 :=
  if R_eqb a 0 then NaN
  else if R_ltb 0 a then (if pos then PInf else NInf)
       else (if pos then NInf else PInf).

Definition xmul (x y : f64) : f64 :=
  match x, y with
  | NaN, _ | _, NaN => NaN
  | Fin a, Fin b => Fin (a * b)
  | PInf, PInf | NInf, NInf => PInf
  | PInf, NInf | NInf, PInf => NInf
  | PInf, Fin a | Fin a, PInf => inf_times true a
  | NInf, Fin a | Fin a, NInf => inf_times false a
  end.

Definition xdiv (x y : f64) : f64 :=
  match x, y with
  | NaN, _ | _, NaN => NaN
  | Fin a, Fin b =>
      if R_eqb b 0 then
        (if R_eqb a 0 then NaN else if R_ltb 0 a then PInf else NInf)
      else Fin (a / b)
  | Fin _, PInf | Fin _, NInf => Fin 0
  | PInf, Fin b => if R_ltb b 0 then NInf else PInf
  | NInf, Fin b => if R_ltb b 0 then PInf else NInf
  | _, _ => NaN
  end.

Definition xabs (x : f64) : f64 :=
  match x with
  | Fin a => Fin (Rabs a)
  | PInf | NInf => PInf
  | NaN => NaN
  end.

Definition xsqrt (x : f64) : f64 :=
  match x with
  | Fin a => if R_ltb a 0 then NaN else Fin (sqrt a)
  | PInf => PInf
  | NInf | NaN => NaN
  end.

Definition xexp (x : f64) : f64 :=
  match x with
  | Fin a => Fin (exp a)
  | PInf => PInf
  | NInf => Fin 0
  | NaN => NaN
  end.

Definition xlog1p (x : f64) : f64 :=
  match x with
  | Fin a =>
      if R_ltb (-1) a then Fin (ln (1 + a))
      else if R_eqb a (-1) then NInf else NaN
  | PInf => PInf
  | NInf | NaN => NaN
  end.

(** Comparisons: false as soon as an operand is NaN. *)
Definition xlt (x y : f64) : bool :=
  match x, y with
  | NaN, _ | _, NaN => false
  | Fin a, Fin b => R_ltb a b
  | NInf, NInf | PInf, _ | _, NInf => false
  | NInf, _ | _, PInf => true
  end.

Definition xle (x y : f64) : bool :=
  match x, y with
  | NaN, _ | _, NaN => false
  | Fin a, Fin b => R_leb a b
  | NInf, _ | _, PInf => true
  | PInf, _ | _, NInf => false
  end.

Definition xgt (x y : f64) : bool := xlt y x.
Definition xge (x y : f64) : bool := xle y x.

(** [np.fmax], [np.fmin]: the other operand when one is NaN. *)
Definition fmax (x y : f64) : f64 :=
  match x, y with
  | NaN, _ => y
  | _, NaN => x
  | _, _ => if xlt x y then y else x
  end.

Definition fmin (x y : f64) : f64 :=
  match x, y with
  | NaN, _ => y
  | _, NaN => x
  | _, _ => if xlt y x then y else x
  end.

(** Integer tests and rounding on the reals. *)
Definition R_floor (a : R) : Z := Int_part a.
Definition R_ceil (a : R) : Z := (- Int_part (- a))%Z.
Definition R_is_int (a : R) : bool := R_eqb (IZR (Int_part a)) a.

(** [np.round]: to the nearest integer, ties to the even one. *)
Definition R_round (a : R) : Z :=
  let f := Int_part a in
  let fr := a - IZR f in
  if R_ltb fr (1 / 2) then f
  else if R_ltb (1 / 2) fr then (f + 1)%Z
       else if Z.even f then f else (f + 1)%Z.

Definition xround (x : f64) : f64 :=
  match x with Fin a => Fin (IZR (R_round a)) | _ => x end.
Definition xceil (x : f64) : f64 :=
  match x with Fin a => Fin (IZR (R_ceil a)) | _ => x end.
Definition xfloor (x : f64) : f64 :=
  match x with Fin a => Fin (IZR (R_floor a)) | _ => x end.

(** [x ** y] on floats (C [pow]). *)
Definition R_odd_int (b : R) : bool := R_is_int b && Z.odd (Int_part b).

Definition xpow (x y : f64) : f64 :=
  match x, y with
  | _, Fin b =>
      if R_eqb b 0 then Fin 1
      else
        match x with
        | NaN => NaN
        | Fin a =>
            if R_ltb 0 a then Fin (Rpower a b)
            else if R_eqb a 0 then (if R_ltb 0 b then Fin 0 else PInf)
            else if R_is_int b then
                   (if Z.odd (Int_part b) then Fin (- Rpower (- a) b)
                    else Fin (Rpower (- a) b))
                 else NaN
        | PInf => if R_ltb 0 b then PInf else Fin 0
        | NInf =>
            if R_ltb 0 b then (if R_odd_int b then NInf else PInf)
            else Fin 0
        end
  | Fin a, NaN => if R_eqb a 1 then Fin 1 else NaN
  | _, NaN => NaN
  | NaN, _ => NaN
  | Fin a, PInf =>
      if R_ltb (Rabs a) 1 then Fin 0
      else if R_eqb (Rabs a) 1 then Fin 1 else PInf
  | Fin a, NInf =>
      if R_ltb (Rabs a) 1 then PInf
      else if R_eqb (Rabs a) 1 then Fin 1 else Fin 0
  | _, PInf => PInf
  | _, NInf => Fin 0
  end.

(** Vectors and matrices (row-major lists of rows). *)
Definition vec := list f64.
Definition matrix := list (list f64).

Definition xsum (v : vec) : f64 := fold_left xadd v (Fin 0).
Definition xprod (v : vec) : f64 := fold_left xmul v (Fin 1).

Fixpoint map2 {A B C : Type} (f : A -> B -> C) (l1 : list A) (l2 : list B)
  : list C :=
  match l1, l2 with
  | a :: t1, b :: t2 => f a b :: map2 f t1 t2
  | _, _ => []
  end.

(** ** Python exceptions and the state-and-error monad of the model *)

Inductive exn : Type :=
| IndexError
| ValueError
| ZeroDivisionError.

Inductive res (A : Type) : Type :=
| Ok (a : A)
| Raise (e : exn).
Arguments Ok {A} a.
Arguments Raise {A} e.

(** A method of an object of type [S]: it may update the object and then
    return or raise; the object keeps the updates made before a raise. *)
Definition M (S A : Type) : Type := S -> S * res A.

Definition ret {S A : Type} (a : A) : M S A := fun s => (s, Ok a).
Definition raise {S A : Type} (e : exn) : M S A := fun s => (s, Raise e).
Definition bind {S A B : Type} (m : M S A) (k : A -> M S B) : M S B :=
  fun s =>
    match m s with
    | (s', Ok a) => k a s'
    | (s', Raise e) => (s', Raise e)
    end.
Definition get {S : Type} : M S S := fun s => (s, Ok s).
Definition modify {S : Type} (f : S -> S) : M S unit := fun s => (f s, Ok tt).
Definition lift {S A : Type} (r : res A) : M S A := fun s => (s, r).

Declare Scope monad_scope.
Delimit Scope monad_scope with monad.
Notation "x <- m ;; k" := (bind m (fun x => k))
  (at level 61, m at next level, right associativity) : monad_scope.
Notation "m ;;; k" := (bind m (fun _ => k))
  (at level 61, right associativity) : monad_scope.

(** ** Array helpers *)

(** The Python slice [l[a:b]] for [0 <= a]. *)
Definition slice {A : Type} (l : list A) (a b : nat) : list A :=
  firstn (b - a) (skipn a l).

(** [l.reshape(rows, cols)]: row-major, [ValueError] when the sizes differ. *)
Definition reshape (l : vec) (rows cols : nat) : res matrix :=
  if Nat.eqb (length l) (rows * cols)
  then Ok (map (fun r => slice l (r * cols) (r * cols + cols)) (seq 0 rows))
  else Raise ValueError.

Definition nat_sum (l : list nat) : nat := fold_left Nat.add l 0%nat.
Definition nat_prod (l : list nat) : nat := fold_left Nat.mul l 1%nat.

(** [np.cumsum]. *)
Fixpoint cumsum_from (acc : nat) (l : list nat) : list nat :=
  match l with
  | [] => []
  | x :: t => (acc + x)%nat :: cumsum_from (acc + x) t
  end.
Definition cumsum (l : list nat) : list nat := cumsum_from 0 l.

(** [np.arange(a, b)]. *)
Definition arange (a b : nat) : list nat := seq a (b - a).

(** [itertools.product] of the ranges in [v]: the last factor varies
    fastest. *)
Fixpoint product {A : Type} (v : list (list A)) : list (list A) :=
  match v with
  | [] => [[]]
  | v0 :: rest => flat_map (fun x => map (cons x) (product rest)) v0
  end.

(** [np.asarray(cols).T] for a list of equally long tuples: row [k] collects
    the [k]-th component of every tuple.  An empty list gives no row. *)
Definition transpose (cols : list (list nat)) : list (list nat) :=
  match cols with
  | [] => []
  | c0 :: _ => map (fun k => map (fun col => nth k col 0%nat) cols)
                   (seq 0 (length c0))
  end.

(** Column [j] of a matrix of indexes. *)
Definition column (m : list (list nat)) (j : nat) : list nat :=
  map (fun row => nth j row 0%nat) m.

Definition n_columns {A : Type} (m : list (list A)) : nat :=
  match m with [] => 0%nat | r :: _ => length r end.

(** ** The ANFIS object *)

Inductive Problem : Type := Classification | Continuous.

Record ANFIS : Type := mkANFIS {
  n_mf : list nat;
  n_outputs : nat;
  problem : Problem;
  init_prob : bool;
  Xe : matrix;
  Yout : matrix;
  Yu : vec;
  combs : list (list nat);
  mu : vec;
  s : vec;
  c : vec;
  A : matrix
}.

Definition n_inputs (self : ANFIS) : nat := length (n_mf self).
Definition n_pf (self : ANFIS) : nat := nat_sum (n_mf self).
Definition n_cf (self : ANFIS) : nat := nat_prod (n_mf self).
Definition n_var (self : ANFIS) : nat :=
  (3 * n_pf self + (n_inputs self + 1) * n_cf self * n_outputs self)%nat.

(** [ANFIS.__init__].  The counts [n_pf], [n_cf] and [n_var] are naturals,
    as numpy computes them for a layout with at least one input; for the
    empty layout numpy makes them floats, and what the other methods do
    with those is not modelled beyond the [IndexError] of [build_combs]. *)
Definition ANFIS_init (nmf : list nat) (nout : nat) (p : Problem) : ANFIS :=
  mkANFIS nmf nout p true [] [] [] [] [] [] [] [].

Definition set_init_prob (b : bool) (o : ANFIS) : ANFIS :=
  mkANFIS (n_mf o) (n_outputs o) (problem o) b (Xe o) (Yout o) (Yu o)
          (combs o) (mu o) (s o) (c o) (A o).
Definition set_Xe (x : matrix) (o : ANFIS) : ANFIS :=
  mkANFIS (n_mf o) (n_outputs o) (problem o) (init_prob o) x (Yout o) (Yu o)
          (combs o) (mu o) (s o) (c o) (A o).
Definition set_classes (yo : matrix) (yu : vec) (o : ANFIS) : ANFIS :=
  mkANFIS (n_mf o) (n_outputs o) (problem o) (init_prob o) (Xe o) yo yu
          (combs o) (mu o) (s o) (c o) (A o).
Definition set_combs (cb : list (list nat)) (o : ANFIS) : ANFIS :=
  mkANFIS (n_mf o) (n_outputs o) (problem o) (init_prob o) (Xe o) (Yout o)
          (Yu o) cb (mu o) (s o) (c o) (A o).
Definition set_premise (m sg e : vec) (o : ANFIS) : ANFIS :=
  mkANFIS (n_mf o) (n_outputs o) (problem o) (init_prob o) (Xe o) (Yout o)
          (Yu o) (combs o) m sg e (A o).
Definition set_A (a : matrix) (o : ANFIS) : ANFIS :=
  mkANFIS (n_mf o) (n_outputs o) (problem o) (init_prob o) (Xe o) (Yout o)
          (Yu o) (combs o) (mu o) (s o) (c o) a.

Local Open Scope monad_scope.

(** [ANFIS.build_combs].  [idx[0]] raises [IndexError] on an empty layout. *)
Definition build_ranges (nmf : list nat) : res (list (list nat)) :=
  let idx := cumsum nmf in
  match idx with
  | [] => Raise IndexError
  | idx0 :: _ =>
      Ok (fold_left
            (fun v i => v ++ [arange (nth (i - 1) idx 0%nat) (nth i idx 0%nat)])
            (seq 1 (length nmf - 1))
            [arange 0 idx0])
  end.

Definition build_combs_of (nmf : list nat) : res (list (list nat)) :=
  match build_ranges nmf with
  | Ok v => Ok (transpose (product v))
  | Raise e => Raise e
  end.

Definition build_combs : M ANFIS unit :=
  self <- get ;;
  cb <- lift (build_combs_of (n_mf self)) ;;
  modify (set_combs cb).

(** [ANFIS.expand_input_dataset]: column [i] of [X] is copied into the block
    of [n_mf[i]] columns of input [i]; a row of [X] shorter than [n_inputs]
    raises [IndexError]. *)
Definition expand_row (nmf : list nat) (row : vec) : vec :=
  concat (map (fun i => repeat (nth i row NaN) (nth i nmf 0%nat))
              (seq 0 (length nmf))).

Definition expand_input_dataset (X : matrix) : M ANFIS matrix :=
  self <- get ;;
  if forallb (fun row => Nat.leb (n_inputs self) (length row)) X
  then ret (map (expand_row (n_mf self)) X)
  else raise IndexError.

(** [ANFIS.build_param]. *)
Definition build_param (theta : vec) : M ANFIS unit :=
  self <- get ;;
  let i1 := n_pf self in
  let i2 := (2 * i1)%nat in
  let i3 := (3 * i1)%nat in
  let i4 := n_var self in
  modify (set_premise (slice theta 0 i1) (slice theta i1 i2)
                      (slice theta i2 i3)) ;;;
  a <- lift (reshape (slice theta i3 i4) (n_inputs self + 1)
                     (n_cf self * n_outputs self)) ;;
  modify (set_A a).

(** ** Forward pass *)

(** Layer 1, one premise function: [d = (xe - mu) / s],
    [pf = 1 / (1 + (d * d) ** c)].  On finite arguments the value is the
    exact one: the program's [d * d] and power can overflow to [+inf] or
    underflow to 0, which the model shows only where the exact power is
    [+inf] or 0. *)
Definition premise (xe m sg e : f64) : f64 :=
  let d := xdiv (xsub xe m) sg in
  xdiv (Fin 1) (xadd (Fin 1) (xpow (xmul d d) e)).

Fixpoint premise_row (row m sg e : vec) : vec :=
  match row, m, sg, e with
  | x :: row', m0 :: m', s0 :: sg', e0 :: e' =>
      premise x m0 s0 e0 :: premise_row row' m' sg' e'
  | _, _, _, _ => []
  end.

Definition layer1 (Xe_ : matrix) (m sg e : vec) : matrix :=
  map (fun row => premise_row row m sg e) Xe_.

(** Layer 2: [W = np.prod(pf[:, combs], axis=1)]. *)
Definition firing_row (cb : list (list nat)) (p : vec) : vec :=
  map (fun j => xprod (map (fun k => nth k p NaN) (column cb j)))
      (seq 0 (n_columns cb)).

Definition layer2 (cb : list (list nat)) (pf : matrix) : matrix :=
  map (firing_row cb) pf.

(** Layer 3: [Wr = W / W.sum(axis=1, keepdims=True)].  The quotients are
    exact here and rounded in the program ([b64_normalize_row]). *)
Definition normalize_row (w : vec) : vec :=
  map (fun x => xdiv x (xsum w)) w.

Definition layer3 (W : matrix) : matrix := map normalize_row W.

(** [X1 @ B] with [B] of [m] columns; [ValueError] when the number of
    columns of [X1] differs from the number of rows of [B]. *)
Definition dot (u v : vec) : f64 := xsum (map2 xmul u v).

Definition matmul (X1 B : matrix) (m : nat) : res matrix :=
  if forallb (fun row => Nat.eqb (length row) (length B)) X1
  then Ok (map (fun row =>
                  map (fun j => dot row (map (fun brow => nth j brow NaN) B))
                      (seq 0 m)) X1)
  else Raise ValueError.

(** Layers 4 and 5 for output [i]: the column [f[:, i]].  [Wr] and
    [X1 @ A[:, i1:i2]] have the same shape when [Xe] is the expansion of
    [X] and [A] was bound by [build_param]; otherwise numpy broadcasts or
    raises [ValueError], and the model multiplies the rows and entries
    that both arrays have. *)
Definition output_column (self : ANFIS) (Wr X1 : matrix) (i : nat)
  : res vec :=
  let i1 := (i * n_cf self)%nat in
  let i2 := ((i + 1) * n_cf self)%nat in
  match matmul X1 (map (fun row => slice row i1 i2) (A self)) (i2 - i1) with
  | Ok P => Ok (map2 (fun wr p => xsum (map2 xmul wr p)) Wr P)
  | Raise e => Raise e
  end.

Fixpoint output_columns (self : ANFIS) (Wr X1 : matrix) (is_ : list nat)
  : res (list vec) :=
  match is_ with
  | [] => Ok []
  | i :: rest =>
      match output_column self Wr X1 i with
      | Ok col =>
          match output_columns self Wr X1 rest with
          | Ok cols => Ok (col :: cols)
          | Raise e => Raise e
          end
      | Raise e => Raise e
      end
  end.

(** The [(n_samples, n_outputs)] array whose columns are [cols]. *)
Definition from_columns (n_samples : nat) (cols : list vec) : matrix :=
  map (fun r => map (fun col => nth r col (Fin 0)) cols) (seq 0 n_samples).

Definition firing_strengths (self : ANFIS) (Xe_ : matrix) : matrix :=
  layer2 (combs self) (layer1 Xe_ (mu self) (s self) (c self)).

(** [ANFIS.forward_steps].  Indexing [pf] with an empty [combs] (a layout
    with no rule) raises [IndexError]. *)
Definition forward_steps (X Xe_ : matrix) : M ANFIS matrix :=
  self <- get ;;
  let n_samples := length X in
  match combs self with
  | [] => raise IndexError
  | _ =>
      let W := firing_strengths self Xe_ in
      let Wr := layer3 W in
      let X1 := map (fun row => Fin 1 :: row) X in
      cols <- lift (output_columns self Wr X1 (seq 0 (n_outputs self))) ;;
      ret (from_columns n_samples cols)
  end.

(** ** Layers 1 to 3 on binary64 numbers *)

(** The same three layers with the machine's binary64 operations (IEEE-754,
    rounding to nearest, ties to even), for one sample. *)

(** [x ** y].  The power is not a basic operation of IEEE-754 and its last
    bit depends on the C library; the replay covers the exponents 0 and 1,
    for which the result is exact (1 and [x]), and stops elsewhere. *)
Definition b64_pow (x y : float) : option float :=
  if (y =? 0)%float then Some 1%float
  else if (y =? 1)%float then Some x
  else None.

Definition b64_premise (xe m sg e : float) : option float :=
  let d := ((xe - m) / sg)%float in
  match b64_pow (d * d)%float e with
  | Some p => Some (1 / (1 + p))%float
  | None => None
  end.






(** ** Cost *)

(** [logsig]: four masked assignments on an array of zeros. *)
Definition logsig1 (z : f64) : f64 :=
  let a := Fin 0 in
  let a := if xlt z (Fin (-33.3)) then z else a in
  let a := if xge z (Fin (-33.3)) && xlt z (Fin (-18)) then
             xsub z (xexp z) else a in
  let a := if xge z (Fin (-18)) && xlt z (Fin 37) then
             xneg (xlog1p (xexp (xneg z))) else a in
  let a := if xge z (Fin 37) then xneg (xexp (xneg z)) else a in
  a.

Definition logsig (z : matrix) : matrix := map (map logsig1) z.

(** A total order to sort floats as [np.unique] does: NaN last. *)
Definition f64_leb (x y : f64) : bool :=
  match x, y with
  | _, NaN => true
  | NaN, _ => false
  | _, _ => xle x y
  end.

Definition f64_eqb (x y : f64) : bool := f64_leb x y && f64_leb y x.

(** Sorted insertion without duplicates. *)
Fixpoint insert_unique (x : f64) (l : vec) : vec :=
  match l with
  | [] => [x]
  | y :: t =>
      if f64_eqb x y then l
      else if f64_leb x y then x :: l
           else y :: insert_unique x t
  end.

(** The first component of [np.unique(Y, return_inverse=True)]. *)
Definition unique (l : vec) : vec := fold_right insert_unique [] l.

Fixpoint index_of (x : f64) (l : vec) : nat :=
  match l with
  | [] => 0%nat
  | y :: t => if f64_eqb x y then 0%nat else Datatypes.S (index_of x t)
  end.

Definition one_hot (n i : nat) : vec :=
  map (fun j => if Nat.eqb j i then Fin 1 else Fin 0) (seq 0 n).

(** [build_class_matrix]: [Y] has shape [(n_samples, 1)]. *)
Definition build_class_matrix (Y : matrix) : matrix * vec :=
  let flat := concat Y in
  let Yu_ := unique flat in
  let idx := map (fun y => index_of y Yu_) flat in
  let n_classes := length Yu_ in
  (map (one_hot n_classes) idx, Yu_).

Definition msum (m : matrix) : f64 := xsum (concat m).

Definition mmap2 (f : f64 -> f64 -> f64) (m1 m2 : matrix) : matrix :=
  map2 (map2 f) m1 m2.

(** The matrix [(1 - Yout) * f - logsig(f)] of the classification cost,
    for [Yout] and [f] of the same shape.  On other shapes numpy
    broadcasts or raises [ValueError], and the model keeps the rows and
    entries that both arrays have. *)
Definition class_error (Yout_ f : matrix) : matrix :=
  mmap2 xsub (mmap2 (fun y z => xmul (xsub (Fin 1) y) z) Yout_ f) (logsig f).

(** [ANFIS.create_model].  The two costs are those of the program when
    the arrays they combine have the same shape: [Yout] and [f] for a
    classification ([Y] a column of as many labels as [X] has samples,
    [n_outputs] classes), [f] and [Y] otherwise (see [class_error]). *)
Definition create_model (theta : vec) (X Y : matrix) : M ANFIS f64 :=
  self <- get ;;
  (if init_prob self then
     modify (set_init_prob false) ;;;
     build_combs ;;;
     xe <- expand_input_dataset X ;;
     modify (set_Xe xe) ;;;
     self' <- get ;;
     match problem self' with
     | Classification =>
         let (yo, yu) := build_class_matrix Y in modify (set_classes yo yu)
     | Continuous => ret tt
     end
   else ret tt) ;;;
  build_param theta ;;;
  self <- get ;;
  f <- forward_steps X (Xe self) ;;
  self <- get ;;
  match problem self with
  | Classification =>
      let error := class_error (Yout self) f in
      ret (xdiv (msum error) (Fin (INR (length X))))
  | Continuous =>
      let error := mmap2 xsub f Y in
      ret (xdiv (msum (map (map (fun e => xpow e (Fin 2))) error)) (Fin 2))
  end.


Local Close Scope monad_scope.

(** ** Particle-swarm optimiser *)

Inductive Conf : Type := RB | HY | MX.

(** [IntVar]: [None], ['all'], or a list of 1-based variable numbers. *)
Inductive IntVarSpec : Type :=
| IntNone
| IntAll
| IntList (l : list Z).

(** One realisation of the random generator: the successive values returned
    by the uniform draws on [0, 1) and by the standard normal draws. *)
Record RNG : Type := mkRNG {
  uniform_draws : nat -> R;
  normal_draws : nat -> R
}.

Fixpoint zip3 {T U V W : Type} (f : T -> U -> V -> W)
  (l1 : list T) (l2 : list U) (l3 : list V) : list W :=
  match l1, l2, l3 with
  | a :: t1, b :: t2, d :: t3 => f a b d :: zip3 f t1 t2 t3
  | _, _, _ => []
  end.

Fixpoint mapi_from {T U : Type} (f : nat -> T -> U) (i : nat) (l : list T)
  : list U :=
  match l with
  | [] => []
  | x :: t => f i x :: mapi_from f (Datatypes.S i) t
  end.
Definition mapi {T U : Type} (f : nat -> T -> U) (l : list T) : list U :=
  mapi_from f 0 l.

(** A [(rows, cols)] array of draws read from position [k] of a stream. *)
Definition draw_matrix (u : nat -> R) (k rows cols : nat) : matrix :=
  map (fun i => map (fun j => Fin (u (k + i * cols + j)%nat)) (seq 0 cols))
      (seq 0 rows).

Definition draw_vector (u : nat -> R) (k n : nat) : vec :=
  map (fun i => Fin (u (k + i)%nat)) (seq 0 n).

(** [np.linalg.norm] of a row. *)
Definition norm (v : vec) : f64 := xsqrt (xsum (map (fun x => xmul x x) v)).

(** [np.argmin]: the first NaN if there is one, else the first minimum. *)
Fixpoint argmin_from (l : vec) (i : nat) (mp : f64) (mi : nat) : nat :=
  match l with
  | [] => mi
  | x :: t =>
      if negb (xge x mp) then
        (if is_nan x then i else argmin_from t (Datatypes.S i) x i)
      else argmin_from t (Datatypes.S i) mp mi
  end.

Definition argmin (l : vec) : nat :=
  match l with
  | [] => 0%nat
  | x :: t => if is_nan x then 0%nat else argmin_from t 1 x 0
  end.

(** [group_best]. *)
Definition group_best (informants : list (list bool))
  (agent_best_pos : matrix) (agent_best_cost : vec) : matrix * vec :=
  let informants_cost :=
    map (fun row => map2 (fun b cst => if b : bool then cst else PInf)
                         row agent_best_cost) informants in
  let idx := map argmin informants_cost in
  let group_best_pos := map (fun i => nth i agent_best_pos []) idx in
  let p_equal_g :=
    mapi (fun i j => if Nat.eqb i j then Fin 0.75 else Fin 1) idx in
  (group_best_pos, p_equal_g).

(** [np.random.uniform(low, high)] is [low + (high - low) * u].  numpy
    raises [OverflowError] when [high - low] is not finite; that exception
    is not modelled, and a statement on the loop of [PSO] holds of the
    runs in which it is not raised. *)
Definition uniform (low high u : f64) : f64 :=
  xadd low (xmul (xsub high low) u).

(** [hypersphere_point]: normal draws from position [kg], uniform draws from
    position [ku]. *)
Definition hypersphere_point (rng : RNG) (kg ku : nat)
  (Gr agent_pos : matrix) : matrix :=
  let nPop := length agent_pos in
  let nVar := n_columns agent_pos in
  let r_max := map norm (mmap2 xsub Gr agent_pos) in
  let u := draw_matrix (normal_draws rng) kg nPop nVar in
  let nrm := map norm u in
  let r := map2 (uniform (Fin 0)) r_max
                (draw_vector (uniform_draws rng) ku nPop) in
  zip3 (fun urow ri ni => map (fun x => xmul x (xdiv ri ni)) urow) u r nrm.

(** [hyperbolic_conf], one component. *)
Definition hyperbolic1 (x v ub lb : f64) : f64 :=
  let if_pos_vel := xdiv v (xadd (Fin 1) (xabs (xdiv v (xsub ub x)))) in
  let if_neg_vel := xdiv v (xadd (Fin 1) (xabs (xdiv v (xsub x lb)))) in
  if xgt v (Fin 0) then if_pos_vel else if_neg_vel.

Definition hyperbolic_conf (agent_pos agent_vel : matrix) (UB LB : vec)
  : matrix :=
  map2 (fun xrow vrow =>
          zip3 (fun xv ub lb => hyperbolic1 (fst xv) (snd xv) ub lb)
               (combine xrow vrow) UB LB)
       agent_pos agent_vel.

(** [random_back_conf]: draws from position [ku]. *)
Definition random_back_conf (rng : RNG) (ku : nat) (agent_vel : matrix)
  : matrix :=
  let nPop := length agent_vel in
  let nVar := n_columns agent_vel in
  mmap2 (fun u v => xmul (xneg u) v)
        (draw_matrix (uniform_draws rng) ku nPop nVar) agent_vel.

(** [mixed_conf]: the random-back draws come first, then [gamma]. *)
Definition mixed_conf (rng : RNG) (ku : nat) (agent_pos agent_vel : matrix)
  (UB LB : vec) : matrix :=
  let nPop := length agent_pos in
  let nVar := n_columns agent_pos in
  let vel_conf_HY := hyperbolic_conf agent_pos agent_vel UB LB in
  let vel_conf_RB := random_back_conf rng ku agent_vel in
  let gamma :=
    draw_matrix (uniform_draws rng)
                (ku + length agent_vel * n_columns agent_vel) nPop nVar in
  zip3 (zip3 (fun g hy rb => if xge g (Fin 0.5) then hy else rb))
       gamma vel_conf_HY vel_conf_RB.

(** The columns selected by [IntVar], 0-based; a negative index counts from
    the end and an index out of range raises [IndexError]. *)
Definition resolve_index (nVar : nat) (z : Z) : res nat :=
  let i := (z - 1)%Z in
  if (0 <=? i)%Z && (i <? Z.of_nat nVar)%Z then Ok (Z.to_nat i)
  else if (i <? 0)%Z && (- Z.of_nat nVar <=? i)%Z
       then Ok (Z.to_nat (i + Z.of_nat nVar))
       else Raise IndexError.

Fixpoint resolve_indexes (nVar : nat) (l : list Z) : res (list nat) :=
  match l with
  | [] => Ok []
  | z :: t =>
      match resolve_index nVar z, resolve_indexes nVar t with
      | Ok i, Ok r => Ok (i :: r)
      | Raise e, _ => Raise e
      | _, Raise e => Raise e
      end
  end.

Definition resolve_IntVar (nVar : nat) (iv : IntVarSpec) : res (list nat) :=
  match iv with
  | IntNone => Ok []
  | IntAll => Ok (seq 0 nVar)
  | IntList l => resolve_indexes nVar l
  end.

Definition is_int_col (cols : list nat) (j : nat) : bool :=
  existsb (Nat.eqb j) cols.

(** [a[:, IntVar] = g(a[:, IntVar])] with [g] depending on the column. *)
Definition on_int_cols (cols : list nat) (g : nat -> f64 -> f64) (a : matrix)
  : matrix :=
  map (mapi (fun j x => if is_int_col cols j then g j x else x)) a.

(** The variables of [PSO] that live across epochs.  [swarm_best_pos] is a
    numpy view of row [swarm_best_idx] of [agent_best_pos] (an array that is
    only ever updated in place), so it is read through that row.
    [p_equal_g] is the column of shape [(nPop, 1)] that the program builds
    with [reshape(nPop, 1)], held as the list of its [nPop] entries: entry
    [i] multiplies row [i] of the arrays it is broadcast against.  The two
    counters are the numbers of uniform and of normal draws made so far. *)
Record Swarm : Type := mkSwarm {
  agent_pos : matrix;
  agent_vel : matrix;
  agent_cost : vec;
  agent_best_pos : matrix;
  agent_best_cost : vec;
  swarm_best_cost : f64;
  swarm_best_idx : nat;
  group_best_pos : matrix;
  p_equal_g : vec;
  informants : list (list bool);
  n_uniform : nat;
  n_normal : nat
}.

Definition swarm_best_pos (st : Swarm) : vec :=
  nth (swarm_best_idx st) (agent_best_pos st) [].

(** The arguments of [PSO]; [func] already holds its [args] and returns one
    cost per row of positions; [LB] and [UB] are the bounds as passed; [rng]
    is the realisation of the random generator. *)
Record PSO_args : Type := mkArgs {
  func : matrix -> vec;
  LB : vec;
  UB : vec;
  nPop : nat;
  epochs : nat;
  K : nat;
  phi : R;
  vel_fact : R;
  conf_type : Conf;
  IntVar : IntVarSpec;
  normalize : bool;
  rad : R;
  rng : RNG
}.

Section PSO.

(** The arguments of [PSO]. *)
Variable cfg : PSO_args.

Definition nVar : nat := length (LB cfg).
Definition vel_max : vec :=
  map2 (fun ub lb => xmul (Fin (vel_fact cfg)) (xsub ub lb))
       (UB cfg) (LB cfg).
Definition vel_min : vec := map xneg vel_max.

Definition w : f64 :=
  xdiv (Fin 1)
       (xadd (Fin (phi cfg - 1)) (xsqrt (Fin (phi cfg ^ 2 - 2 * phi cfg)))).
Definition cmax : f64 := xmul w (Fin (phi cfg)).

Definition p_informant : R := 1 - (1 - 1 / INR (nPop cfg)) ^ (K cfg).

(** The bounds the loop works with. *)
Definition LBw : vec :=
  if normalize cfg then repeat (Fin 0) nVar else LB cfg.
Definition UBw : vec :=
  if normalize cfg then repeat (Fin 1) nVar else UB cfg.

Definition to_orig (pos : matrix) : matrix :=
  map (fun row =>
         zip3 (fun lb x ub => xadd lb (xmul x (xsub ub lb)))
              (LB cfg) row (UB cfg)) pos.

Definition evaluate (pos : matrix) : vec :=
  if normalize cfg then func cfg (to_orig pos) else func cfg pos.

Definition clamp_vel (V : matrix) : matrix :=
  map (fun row => zip3 (fun v lo hi => fmin (fmax v lo) hi)
                       row vel_min vel_max) V.

Definition draw_informants (ku : nat) : list (list bool) :=
  mapi (fun i row => mapi (fun j u => Nat.eqb i j || xlt u (Fin p_informant))
                          row)
       (draw_matrix (uniform_draws (rng cfg)) ku (nPop cfg) (nPop cfg)).

(** Everything before the main loop, for the integer columns [cols]. *)
Definition init_swarm (cols : list nat) : Swarm :=
  let r1 := draw_matrix (uniform_draws (rng cfg)) 0 (nPop cfg) nVar in
  let agent_pos :=
    map (fun urow => zip3 (fun lb u ub => xadd lb (xmul u (xsub ub lb)))
                          LBw urow UBw) r1 in
  let agent_pos := on_int_cols cols (fun _ => xround) agent_pos in
  let r2 :=
    draw_matrix (uniform_draws (rng cfg)) (nPop cfg * nVar) (nPop cfg) nVar in
  let agent_vel :=
    map2 (fun xrow urow =>
            zip3 (fun lbx u ublb => xadd lbx (xmul u ublb))
                 (map2 xsub LBw xrow) urow (map2 xsub UBw LBw))
         agent_pos r2 in
  let agent_vel := clamp_vel agent_vel in
  let agent_cost := evaluate agent_pos in
  let agent_best_pos := agent_pos in
  let agent_best_cost := agent_cost in
  let idx := argmin agent_best_cost in
  let ku := (2 * (nPop cfg * nVar))%nat in
  if Nat.eqb (K cfg) 0 then
    let swarm_pos := nth idx agent_best_pos [] in
    mkSwarm agent_pos agent_vel agent_cost agent_best_pos agent_best_cost
            (nth idx agent_best_cost NaN) idx
            (repeat swarm_pos (nPop cfg))
            (map (fun i => if Nat.eqb i idx then Fin 0.75 else Fin 1)
                 (seq 0 (nPop cfg)))
            [] ku 0
  else
    let inf := draw_informants ku in
    let (gbp, peq) := group_best inf agent_best_pos agent_best_cost in
    mkSwarm agent_pos agent_vel agent_cost agent_best_pos agent_best_cost
            (nth idx agent_best_cost NaN) idx gbp peq inf
            (ku + nPop cfg * nPop cfg) 0.

(** The gravity point [Gr], one component. *)
Definition gravity1 (x p g peq : f64) : f64 :=
  xadd x (xmul (xmul (xmul (Fin (1 / 3)) cmax)
                     (xsub (xadd p g) (xmul (Fin 2) x)))
               peq).

Definition gravity (st : Swarm) : matrix :=
  zip3 (fun xpg rowg peq =>
          zip3 (fun x p g => gravity1 x p g peq) (fst xpg) (snd xpg) rowg)
       (combine (agent_pos st) (agent_best_pos st))
       (group_best_pos st) (p_equal_g st).

(** The velocity after the update and the velocity limits. *)
Definition updated_vel (st : Swarm) : matrix :=
  let Gr := gravity st in
  let x_sphere :=
    hypersphere_point (rng cfg) (n_normal st) (n_uniform st) Gr
                      (agent_pos st) in
  let v :=
    mmap2 xsub
      (mmap2 xadd
         (mmap2 xadd (map (map (xmul w)) (agent_vel st)) Gr) x_sphere)
      (agent_pos st) in
  clamp_vel v.

(** The mask [out] of the components that leave the open box. *)
Definition outside (cols : list nat) (pos vel : matrix) : list (list bool) :=
  let agent_pos_tmp := on_int_cols cols (fun _ => xround)
                                   (mmap2 xadd pos vel) in
  map (fun row => zip3 (fun t lb ub => negb (xgt t lb && xlt t ub))
                       row LBw UBw) agent_pos_tmp.

(** The confinement velocities and the number of uniform draws they use. *)
Definition confinement (ku : nat) (pos vel : matrix) : matrix * nat :=
  let n := (length vel * n_columns vel)%nat in
  match conf_type cfg with
  | RB => (random_back_conf (rng cfg) ku vel, n)
  | HY => (hyperbolic_conf pos vel UBw LBw, 0%nat)
  | MX => (mixed_conf (rng cfg) ku pos vel UBw LBw,
           (n + length pos * n_columns pos)%nat)
  end.

(** The velocity at the end of the epoch: [np.where(out, vel_conf, vel)]. *)
Definition confined_vel (out : list (list bool)) (vel_conf vel : matrix)
  : matrix :=
  zip3 (zip3 (fun (o : bool) vc v => if o then vc else v)) out vel_conf vel.

(** The position at the end of the epoch. *)
Definition clip_pos (cols : list nat) (pos : matrix) : matrix :=
  let pos := on_int_cols cols (fun _ => xround) pos in
  let pos := map (fun row => zip3 (fun x lb ub => fmin (fmax x lb) ub)
                                  row LBw UBw) pos in
  let pos := on_int_cols cols
               (fun j x => fmax x (xceil (nth j LBw NaN))) pos in
  on_int_cols cols (fun j x => fmin x (xfloor (nth j UBw NaN))) pos.

(** One pass of the main loop. *)
Definition epoch (cols : list nat) (st : Swarm) : Swarm :=
  let vel := updated_vel st in
  let ku := (n_uniform st + length (agent_pos st))%nat in
  let kg :=
    (n_normal st + length (agent_pos st) * n_columns (agent_pos st))%nat in
  let out := outside cols (agent_pos st) vel in
  let (vel_conf, used) := confinement ku (agent_pos st) vel in
  let ku := (ku + used)%nat in
  let vel := confined_vel out vel_conf vel in
  let pos := clip_pos cols (mmap2 xadd (agent_pos st) vel) in
  let cost := evaluate pos in
  let better := map2 xlt cost (agent_best_cost st) in
  let best_pos :=
    zip3 (fun (b : bool) new old => if b then new else old)
         better pos (agent_best_pos st) in
  let best_cost :=
    zip3 (fun (b : bool) new old => if b then new else old)
         better cost (agent_best_cost st) in
  let idx := argmin best_cost in
  let improved := xlt (nth idx best_cost NaN) (swarm_best_cost st) in
  let sb_cost := if improved then nth idx best_cost NaN
                 else swarm_best_cost st in
  let sb_idx := if improved then idx else swarm_best_idx st in
  if Nat.eqb (K cfg) 0 then
    mkSwarm pos vel cost best_pos best_cost sb_cost sb_idx
            (repeat (nth sb_idx best_pos []) (nPop cfg)) (p_equal_g st)
            (informants st) ku kg
  else
    let regen := negb improved in
    let inf := if regen then draw_informants ku else informants st in
    let ku := if regen then (ku + nPop cfg * nPop cfg)%nat else ku in
    let (gbp, peq) := group_best inf best_pos best_cost in
    mkSwarm pos vel cost best_pos best_cost sb_cost sb_idx gbp peq inf
            ku kg.

(** The swarm after [n] more passes of the loop. *)
Fixpoint run (cols : list nat) (n : nat) (st : Swarm) : Swarm :=
  match n with
  | O => st
  | Datatypes.S n' => run cols n' (epoch cols st)
  end.

(** What [PSO] returns from the final swarm. *)
Definition finish (st : Swarm) : vec * (f64 * nat * nat) :=
  let sbp := swarm_best_pos st in
  let delta :=
    if normalize cfg
    then map (fun row => map2 xsub row sbp) (agent_best_pos st)
    else
      let deltaB :=
        map2 (fun ub lb => fmax (xsub ub lb) (Fin 1e-10)) UBw LBw in
      map (fun row => map2 xdiv (map2 xsub row sbp) deltaB)
          (agent_best_pos st) in
  let best :=
    if normalize cfg
    then zip3 (fun lb x ub => xadd lb (xmul x (xsub ub lb)))
              (LB cfg) sbp (UB cfg)
    else sbp in
  let dist :=
    map (fun row =>
           norm (map (fun x => xdiv x (Fin (sqrt (INR (nPop cfg))))) row))
        delta in
  let in_rad := length (filter (fun d => xlt d (Fin (rad cfg))) dist) in
  (best, (swarm_best_cost st, swarm_best_idx st, in_rad)).

(** [PSO].  The bounds must have the same length ([UB - LB] raises
    [ValueError] otherwise; numpy's stretching of a bound of length one is
    not modelled), [1.0 / float(nPop)] raises [ZeroDivisionError] for an
    empty swarm, and a wrong [IntVar] index raises [IndexError]. *)
Definition PSO_start : res (list nat * Swarm) :=
  if negb (Nat.eqb (length (UB cfg)) (length (LB cfg)))
  then Raise ValueError
  else if Nat.eqb (nPop cfg) 0 then Raise ZeroDivisionError
  else match resolve_IntVar nVar (IntVar cfg) with
       | Raise e => Raise e
       | Ok cols => Ok (cols, init_swarm cols)
       end.

(** The swarm after [n] passes of the main loop. *)
Definition PSO_after (n : nat) : res Swarm :=
  match PSO_start with
  | Ok (cols, st0) => Ok (run cols n st0)
  | Raise e => Raise e
  end.

Definition PSO : res (vec * (f64 * nat * nat)) :=
  match PSO_after (epochs cfg) with
  | Ok st => Ok (finish st)
  | Raise e => Raise e
  end.

End PSO.

(** ** Notions used in the statements *)

(** A float that is NaN, [+inf] or a non-negative real. *)
Definition nonneg (x : f64) : Prop :=
  match x with
  | Fin a => 0 <= a
  | PInf | NaN => True
  | NInf => False
  end.

(** A float that is NaN or a real of [[0, 1]]. *)
Definition unit_or_nan (x : f64) : Prop :=
  match x with
  | Fin a => 0 <= a <= 1
  | NaN => True
  | PInf | NInf => False
  end.

(** The sum of a list of reals. *)
Definition rsum (l : list R) : R := fold_right Rplus 0 l.


(** A layout of one input with one membership function and one output,
    with its rule table built. *)
Definition one_rule : ANFIS :=
  set_combs [[0%nat]] (ANFIS_init [1%nat] 1 Continuous).

(** The first premise index of input [k]: the number of membership
    functions of the inputs before it. *)
Definition offset (nmf : list nat) (k : nat) : nat :=
  nat_sum (firstn k nmf).

(** The index ranges of the inputs, by recursion on the layout. *)
Fixpoint ranges_from (acc : nat) (nmf : list nat) : list (list nat) :=
  match nmf with
  | [] => []
  | n :: t => seq acc n :: ranges_from (acc + n) t
  end.

(** A rule: one premise index per input, taken in the range of that
    input. *)
Definition valid_rule (nmf : list nat) (r : list nat) : Prop :=
  length r = length nmf
  /\ forall k, (k < length nmf)%nat ->
       (offset nmf k <= nth k r 0 < offset nmf k + nth k nmf 0)%nat.


(** The velocity, the position and the swarm-best cost at the end of one
    pass of the loop. *)
Definition epoch_vel (cfg : PSO_args) (cols : list nat) (st : Swarm)
  : matrix :=
  let vel := updated_vel cfg st in
  confined_vel (outside cfg cols (agent_pos st) vel)
               (fst (confinement cfg (n_uniform st + length (agent_pos st))
                                 (agent_pos st) vel))
               vel.

Definition epoch_best_cost (cfg : PSO_args) (cols : list nat) (st : Swarm)
  : vec :=
  let pos := clip_pos cfg cols (mmap2 xadd (agent_pos st)
                                      (epoch_vel cfg cols st)) in
  let cost := evaluate cfg pos in
  zip3 (fun (b : bool) new old => if b then new else old)
       (map2 xlt cost (agent_best_cost st)) cost (agent_best_cost st).

(** A cost that is not above another one: equal to it (NaN included) or
    strictly below it. *)
Definition not_above (a b : f64) : Prop := a = b \/ xlt a b = true.

(** A swarm of one particle in one dimension, with constant draws and a
    constant objective. *)
Definition still_rng : RNG := mkRNG (fun _ => 0) (fun _ => 1).
Definition tiny_args (lb ub : R) (ct : Conf) (iv : IntVarSpec) : PSO_args :=
  mkArgs (fun pos => map (fun _ => Fin 0) pos) [Fin lb] [Fin ub]
         1 1 0 2 0.5 ct iv false 0.1 still_rng.

(** A float inside the closed interval of two finite bounds. *)
Definition in_box (lb ub x : f64) : Prop :=
  match lb, ub, x with
  | Fin a, Fin b, Fin v => a <= v <= b
  | _, _, _ => False
  end.

(** The four steps of [clip_pos] on one component of column [j]. *)
Definition clip1 (cfg : PSO_args) (cols : list nat) (j : nat) (x : f64)
  : f64 :=
  let x1 := if is_int_col cols j then xround x else x in
  let x2 := fmin (fmax x1 (nth j (LBw cfg) NaN)) (nth j (UBw cfg) NaN) in
  let x3 := if is_int_col cols j
            then fmax x2 (xceil (nth j (LBw cfg) NaN)) else x2 in
  if is_int_col cols j then fmin x3 (xfloor (nth j (UBw cfg) NaN)) else x3.

(** The working bounds are finite and ordered. *)
Definition bounds_ordered (cfg : PSO_args) : Prop :=
  Forall2 (fun lb ub => exists a b, lb = Fin a /\ ub = Fin b /\ a <= b)
          (LBw cfg) (UBw cfg).

(** The box of every integer column holds an integer. *)
Definition int_feasible (cfg : PSO_args) (cols : list nat) : Prop :=
  forall j, In j cols ->
    xle (xceil (nth j (LBw cfg) NaN)) (xfloor (nth j (UBw cfg) NaN)) = true.

(** A velocity inside the limits [-vm, vm], or NaN. *)
Definition within_or_nan (vm v : f64) : Prop :=
  v = NaN \/ in_box (xneg vm) vm v.

(** Rows of velocities: clamped (finite and inside the limits), inside the
    limits, inside the limits or NaN. *)
Definition row_clamped (cfg : PSO_args) (row : vec) : Prop :=
  forall j, (j < length row)%nat ->
    exists m r, nth j (vel_max cfg) NaN = Fin m /\ nth j row NaN = Fin r
                /\ - m <= r <= m.

Definition row_inside (cfg : PSO_args) (row : vec) : Prop :=
  forall j, (j < length row)%nat ->
    in_box (xneg (nth j (vel_max cfg) NaN)) (nth j (vel_max cfg) NaN)
           (nth j row NaN).

Definition row_within (cfg : PSO_args) (row : vec) : Prop :=
  forall j, (j < length row)%nat ->
    within_or_nan (nth j (vel_max cfg) NaN) (nth j row NaN).

Definition unit_draws (rng_ : RNG) : Prop :=
  forall k, 0 <= uniform_draws rng_ k < 1.

(** ** The rest of the ANFIS class *)

Local Open Scope monad_scope.


(** [f_activation]: two masked assignments on an array of zeros, the second
    mask being the negation of the first (so a NaN goes through the second
    formula). *)
Definition f_activation1 (z : f64) : f64 :=
  let a := Fin 0 in
  let idx := xge z (Fin 0) in
  let a := if idx then xdiv (Fin 1) (xadd (Fin 1) (xexp (xneg z))) else a in
  let idx := negb idx in
  let a := if idx then xdiv (xexp z) (xadd (Fin 1) (xexp z)) else a in
  a.

Definition f_activation (z : matrix) : matrix := map (map f_activation1) z.

(** [np.argmax] along a row: the first NaN if there is one, else the first
    maximum.  (numpy raises [ValueError] on an empty row; the caller tests
    for it.) *)
Fixpoint argmax_from (l : vec) (i : nat) (mp : f64) (mi : nat) : nat :=
  match l with
  | [] => mi
  | x :: t =>
      if negb (xle x mp) then
        (if is_nan x then i else argmax_from t (Datatypes.S i) x i)
      else argmax_from t (Datatypes.S i) mp mi
  end.

Definition argmax (l : vec) : nat :=
  match l with
  | [] => 0%nat
  | x :: t => if is_nan x then 0%nat else argmax_from t 1 x 0
  end.

(** [ANFIS.eval_data].  [np.argmax(A, axis=1)] raises [ValueError] when
    there is no output column, and [Yu[idx]] raises [IndexError] when an
    output has no class.  (On an object that was never trained Python
    raises [AttributeError] for the missing attributes; here [combs] is
    empty and [forward_steps] raises.) *)
Definition eval_data (Xp : matrix) : M ANFIS matrix :=
  Xpe <- expand_input_dataset Xp ;;
  f <- forward_steps Xp Xpe ;;
  self <- get ;;
  match problem self with
  | Classification =>
      if Nat.eqb (n_outputs self) 0 then raise ValueError
      else
        let A_ := f_activation f in
        let idx := map argmax A_ in
        if forallb (fun i => Nat.ltb i (length (Yu self))) idx
        then ret (map (fun i => [nth i (Yu self) NaN]) idx)
        else raise IndexError
  | Continuous => ret f
  end.

Local Close Scope monad_scope.

(** [interface_PSO]: row [i] of [theta] is evaluated by learner [i], which
    is updated; a missing learner raises [IndexError], and an exception of
    [create_model] stops the loop. *)
Fixpoint interface_PSO (theta X Y : matrix) (learners : list ANFIS)
  : list ANFIS * res vec :=
  match theta with
  | [] => (learners, Ok [])
  | row :: rest =>
      match learners with
      | [] => ([], Raise IndexError)
      | l :: ls =>
          match create_model row X Y l with
          | (l', Ok J) =>
              let (ls', r) := interface_PSO rest X Y ls in
              (l' :: ls',
               match r with Ok Js => Ok (J :: Js) | Raise e => Raise e end)
          | (l', Raise e) => (l' :: ls, Raise e)
          end
      end
  end.


(** ** Utilities *)

Local Open Scope monad_scope.













Local Close Scope monad_scope.

(** [a == b] on floats: false as soon as an operand is NaN. *)
Definition xeq (x y : f64) : bool :=
  match x, y with
  | Fin a, Fin b => R_eqb a b
  | PInf, PInf | NInf, NInf => true
  | _, _ => false
  end.

Definition count_true (l : list bool) : nat :=
  length (filter (fun b : bool => b) l).

(** [calc_accu]: both arrays are flattened; arrays of different sizes are
    not modelled. *)
Definition calc_accu (a b : matrix) : f64 :=
  let a := concat a in
  let b := concat b in
  xdiv (xmul (Fin 100) (Fin (INR (count_true (map2 xeq a b)))))
       (Fin (INR (length a))).

(** [calc_rmse]: both arrays are flattened; arrays of different sizes are
    not modelled. *)
Definition calc_rmse (a b : matrix) : f64 :=
  let a := concat a in
  let b := concat b in
  xsqrt (xdiv (xsum (map (fun e => xpow e (Fin 2)) (map2 xsub a b)))
              (Fin (INR (length a)))).

(** The columns of a rectangular array. *)
Definition columns_of (X : matrix) : list vec :=
  map (fun j => map (fun row => nth j row NaN) X) (seq 0 (n_columns X)).




(** [X.mean(axis=0)] and [X.std(axis=0, ddof=ddof)] on one column: the
    sum over the number of rows, and the square root of the sum of the
    squared deviations over [max(n - ddof, 0)].  Both are exact here; the
    program rounds them, so that its mean of a constant column need not be
    that constant nor its deviation 0. *)
Definition np_mean (col : vec) : f64 :=
  xdiv (xsum col) (Fin (INR (length col))).

Definition np_std (ddof : nat) (col : vec) : f64 :=
  let m := np_mean col in
  let dev := map (fun x => xsub x m) col in
  xsqrt (xdiv (xsum (map (fun x => xmul x x) dev))
              (Fin (INR (length col - ddof)))).

(** [normalize_data] with mean and deviation given, and without (a
    dataset without rows is not modelled). *)
Definition normalize_with (X : matrix) (mu_ sigma : vec) : matrix :=
  map (fun row => zip3 (fun x m sg => xdiv (xsub x m) sg) row mu_ sigma) X.

Definition normalize_data (X : matrix) (ddof : nat)
  : matrix * (vec * vec) :=
  let mu_ := map np_mean (columns_of X) in
  let sigma := map (np_std ddof) (columns_of X) in
  (normalize_with X mu_ sigma, (mu_, sigma)).

(** [get_classes] and [build_classes], on the flattened labels. *)
Definition get_classes (Y : vec) : nat * vec :=
  let class_list := unique Y in
  (length class_list, class_list).

Definition build_classes (Y : vec) : matrix * vec :=
  let Yu_ := unique Y in
  let idx := map (fun y => index_of y Yu_) Y in
  let n_classes := length Yu_ in
  (map (one_hot n_classes) idx, Yu_).

(** ** Further notions used in the statements *)

(** Two objects with the same layout and the same cached data: they may
    differ in the parameters [mu], [s], [c] and [A] only. *)
Definition same_setup (a b : ANFIS) : Prop :=
  n_mf a = n_mf b /\ n_outputs a = n_outputs b /\ problem a = problem b
  /\ init_prob a = init_prob b /\ Xe a = Xe b /\ Yout a = Yout b
  /\ Yu a = Yu b /\ combs a = combs b.

(** The logistic function, which [f_activation] evaluates and of which
    [logsig] evaluates the logarithm. *)
Definition sigmoid (z : R) : R := 1 / (1 + exp (- z)).

(** The object that [create_model] leaves on the two-class problem. *)
Definition two_class_model : ANFIS :=
  mkANFIS [1%nat] 2 Classification false [[Fin 0]; [Fin 0]]
          [[Fin 1; Fin 0]; [Fin 0; Fin 1]] [Fin 0; Fin 1]
          [[0%nat]] [Fin 0] [Fin 1] [Fin 1]
          [[Fin 0; Fin 0]; [Fin 0; Fin 0]].

(** The arguments [cfg] with another [IntVar]. *)
Definition with_IntVar (iv : IntVarSpec) (cfg : PSO_args) : PSO_args :=
  mkArgs (func cfg) (LB cfg) (UB cfg) (nPop cfg) (epochs cfg) (K cfg)
         (phi cfg) (vel_fact cfg) (conf_type cfg) iv (normalize cfg)
         (rad cfg) (rng cfg).



(** An array of [rows] rows of [cols_] entries each. *)
Definition has_shape {T : Type} (rows cols_ : nat) (m : list (list T))
  : Prop :=
  length m = rows /\ Forall (fun row => length row = cols_) m.

(** The dimensions of the variables of the loop: those that the docstring
    of [PSO] lists, except for [p_equal_g], which the docstring gives as
    [(nPop)] and the program builds as a column of shape [(nPop, 1)]; its
    [nPop] entries are counted. *)
Definition swarm_shapes (cfg : PSO_args) (st : Swarm) : Prop :=
  has_shape (nPop cfg) (nVar cfg) (agent_pos st)
  /\ has_shape (nPop cfg) (nVar cfg) (agent_vel st)
  /\ has_shape (nPop cfg) (nVar cfg) (agent_best_pos st)
  /\ has_shape (nPop cfg) (nVar cfg) (group_best_pos st)
  /\ length (agent_cost st) = nPop cfg
  /\ length (agent_best_cost st) = nPop cfg
  /\ length (p_equal_g st) = nPop cfg
  /\ (K cfg <> 0%nat -> has_shape (nPop cfg) (nPop cfg) (informants st))
  /\ (swarm_best_idx st < nPop cfg)%nat.

(** The objective as the loop sees it, for an objective [func] that
    applies [g] to every row: on one row of working positions, mapped
    back to the original box when the search space is normalised. *)
Definition row_cost (cfg : PSO_args) (g : vec -> f64) (row : vec) : f64 :=
  if normalize cfg
  then g (zip3 (fun lb x ub => xadd lb (xmul x (xsub ub lb)))
               (LB cfg) row (UB cfg))
  else g row.

(** The best costs are the costs of the best positions, the best cost of
    the swarm is the best cost of the particle [swarm_best_idx], and it is
    NaN as soon as a best cost is NaN. *)
Definition best_coherent (cfg : PSO_args) (g : vec -> f64) (st : Swarm)
  : Prop :=
  agent_best_cost st = map (row_cost cfg g) (agent_best_pos st)
  /\ swarm_best_cost st = nth (swarm_best_idx st) (agent_best_cost st) NaN
  /\ (is_nan (swarm_best_cost st) = false ->
      Forall (fun x => is_nan x = false) (agent_best_cost st)).



(** * Properties *)

(** ** Deciding comparisons of reals *)

Lemma R_ltb_true (a b : R) : a < b -> R_ltb a b = true.
Proof.
  intros H; unfold R_ltb; destruct (Rlt_dec a b);
    [reflexivity | contradiction].
Qed.

Lemma R_ltb_false (a b : R) : ~ a < b -> R_ltb a b = false.
Proof.
  intros H; unfold R_ltb; destruct (Rlt_dec a b);
    [contradiction | reflexivity].
Qed.

Lemma R_leb_true (a b : R) : a <= b -> R_leb a b = true.
Proof.
  intros H; unfold R_leb; destruct (Rle_dec a b);
    [reflexivity | contradiction].
Qed.

Lemma R_leb_false (a b : R) : ~ a <= b -> R_leb a b = false.
Proof.
  intros H; unfold R_leb; destruct (Rle_dec a b);
    [contradiction | reflexivity].
Qed.

Lemma R_eqb_true (a b : R) : a = b -> R_eqb a b = true.
Proof.
  intros H; unfold R_eqb; destruct (Req_dec_T a b);
    [reflexivity | contradiction].
Qed.

Lemma R_eqb_false (a b : R) : a <> b -> R_eqb a b = false.
Proof.
  intros H; unfold R_eqb; destruct (Req_dec_T a b);
    [contradiction | reflexivity].
Qed.

Lemma R_ltb_spec (a b : R) : R_ltb a b = true <-> a < b.
Proof.
  unfold R_ltb; destruct (Rlt_dec a b); split; intros; auto; discriminate.
Qed.

Lemma R_leb_spec (a b : R) : R_leb a b = true <-> a <= b.
Proof.
  unfold R_leb; destruct (Rle_dec a b); split; intros; auto; discriminate.
Qed.

Lemma R_eqb_spec (a b : R) : R_eqb a b = true <-> a = b.
Proof.
  unfold R_eqb; destruct (Req_dec_T a b); split; intros; auto; discriminate.
Qed.

(** Case analysis on every comparison of reals in the goal. *)
Ltac r_cases :=
  unfold R_ltb, R_leb, R_eqb in *;
  repeat match goal with
         | |- context [Rlt_dec ?a ?b] => destruct (Rlt_dec a b)
         | |- context [Rle_dec ?a ?b] => destruct (Rle_dec a b)
         | |- context [Req_dec_T ?a ?b] => destruct (Req_dec_T a b)
         end.

(** Evaluation of the comparisons of a closed expression. *)
Ltac r_eval :=
  repeat first
    [ rewrite R_ltb_true by lra | rewrite R_ltb_false by lra
    | rewrite R_leb_true by lra | rewrite R_leb_false by lra
    | rewrite R_eqb_true by lra | rewrite R_eqb_false by lra ].

(** ** Range of the premise functions *)

Lemma xmul_self_nonneg (d : f64) : nonneg (xmul d d).
Proof. destruct d; simpl; auto. nra. Qed.

Lemma Rpower_pos (a b : R) : 0 < Rpower a b.
Proof. unfold Rpower. apply exp_pos. Qed.

Lemma xpow_nonneg (x y : f64) : nonneg x -> nonneg (xpow x y).
Proof.
  destruct x as [a| | |], y as [b| | |]; simpl; intros H;
    r_cases; simpl; try lra; auto;
    try (pose proof (Rpower_pos a b); lra).
Qed.

Lemma recip_one_plus_range (p : f64) :
  nonneg p -> unit_or_nan (xdiv (Fin 1) (xadd (Fin 1) p)).
Proof.
  destruct p as [a| | |]; simpl; intros H; auto; try lra.
  r_cases; simpl; try lra.
  split.
  - apply Rlt_le. apply Rdiv_lt_0_compat; lra.
  - apply (Rmult_le_reg_r (1 + a)); [lra |].
    unfold Rdiv. rewrite Rmult_assoc, Rinv_l; lra.
Qed.

Lemma premise_range (xe m sg e : f64) : unit_or_nan (premise xe m sg e).
Proof.
  unfold premise. apply recip_one_plus_range, xpow_nonneg, xmul_self_nonneg.
Qed.

Lemma recip_one_plus_pos (a : R) :
  0 <= a ->
  exists r, xdiv (Fin 1) (xadd (Fin 1) (Fin a)) = Fin r /\ 0 < r <= 1.
Proof.
  intros Ha. simpl. rewrite R_eqb_false by lra.
  exists (1 / (1 + a)). split; [reflexivity |]. split.
  - apply Rdiv_lt_0_compat; lra.
  - apply (Rmult_le_reg_r (1 + a)); [lra |].
    unfold Rdiv. rewrite Rmult_assoc, Rinv_l; lra.
Qed.

(** The premise function at finite arguments with a non-zero spread: the
    power [(d * d) ** c] it is built on. *)
Lemma premise_finite (xe m sg e : R) :
  sg <> 0 ->
  premise (Fin xe) (Fin m) (Fin sg) (Fin e) =
  xdiv (Fin 1)
       (xadd (Fin 1)
             (xpow (Fin ((xe + - m) / sg * ((xe + - m) / sg))) (Fin e))).
Proof.
  intros Hs. unfold premise. simpl xsub.
  assert (E : xdiv (Fin (xe + - m)) (Fin sg) = Fin ((xe + - m) / sg)).
  { unfold xdiv. rewrite R_eqb_false by exact Hs. reflexivity. }
  rewrite E. reflexivity.
Qed.

(** The power [(d * d) ** c] of a premise function at finite arguments with
    a non-zero spread: [+inf] or a non-negative real; [+inf] on the centre
    with a negative exponent, 0 on the centre with a positive one, and a
    positive real off the centre (in exact arithmetic). *)
Lemma premise_power (xe m sg e : R) :
  sg <> 0 ->
  let d := xdiv (xsub (Fin xe) (Fin m)) (Fin sg) in
  let p := xpow (xmul d d) (Fin e) in
  (p = PInf \/ exists a, p = Fin a /\ 0 <= a)
  /\ (xe = m -> e < 0 -> p = PInf)
  /\ (xe = m -> 0 < e -> p = Fin 0)
  /\ (xe <> m -> exists a, p = Fin a /\ 0 < a).
Proof.
  intros Hs d p.
  assert (Ed : xmul d d = Fin ((xe + - m) / sg * ((xe + - m) / sg))).
  { unfold d. simpl xsub. unfold xdiv. rewrite R_eqb_false by exact Hs.
    reflexivity. }
  set (q := (xe + - m) / sg) in Ed.
  assert (Hq : xe <> m -> 0 < q * q).
  { intros Hne.
    assert (q <> 0).
    { unfold q, Rdiv. apply Rmult_integral_contrapositive_currified.
      - lra.
      - apply Rinv_neq_0_compat; exact Hs. }
    nra. }
  assert (Hq0 : xe = m -> q * q = 0).
  { intros ->. unfold q, Rdiv. replace (m + - m) with 0 by lra.
    rewrite Rmult_0_l. lra. }
  assert (C1 : xe = m -> e < 0 -> p = PInf).
  { intros Hxm He. unfold p. rewrite Ed, (Hq0 Hxm). unfold xpow.
    rewrite (R_eqb_false e 0) by lra.
    rewrite R_ltb_false by lra. rewrite R_eqb_true by reflexivity.
    rewrite R_ltb_false by lra. reflexivity. }
  assert (C2 : xe = m -> 0 < e -> p = Fin 0).
  { intros Hxm He. unfold p. rewrite Ed, (Hq0 Hxm). unfold xpow.
    rewrite (R_eqb_false e 0) by lra.
    rewrite R_ltb_false by lra. rewrite R_eqb_true by reflexivity.
    rewrite R_ltb_true by lra. reflexivity. }
  assert (C3 : xe <> m -> exists a, p = Fin a /\ 0 < a).
  { intros Hne. unfold p. rewrite Ed. unfold xpow.
    destruct (Req_dec_T e 0) as [He | He].
    - rewrite (R_eqb_true e 0 He). exists 1. split; [reflexivity | lra].
    - rewrite (R_eqb_false e 0 He). rewrite (R_ltb_true _ _ (Hq Hne)).
      eexists. split; [reflexivity | apply Rpower_pos]. }
  split; [| split; [exact C1 | split; [exact C2 | exact C3]]].
  destruct (Req_dec_T xe m) as [Hxm | Hxm].
  - destruct (Rlt_dec e 0) as [He | He]; [left; exact (C1 Hxm He) |].
    right. destruct (Req_dec_T e 0) as [He0 | He0].
    + exists 1. split; [| lra]. unfold p. rewrite Ed. unfold xpow.
      rewrite (R_eqb_true e 0 He0). reflexivity.
    + exists 0. split; [apply C2; [exact Hxm | lra] | lra].
  - right. destruct (C3 Hxm) as [a [Ea Ha]]. exists a. split; [exact Ea | lra].
Qed.

(** C8 (as amended).  For finite [mu], [s <> 0], [c] and input value, the
    premise membership [pf = 1 / (1 + (d * d) ** c)] is a real of the
    closed interval [[0, 1]].  The power [(d * d) ** c] is [+inf] or a
    non-negative real; [pf] is 0 when it is [+inf] and lies in (0, 1] when
    it is a real.  With the input on the centre ([Xe = mu]) the power is
    [0 ** c]: [+inf] for [c < 0], with no guard, so that [pf] is exactly 0,
    and 0 for [c > 0], so that [pf] is 1. *)
Theorem premise_membership_range (xe m sg e : R) :
  sg <> 0 ->
  let d := xdiv (xsub (Fin xe) (Fin m)) (Fin sg) in
  let p := xpow (xmul d d) (Fin e) in
  let pf := premise (Fin xe) (Fin m) (Fin sg) (Fin e) in
  (exists r, pf = Fin r /\ 0 <= r <= 1)
  /\ (p = PInf \/ exists a, p = Fin a /\ 0 <= a)
  /\ (p = PInf -> pf = Fin 0)
  /\ (forall a, p = Fin a -> exists r, pf = Fin r /\ 0 < r <= 1)
  /\ (xe = m -> e < 0 -> p = PInf /\ pf = Fin 0)
  /\ (xe = m -> 0 < e -> p = Fin 0 /\ pf = Fin 1).
Proof.
  intros Hs d p pf.
  destruct (premise_power xe m sg e Hs) as [Hp [Hneg [Hpos _]]].
  fold d in Hp, Hneg, Hpos. fold p in Hp, Hneg, Hpos.
  assert (Epf : pf = xdiv (Fin 1) (xadd (Fin 1) p)) by reflexivity.
  assert (Hinf : p = PInf -> pf = Fin 0).
  { intros E. rewrite Epf, E. reflexivity. }
  assert (Hfin : forall a, p = Fin a -> 0 <= a ->
                 exists r, pf = Fin r /\ 0 < r <= 1).
  { intros a E Ha. rewrite Epf, E. apply recip_one_plus_pos. exact Ha. }
  assert (Hnn : forall a, p = Fin a -> 0 <= a).
  { intros a E. destruct Hp as [Hp | [b [Hb Hb0]]]; [congruence |].
    rewrite E in Hb. injection Hb as ->. exact Hb0. }
  split; [| split; [exact Hp | split; [exact Hinf | split; [| split]]]].
  - destruct Hp as [Hp | [a [Ea Ha]]].
    + exists 0. split; [exact (Hinf Hp) | lra].
    + destruct (Hfin a Ea Ha) as [r [Er Hr]]. exists r.
      split; [exact Er | lra].
  - intros a E. exact (Hfin a E (Hnn a E)).
  - intros Hxm He. split; [exact (Hneg Hxm He) | exact (Hinf (Hneg Hxm He))].
  - intros Hxm He. split; [exact (Hpos Hxm He) |].
    rewrite Epf, (Hpos Hxm He). simpl. rewrite R_eqb_false by lra.
    f_equal. field.
Qed.

Lemma premise_membership_range_witness :
  (1 : R) <> 0
  /\ (exists r, premise (Fin 2) (Fin 0) (Fin 1) (Fin 1) = Fin r
                /\ 0 <= r <= 1).
Proof.
  assert (H1 : (1 : R) <> 0) by lra.
  split; [exact H1 |].
  exact (proj1 (premise_membership_range 2 0 1 1 H1)).
Defined.


(** C8 as stated fails: with the input on the centre ([Xe = mu = 0]),
    [s = 1] and the negative exponent [c = -1], the membership is 0, outside
    (0, 1]. *)
Lemma premise_zero_at_centre :
  premise (Fin 0) (Fin 0) (Fin 1) (Fin (-1)) = Fin 0
  /\ ~ (exists r, premise (Fin 0) (Fin 0) (Fin 1) (Fin (-1)) = Fin r
                  /\ 0 < r <= 1).
Proof.
  assert (E : premise (Fin 0) (Fin 0) (Fin 1) (Fin (-1)) = Fin 0).
  { rewrite premise_finite by lra.
    replace ((0 + - 0) / 1 * ((0 + - 0) / 1)) with 0 by lra.
    unfold xpow. r_eval. reflexivity. }
  split; [exact E |].
  intros [r [Hr Hb]]. rewrite E in Hr. injection Hr as <-. lra.
Qed.

(** On the numbers of the program the power is [+inf] off the centre too,
    when [d * d] overflows: with the input 1e200, [mu = 0], [s = 1] and
    [c = 1] the membership is 0. *)
Lemma float64_premise_overflow :
  (0x1.4e718d7d7625ap+664 * 0x1.4e718d7d7625ap+664)%float = infinity
  /\ b64_premise 0x1.4e718d7d7625ap+664 0 1 1 = Some 0%float.
Proof. split; vm_compute; reflexivity. Qed.

(** ** Firing strengths and their normalisation *)

Lemma fold_xadd_nan (w : vec) : fold_left xadd w NaN = NaN.
Proof. induction w as [| x w IH]; simpl; [reflexivity | exact IH]. Qed.

Lemma fold_xmul_nan (w : vec) : fold_left xmul w NaN = NaN.
Proof. induction w as [| x w IH]; simpl; [reflexivity | exact IH]. Qed.

Lemma fold_xadd_fin (rs : list R) (a : R) :
  fold_left xadd (map Fin rs) (Fin a) = Fin (a + rsum rs).
Proof.
  revert a. induction rs as [| r rs IH]; intros a; simpl.
  - f_equal. lra.
  - rewrite IH. f_equal. lra.
Qed.

Lemma xsum_fin (rs : list R) : xsum (map Fin rs) = Fin (rsum rs).
Proof. unfold xsum. rewrite fold_xadd_fin. f_equal. lra. Qed.

(** A sum of floats that are NaN or in [[0, 1]] is NaN, or all of them are
    reals and the sum is their exact sum. *)
Lemma fold_xadd_unit (w : vec) (a : R) :
  Forall unit_or_nan w ->
  fold_left xadd w (Fin a) = NaN \/
  exists rs, w = map Fin rs /\ Forall (fun r => 0 <= r <= 1) rs.
Proof.
  intros Hw. revert a. induction Hw as [| x w Hx Hw IH]; intros a.
  - right. exists []. split; [reflexivity | constructor].
  - destruct x as [r | | |]; simpl in Hx; try contradiction.
    + simpl. destruct (IH (a + r)) as [Hn | [rs [E Hrs]]].
      * left. exact Hn.
      * right. exists (r :: rs). split; [simpl; f_equal; exact E |].
        constructor; assumption.
    + left. simpl. apply fold_xadd_nan.
Qed.

Lemma xsum_unit (w : vec) :
  Forall unit_or_nan w ->
  xsum w = NaN \/
  exists rs, w = map Fin rs /\ Forall (fun r => 0 <= r <= 1) rs.
Proof. apply fold_xadd_unit. Qed.

Lemma rsum_nonneg (rs : list R) :
  Forall (fun r => 0 <= r <= 1) rs -> 0 <= rsum rs.
Proof. induction 1; simpl; lra. Qed.

Lemma rsum_zero (rs : list R) :
  Forall (fun r => 0 <= r <= 1) rs -> rsum rs = 0 ->
  Forall (fun r => r = 0) rs.
Proof.
  induction 1 as [| r rs Hr Hrs IH]; simpl; intros E; constructor.
  - pose proof (rsum_nonneg rs Hrs). lra.
  - apply IH. pose proof (rsum_nonneg rs Hrs). lra.
Qed.

Lemma rsum_scale (rs : list R) (t : R) :
  rsum (map (fun r => r / t) rs) = rsum rs / t.
Proof.
  induction rs as [| r rs IH]; simpl.
  - unfold Rdiv. lra.
  - rewrite IH. unfold Rdiv. lra.
Qed.



(** Layer 3 on a row whose sum is zero: every ratio is [0 / 0]. *)
Lemma normalize_row_zero (w : vec) :
  Forall unit_or_nan w ->
  xsum w = Fin 0 ->
  Forall (fun x => x = Fin 0) w /\ Forall (fun x => x = NaN) (normalize_row w).
Proof.
  intros Hw Hz.
  destruct (xsum_unit w Hw) as [Hn | [rs [E Hrs]]].
  - rewrite Hn in Hz. discriminate.
  - subst w. pose proof Hz as Hz'. rewrite xsum_fin in Hz'.
    injection Hz' as Hz'.
    pose proof (rsum_zero rs Hrs Hz') as Hall.
    split.
    + apply Forall_forall. intros x Hx. apply in_map_iff in Hx.
      destruct Hx as [r [<- Hr]]. f_equal.
      exact (proj1 (Forall_forall _ _) Hall r Hr).
    + unfold normalize_row. rewrite Hz. apply Forall_forall.
      intros x Hx. apply in_map_iff in Hx. destruct Hx as [y [<- Hy]].
      apply in_map_iff in Hy. destruct Hy as [r [<- Hr]].
      rewrite (proj1 (Forall_forall _ _) Hall r Hr).
      unfold xdiv. rewrite R_eqb_true by reflexivity. reflexivity.
Qed.

Lemma xmul_unit (x y : f64) :
  unit_or_nan x -> unit_or_nan y -> unit_or_nan (xmul x y).
Proof.
  destruct x, y; simpl; auto; try contradiction. intros; nra.
Qed.

Lemma fold_xmul_unit (v : vec) (acc : f64) :
  unit_or_nan acc -> Forall unit_or_nan v ->
  unit_or_nan (fold_left xmul v acc).
Proof.
  intros Ha Hv. revert acc Ha.
  induction Hv as [| x v Hx Hv IH]; intros acc Ha; simpl.
  - exact Ha.
  - apply IH. apply xmul_unit; assumption.
Qed.

Lemma premise_row_range (row m sg e : vec) :
  Forall unit_or_nan (premise_row row m sg e).
Proof.
  revert m sg e. induction row as [| x row IH]; intros m sg e; simpl.
  - constructor.
  - destruct m, sg, e; try constructor.
    + apply premise_range.
    + apply IH.
Qed.

Lemma nth_unit (p : vec) (k : nat) :
  Forall unit_or_nan p -> unit_or_nan (nth k p NaN).
Proof.
  intros Hp. destruct (nth_in_or_default k p NaN) as [Hin | ->].
  - exact (proj1 (Forall_forall _ _) Hp _ Hin).
  - exact I.
Qed.

(** Layer 2: every firing strength is NaN or a real of [[0, 1]]. *)
Lemma firing_row_range (cb : list (list nat)) (p : vec) :
  Forall unit_or_nan p -> Forall unit_or_nan (firing_row cb p).
Proof.
  intros Hp. unfold firing_row. apply Forall_forall. intros x Hx.
  apply in_map_iff in Hx. destruct Hx as [j [<- _]].
  unfold xprod. apply fold_xmul_unit.
  - simpl. lra.
  - apply Forall_forall. intros y Hy. apply in_map_iff in Hy.
    destruct Hy as [k [<- _]]. apply nth_unit. exact Hp.
Qed.

Lemma nth_rows_Forall {T : Type} (P : T -> Prop) (m : list (list T))
  (i : nat) :
  Forall (Forall P) m -> Forall P (nth i m []).
Proof.
  intros Hm. destruct (nth_in_or_default i m []) as [Hin | ->].
  - exact (proj1 (Forall_forall _ _) Hm _ Hin).
  - constructor.
Qed.

Lemma firing_strengths_range (self : ANFIS) (Xe_ : matrix) (i : nat) :
  Forall unit_or_nan (nth i (firing_strengths self Xe_) []).
Proof.
  apply nth_rows_Forall. unfold firing_strengths, layer2, layer1.
  apply Forall_forall. intros w Hw.
  apply in_map_iff in Hw. destruct Hw as [p [<- Hp]].
  apply in_map_iff in Hp. destruct Hp as [row [<- _]].
  apply firing_row_range, premise_row_range.
Qed.

Lemma layer3_nth (W : matrix) (i : nat) :
  nth i (layer3 W) [] = normalize_row (nth i W []).
Proof. unfold layer3. apply (map_nth normalize_row W [] i). Qed.

(** Evaluation of a closed float expression: comparisons of real constants
    are settled by [lra], the rest by computation. *)
Ltac x_eval :=
  repeat (progress (r_eval; unfold f64_eqb, f64_leb;
                    cbn -[R_ltb R_leb R_eqb premise])).

Lemma premise_centre_pos :
  premise (Fin 0) (Fin 0) (Fin 1) (Fin 1) = Fin (1 / (1 + 0)).
Proof.
  rewrite premise_finite by lra.
  replace ((0 + - 0) / 1 * ((0 + - 0) / 1)) with 0 by lra.
  unfold xpow. r_eval. simpl. r_eval. reflexivity.
Qed.

Lemma premise_centre_neg :
  premise (Fin 0) (Fin 0) (Fin 1) (Fin (-1)) = Fin 0.
Proof.
  rewrite premise_finite by lra.
  replace ((0 + - 0) / 1 * ((0 + - 0) / 1)) with 0 by lra.
  unfold xpow. r_eval. reflexivity.
Qed.

(** Whenever the firing strengths of a sample sum to zero they are all
    zero, and every normalised firing strength of that sample is NaN. *)
Lemma zero_firing_row_is_nan (self : ANFIS) (Xe_ : matrix) (i : nat) :
  let W := firing_strengths self Xe_ in
  xsum (nth i W []) = Fin 0 ->
  Forall (fun x => x = Fin 0) (nth i W [])
  /\ Forall (fun x => x = NaN) (nth i (layer3 W) []).
Proof.
  intros W Hz. rewrite layer3_nth.
  apply normalize_row_zero; [apply firing_strengths_range | exact Hz].
Qed.

(** C9.  There are a parameter vector of length [n_var] and a sample (one
    input with one membership function, the input on the centre and a
    negative exponent) for which the only firing strength is zero; layer 3
    then computes [0 / 0] with no guard, and the forward pass returns NaN
    for that sample, as does the cost, without raising. *)
Theorem zero_firing_propagates_nan :
  exists (theta : vec) (X Y : matrix) (self' : ANFIS),
    let self := ANFIS_init [1%nat] 1 Classification in
    length theta = n_var self
    /\ create_model theta X Y self = (self', Ok NaN)
    /\ firing_strengths self' (Xe self') = [[Fin 0]]
    /\ xsum (nth 0 (firing_strengths self' (Xe self')) []) = Fin 0
    /\ layer3 (firing_strengths self' (Xe self')) = [[NaN]]
    /\ forward_steps X (Xe self') self' = (self', Ok [[NaN]]).
Proof.
  exists [Fin 0; Fin 1; Fin (-1); Fin 0; Fin 0], [[Fin 0]], [[Fin 0]].
  exists (mkANFIS [1%nat] 1 Classification false [[Fin 0]] [[Fin 1]]
                  [Fin 0] [[0%nat]] [Fin 0] [Fin 1] [Fin (-1)]
                  [[Fin 0]; [Fin 0]]).
  cbv zeta.
  split; [reflexivity |].
  split.
  { unfold create_model. cbn -[premise R_ltb R_eqb R_leb].
    rewrite premise_centre_neg. x_eval. unfold ret. reflexivity. }
  assert (W : firing_strengths
                (mkANFIS [1%nat] 1 Classification false [[Fin 0]] [[Fin 1]]
                         [Fin 0] [[0%nat]] [Fin 0] [Fin 1] [Fin (-1)]
                         [[Fin 0]; [Fin 0]]) [[Fin 0]] = [[Fin 0]]).
  { cbn -[premise R_ltb R_eqb R_leb]. rewrite premise_centre_neg. x_eval.
    repeat f_equal. lra. }
  split; [exact W |].
  split.
  { cbn [Xe]. rewrite W. cbn. f_equal. lra. }
  split.
  { cbn [Xe]. rewrite W. cbn -[R_eqb]. x_eval. reflexivity. }
  cbn -[premise R_ltb R_eqb R_leb]. rewrite premise_centre_neg. x_eval.
  reflexivity.
Qed.

(** ** Parameter binding *)

Lemma length_slice {T : Type} (l : list T) (a b : nat) :
  length (slice l a b) = Nat.min (b - a) (length l - a).
Proof. unfold slice. rewrite length_firstn, length_skipn. reflexivity. Qed.


Lemma nth_map_seq {T : Type} (f : nat -> T) (n r : nat) (d : T) :
  (r < n)%nat -> nth r (map f (seq 0 n)) d = f r.
Proof.
  intros Hr.
  rewrite (nth_indep _ d (f 0%nat))
    by (rewrite length_map, length_seq; exact Hr).
  rewrite map_nth. rewrite seq_nth by exact Hr. reflexivity.
Qed.

Lemma n_var_split (self : ANFIS) :
  n_var self
  = (3 * n_pf self + (n_inputs self + 1) * (n_cf self * n_outputs self))%nat.
Proof. unfold n_var. rewrite Nat.mul_assoc. reflexivity. Qed.

Lemma build_param_unfold (self : ANFIS) (theta : vec) :
  build_param theta self =
  let self1 :=
    set_premise (slice theta 0 (n_pf self))
                (slice theta (n_pf self) (2 * n_pf self))
                (slice theta (2 * n_pf self) (3 * n_pf self)) self in
  match reshape (slice theta (3 * n_pf self) (n_var self))
                (n_inputs self + 1) (n_cf self * n_outputs self) with
  | Ok a => (set_A a self1, Ok tt)
  | Raise e => (self1, Raise e)
  end.
Proof.
  unfold build_param, bind, get, modify, lift. cbv zeta.
  destruct (reshape _ _ _); reflexivity.
Qed.



(** ** The rule table *)

Lemma fold_mul_acc (l : list nat) (a : nat) :
  fold_left Nat.mul l a = (a * fold_left Nat.mul l 1)%nat.
Proof.
  revert a. induction l as [| x l IH]; intros a; cbn [fold_left].
  - lia.
  - rewrite (IH (a * x)%nat), (IH (1 * x)%nat). lia.
Qed.

Lemma nat_prod_cons (x : nat) (l : list nat) :
  nat_prod (x :: l) = (x * nat_prod l)%nat.
Proof. unfold nat_prod. simpl. rewrite fold_mul_acc. lia. Qed.

Lemma fold_add_acc (l : list nat) (a : nat) :
  fold_left Nat.add l a = (a + fold_left Nat.add l 0)%nat.
Proof.
  revert a. induction l as [| x l IH]; intros a; cbn [fold_left].
  - lia.
  - rewrite (IH (a + x)%nat), (IH (0 + x)%nat). lia.
Qed.

Lemma nat_sum_cons (x : nat) (l : list nat) :
  nat_sum (x :: l) = (x + nat_sum l)%nat.
Proof. unfold nat_sum. simpl. rewrite fold_add_acc. lia. Qed.

Lemma nth_cumsum_from (l : list nat) (acc i : nat) :
  (i < length l)%nat ->
  nth i (cumsum_from acc l) 0%nat
  = (acc + nat_sum (firstn (Datatypes.S i) l))%nat.
Proof.
  revert acc i. induction l as [| x l IH]; intros acc i Hi; simpl in Hi.
  - lia.
  - destruct i as [| i].
    + simpl. unfold nat_sum. simpl. lia.
    + cbn [cumsum_from nth]. rewrite IH by lia.
      cbn [firstn]. rewrite (nat_sum_cons x). lia.
Qed.

Lemma fold_append_ranges (g : nat -> list nat) (l : list nat)
  (v : list (list nat)) :
  fold_left (fun v i => v ++ [g i]) l v = v ++ map g l.
Proof.
  revert v. induction l as [| i l IH]; intros v; simpl.
  - rewrite app_nil_r. reflexivity.
  - rewrite IH, <- app_assoc. reflexivity.
Qed.

Lemma ranges_from_nth (nmf : list nat) (acc : nat) :
  ranges_from acc nmf
  = map (fun k => seq (acc + offset nmf k) (nth k nmf 0%nat))
        (seq 0 (length nmf)).
Proof.
  revert acc. induction nmf as [| n t IH]; intros acc.
  - reflexivity.
  - cbn [ranges_from length seq map]. f_equal.
    + unfold offset. simpl. unfold nat_sum. simpl. f_equal. lia.
    + rewrite IH, <- seq_shift, map_map. apply map_ext. intros k.
      unfold offset. cbn [firstn nth]. rewrite nat_sum_cons. f_equal. lia.
Qed.

Lemma nat_sum_firstn_S (l : list nat) (m : nat) :
  nat_sum (firstn (Datatypes.S m) l)
  = (nat_sum (firstn m l) + nth m l 0)%nat.
Proof.
  revert l. induction m as [| m IH]; intros l.
  - destruct l; simpl; unfold nat_sum; simpl; lia.
  - destruct l as [| x l]; [reflexivity |].
    change (firstn (Datatypes.S (Datatypes.S m)) (x :: l))
      with (x :: firstn (Datatypes.S m) l).
    change (firstn (Datatypes.S m) (x :: l)) with (x :: firstn m l).
    rewrite !nat_sum_cons, IH. cbn [nth]. lia.
Qed.

Lemma build_ranges_cons (n : nat) (t : list nat) :
  build_ranges (n :: t)
  = Ok (fold_left
          (fun v i => v ++ [arange (nth (i - 1) (cumsum (n :: t)) 0%nat)
                                   (nth i (cumsum (n :: t)) 0%nat)])
          (seq 1 (length (n :: t) - 1))
          [arange 0 (0 + n)]).
Proof. reflexivity. Qed.

Lemma build_ranges_ok (nmf : list nat) :
  nmf <> [] -> build_ranges nmf = Ok (ranges_from 0 nmf).
Proof.
  intros Hne. rewrite ranges_from_nth.
  destruct nmf as [| n t]; [contradiction |].
  rewrite build_ranges_cons, fold_append_ranges.
  replace (length (n :: t) - 1)%nat with (length t) by (simpl; lia).
  cbn [length seq map app]. f_equal. f_equal.
  - unfold arange, offset, nat_sum. cbn. f_equal. lia.
  - apply map_ext_in. intros k Hk.
    apply in_seq in Hk. unfold arange, cumsum.
    rewrite !nth_cumsum_from by (simpl; lia).
    replace (Datatypes.S (k - 1)) with k by lia.
    unfold offset. rewrite nat_sum_firstn_S. f_equal; lia.
Qed.

Lemma length_product {T : Type} (v : list (list T)) :
  length (product v) = nat_prod (map (@length T) v).
Proof.
  induction v as [| v0 rest IH].
  - reflexivity.
  - cbn [product map]. rewrite nat_prod_cons, <- IH.
    induction v0 as [| x v0 IHv]; simpl.
    + reflexivity.
    + rewrite length_app, length_map, IHv. reflexivity.
Qed.

Lemma in_product {T : Type} (v : list (list T)) (r : list T) :
  In r (product v) <-> Forall2 (fun x rng => In x rng) r v.
Proof.
  revert r. induction v as [| v0 rest IH]; intros r.
  - simpl. split.
    + intros [<- | []]. constructor.
    + intros H. inversion H. left. reflexivity.
  - cbn [product]. rewrite in_flat_map. split.
    + intros [x [Hx Hr]]. apply in_map_iff in Hr.
      destruct Hr as [r' [<- Hr']]. constructor; [exact Hx |].
      apply IH. exact Hr'.
    + intros H. inversion H as [| x rng r' v' Hx Hr']; subst.
      exists x. split; [exact Hx |]. apply in_map. apply IH. exact Hr'.
Qed.

Lemma NoDup_map_cons {T : Type} (x : T) (l : list (list T)) :
  NoDup l -> NoDup (map (cons x) l).
Proof.
  induction 1 as [| r l Hr Hl IH]; simpl; constructor; [| exact IH].
  rewrite in_map_iff. intros [y [E Hy]]. injection E as ->. contradiction.
Qed.

Lemma NoDup_product {T : Type} (v : list (list T)) :
  Forall (@NoDup T) v -> NoDup (product v).
Proof.
  induction 1 as [| v0 rest Hv0 Hrest IH].
  - simpl. constructor; [intros [] | constructor].
  - cbn [product]. induction Hv0 as [| x v0 Hx Hv0 IHv]; simpl.
    + constructor.
    + apply NoDup_app.
      * apply NoDup_map_cons. exact IH.
      * exact IHv.
      * intros r Hr Hr'. apply in_map_iff in Hr.
        destruct Hr as [r' [<- _]]. apply in_flat_map in Hr'.
        destruct Hr' as [y [Hy Hr']]. apply in_map_iff in Hr'.
        destruct Hr' as [r'' [E _]]. injection E as -> _. contradiction.
Qed.

Lemma map_length_ranges_from (acc : nat) (nmf : list nat) :
  map (@length nat) (ranges_from acc nmf) = nmf.
Proof.
  revert acc. induction nmf as [| n t IH]; intros acc; simpl.
  - reflexivity.
  - rewrite length_seq, IH. reflexivity.
Qed.

Lemma NoDup_ranges_from (acc : nat) (nmf : list nat) :
  Forall (@NoDup nat) (ranges_from acc nmf).
Proof.
  revert acc. induction nmf as [| n t IH]; intros acc; simpl; constructor.
  - apply seq_NoDup.
  - apply IH.
Qed.

Lemma Forall2_ranges_from (acc : nat) (nmf : list nat) (r : list nat) :
  Forall2 (fun x rng => In x rng) r (ranges_from acc nmf)
  <-> length r = length nmf
      /\ forall k, (k < length nmf)%nat ->
           (acc + offset nmf k <= nth k r 0
            < acc + offset nmf k + nth k nmf 0)%nat.
Proof.
  revert acc r. induction nmf as [| n t IH]; intros acc r.
  - simpl. split.
    + intros H. inversion H. split; [reflexivity | intros; lia].
    + intros [Hl _]. destruct r; [constructor | discriminate].
  - cbn [ranges_from]. split.
    + intros H. inversion H as [| x rng r' v' Hx Hr']; subst.
      apply IH in Hr'. destruct Hr' as [Hl Hk]. apply in_seq in Hx.
      split; [simpl; lia |].
      intros k Hlt. destruct k as [| k].
      * unfold offset, nat_sum. simpl. lia.
      * unfold offset. cbn [firstn nth]. rewrite nat_sum_cons.
        specialize (Hk k). simpl in Hlt. unfold offset in Hk. lia.
    + intros [Hl Hk]. destruct r as [| x r']; [discriminate |].
      constructor.
      * apply in_seq. specialize (Hk 0%nat).
        unfold offset, nat_sum in Hk. simpl in Hk. lia.
      * apply IH. split; [simpl in Hl; lia |].
        intros k Hlt. specialize (Hk (Datatypes.S k)).
        unfold offset in Hk. cbn [firstn nth] in Hk.
        rewrite nat_sum_cons in Hk. unfold offset. simpl in Hk. lia.
Qed.

Lemma in_product_ranges (nmf r : list nat) :
  In r (product (ranges_from 0 nmf)) <-> valid_rule nmf r.
Proof.
  rewrite in_product, Forall2_ranges_from. unfold valid_rule.
  split; intros [Hl Hk]; (split; [exact Hl |]); intros k Hlt;
    specialize (Hk k Hlt); lia.
Qed.

Lemma nth_all_seq (l : list nat) :
  map (fun k => nth k l 0%nat) (seq 0 (length l)) = l.
Proof.
  apply (nth_ext _ _ 0%nat 0%nat).
  - rewrite length_map, length_seq. reflexivity.
  - intros k Hk. rewrite length_map, length_seq in Hk.
    rewrite nth_map_seq by exact Hk. reflexivity.
Qed.

Lemma column_transpose (cols : list (list nat)) (n j : nat) :
  Forall (fun col => length col = n) cols ->
  (j < length cols)%nat ->
  column (transpose cols) j = nth j cols [].
Proof.
  intros Hall Hj. destruct cols as [| c0 cols']; [simpl in Hj; lia |].
  unfold column, transpose. rewrite map_map.
  assert (Hn : length (nth j (c0 :: cols') []) = n).
  { apply (proj1 (Forall_forall _ _) Hall). apply nth_In. exact Hj. }
  assert (H0 : length c0 = n) by (inversion Hall; assumption).
  rewrite H0, <- Hn. rewrite <- (nth_all_seq (nth j (c0 :: cols') [])) at 2.
  apply map_ext. intros k.
  transitivity (nth j (map (fun col => nth k col 0%nat) (c0 :: cols'))
                    (nth k [] 0%nat)).
  - f_equal. destruct k; reflexivity.
  - apply (map_nth (fun col => nth k col 0%nat)).
Qed.

Lemma transpose_shape (cols : list (list nat)) (n : nat) :
  cols <> [] ->
  Forall (fun col => length col = n) cols ->
  length (transpose cols) = n
  /\ Forall (fun row => length row = length cols) (transpose cols).
Proof.
  intros Hne Hall. destruct cols as [| c0 cols']; [contradiction |].
  assert (H0 : length c0 = n) by (inversion Hall; assumption).
  unfold transpose. split.
  - rewrite length_map, length_seq. exact H0.
  - apply Forall_forall. intros row Hrow. apply in_map_iff in Hrow.
    destruct Hrow as [k [<- _]]. apply length_map.
Qed.

Lemma product_lengths {T : Type} (v : list (list T)) :
  Forall (fun r => length r = length v) (product v).
Proof.
  apply Forall_forall. intros r Hr. apply in_product in Hr.
  induction Hr; simpl; [reflexivity | f_equal; assumption].
Qed.

Lemma length_ranges_from (acc : nat) (nmf : list nat) :
  length (ranges_from acc nmf) = length nmf.
Proof.
  rewrite <- (map_length_ranges_from acc nmf) at 2.
  rewrite length_map. reflexivity.
Qed.

Lemma nat_prod_pos (nmf : list nat) :
  Forall (fun m => (0 < m)%nat) nmf -> (0 < nat_prod nmf)%nat.
Proof.
  induction 1 as [| m t Hm Ht IH].
  - unfold nat_prod. simpl. lia.
  - rewrite nat_prod_cons. nia.
Qed.

Lemma build_combs_unfold (self : ANFIS) :
  build_combs self =
  match build_combs_of (n_mf self) with
  | Ok cb => (set_combs cb self, Ok tt)
  | Raise e => (self, Raise e)
  end.
Proof.
  unfold build_combs, bind, get, lift, modify.
  destruct (build_combs_of (n_mf self)); reflexivity.
Qed.

(** C2 (as amended).  On the layout [3; 2], [build_combs] stores the table
    of the 6 columns of {0,1,2} x {3,4}.  On every layout with at least one
    input it returns and stores in [combs] a table of [n_cf = prod(n_mf)]
    columns: every column is a rule (one premise index per input, in the
    range of that input, the ranges being offset by the counts of the
    inputs before), every rule is a column, and no two columns are equal;
    the table has [n_inputs] rows of length [n_cf] when every count is
    positive, and no row at all when a count is zero.  Nothing else of the
    object changes. *)
Theorem build_combs_cartesian :
  (forall self : ANFIS,
      n_mf self = [3; 2]%nat ->
      build_combs self
      = (set_combs [[0; 0; 1; 1; 2; 2]; [3; 4; 3; 4; 3; 4]]%nat self, Ok tt))
  /\ forall self : ANFIS,
      n_mf self <> [] ->
      exists self',
        build_combs self = (self', Ok tt)
        /\ self' = set_combs (combs self') self
        /\ (Forall (fun m => (0 < m)%nat) (n_mf self) ->
            length (combs self') = n_inputs self
            /\ Forall (fun row => length row = n_cf self) (combs self'))
        /\ (n_cf self = 0%nat -> combs self' = [])
        /\ (forall j, (j < n_cf self)%nat ->
              valid_rule (n_mf self) (column (combs self') j))
        /\ (forall r, valid_rule (n_mf self) r ->
              exists j, (j < n_cf self)%nat /\ column (combs self') j = r)
        /\ (forall j1 j2, (j1 < n_cf self)%nat -> (j2 < n_cf self)%nat ->
              column (combs self') j1 = column (combs self') j2 -> j1 = j2).
Proof.
  split.
  { intros self E. rewrite build_combs_unfold, E. reflexivity. }
  intros self Hne. rewrite build_combs_unfold.
  unfold n_cf, n_inputs. set (nmf := n_mf self) in *.
  unfold build_combs_of. rewrite (build_ranges_ok nmf Hne).
  set (P := product (ranges_from 0 nmf)).
  assert (HlenP : length P = nat_prod nmf).
  { unfold P. rewrite length_product, map_length_ranges_from. reflexivity. }
  assert (HallP : Forall (fun col => length col = length nmf) P).
  { unfold P. rewrite <- (length_ranges_from 0 nmf). apply product_lengths. }
  exists (set_combs (transpose P) self). split; [reflexivity |].
  cbn [combs set_combs].
  split; [destruct self; reflexivity |].
  rewrite <- HlenP.
  split; [| split; [| split; [| split]]].
  - intros Hpos.
    assert (HneP : P <> []).
    { pose proof (nat_prod_pos nmf Hpos).
      destruct P; [simpl in HlenP; lia | discriminate]. }
    exact (transpose_shape P (length nmf) HneP HallP).
  - intros H0. destruct P; [reflexivity | discriminate].
  - intros j Hj. rewrite (column_transpose P _ j HallP Hj).
    apply in_product_ranges. apply nth_In. exact Hj.
  - intros r Hr. apply in_product_ranges in Hr. fold P in Hr.
    destruct (In_nth P r [] Hr) as [j [Hj E]].
    exists j. split; [exact Hj |].
    rewrite (column_transpose P _ j HallP Hj). exact E.
  - intros j1 j2 H1 H2 E.
    rewrite (column_transpose P _ j1 HallP H1) in E.
    rewrite (column_transpose P _ j2 HallP H2) in E.
    assert (HND : NoDup P) by (apply NoDup_product, NoDup_ranges_from).
    exact (proj1 (NoDup_nth P []) HND j1 j2 H1 H2 E).
Qed.

Lemma build_combs_cartesian_witness :
  exists self',
    build_combs (ANFIS_init [2; 2]%nat 1 Continuous) = (self', Ok tt)
    /\ length (combs self') = 2%nat
    /\ column (combs self') 3 = [1; 3]%nat.
Proof.
  destruct build_combs_cartesian as [_ H].
  destruct (H (ANFIS_init [2; 2]%nat 1 Continuous))
    as [self' [E [_ [Hshape _]]]].
  - discriminate.
  - exists self'. split; [exact E |]. split.
    + apply Hshape. repeat constructor.
    + cbv in E. injection E as <-. reflexivity.
Defined.

(** C2 as stated fails: on the layout without inputs, [idx[0]] raises
    [IndexError] and no table is stored. *)
Lemma build_combs_empty_layout :
  build_combs (ANFIS_init [] 1 Continuous)
  = (ANFIS_init [] 1 Continuous, Raise IndexError)
  /\ ~ (exists self', build_combs (ANFIS_init [] 1 Continuous)
                      = (self', Ok tt)).
Proof.
  split; [reflexivity |].
  intros [self' E]. discriminate E.
Qed.

(** ** Class labels *)

Lemma f64_leb_fin (a b : R) : f64_leb (Fin a) (Fin b) = R_leb a b.
Proof. reflexivity. Qed.

Lemma f64_eqb_fin (a b : R) : f64_eqb (Fin a) (Fin b) = R_eqb a b.
Proof.
  unfold f64_eqb. rewrite !f64_leb_fin. r_cases; simpl; try reflexivity; lra.
Qed.

Lemma insert_unique_fin (a : R) (rs : list R) :
  exists rs', insert_unique (Fin a) (map Fin rs) = map Fin rs'
              /\ (forall x, In x rs' <-> x = a \/ In x rs)
              /\ (StronglySorted Rlt rs -> StronglySorted Rlt rs').
Proof.
  induction rs as [| b rs [rs' [E [Hin Hs]]]].
  - exists [a]. split; [reflexivity |]. split.
    + intros x. simpl. intuition.
    + intros _. repeat constructor.
  - cbn [map insert_unique]. rewrite f64_eqb_fin, f64_leb_fin.
    destruct (Req_dec_T a b) as [Hab | Hab].
    + rewrite (R_eqb_true a b Hab). exists (b :: rs).
      split; [reflexivity |]. split.
      * intros x. simpl. intuition congruence.
      * auto.
    + rewrite (R_eqb_false a b Hab).
      destruct (Rle_dec a b) as [Hle | Hle].
      * rewrite (R_leb_true a b Hle). exists (a :: b :: rs).
        split; [reflexivity |]. split.
        -- intros x. simpl. intuition.
        -- intros Hsorted. constructor; [exact Hsorted |].
           inversion Hsorted as [| ? ? Hs' Hall]; subst.
           constructor; [lra |].
           eapply Forall_impl; [| exact Hall]. simpl. intros; lra.
      * rewrite (R_leb_false a b Hle). rewrite E. exists (b :: rs').
        split; [reflexivity |]. split.
        -- intros x. simpl. rewrite Hin. intuition.
        -- intros Hsorted.
           inversion Hsorted as [| ? ? Hs' Hall]; subst.
           constructor; [apply Hs; exact Hs' |].
           apply Forall_forall. intros x Hx. apply Hin in Hx.
           destruct Hx as [-> | Hx]; [lra |].
           exact (proj1 (Forall_forall _ _) Hall x Hx).
Qed.

(** On finite labels, [unique] returns the labels that occur, each once, in
    increasing order. *)
Lemma unique_fin (rs : list R) :
  exists us, unique (map Fin rs) = map Fin us
             /\ (forall x, In x us <-> In x rs)
             /\ StronglySorted Rlt us.
Proof.
  induction rs as [| a rs [us [E [Hin Hs]]]].
  - exists []. split; [reflexivity |]. split; [tauto | constructor].
  - unfold unique in *. cbn [map fold_right]. rewrite E.
    destruct (insert_unique_fin a us) as [us' [E' [Hin' Hs']]].
    exists us'. split; [exact E' |]. split.
    + intros x. rewrite Hin'. simpl. rewrite Hin. intuition.
    + apply Hs'. exact Hs.
Qed.

Lemma nth_one_hot (n i j : nat) :
  (j < n)%nat ->
  nth j (one_hot n i) NaN = if Nat.eqb j i then Fin 1 else Fin 0.
Proof.
  intros Hj. unfold one_hot.
  exact (nth_map_seq (fun k => if Nat.eqb k i then Fin 1 else Fin 0)
                     n j NaN Hj).
Qed.

Lemma nth_index_of (y : f64) (l : vec) :
  (exists x, In x l /\ f64_eqb y x = true) ->
  (index_of y l < length l)%nat
  /\ f64_eqb y (nth (index_of y l) l NaN) = true.
Proof.
  induction l as [| x l IH]; intros [z [Hz Ez]].
  - destruct Hz.
  - cbn [index_of]. destruct (f64_eqb y x) eqn:E.
    + split; [simpl; lia | exact E].
    + destruct Hz as [-> | Hz]; [congruence |].
      destruct IH as [Hl Hn]; [exists z; split; assumption |].
      split; [simpl; lia | exact Hn].
Qed.

Lemma sorted_NoDup (us : list R) : StronglySorted Rlt us -> NoDup us.
Proof.
  induction 1 as [| a us Hs IH Hall]; constructor; [| exact IH].
  intros Hin. pose proof (proj1 (Forall_forall _ _) Hall a Hin). lra.
Qed.

Lemma concat_singletons (ys : list R) :
  concat (map (fun y => [Fin y]) ys) = map Fin ys.
Proof. induction ys as [| y ys IH]; simpl; [| rewrite IH]; reflexivity. Qed.

(** [build_class_matrix] on a column of finite labels: [Yu] lists the labels
    that occur, once each, in increasing order, and [Yout[i, j]] is 1 when
    sample [i] has label [Yu[j]] and 0 otherwise. *)
Lemma build_class_matrix_one_hot (ys : list R) :
  let Y := map (fun y => [Fin y]) ys in
  exists us,
    snd (build_class_matrix Y) = map Fin us
    /\ StronglySorted Rlt us
    /\ (forall x, In x us <-> In x ys)
    /\ length (fst (build_class_matrix Y)) = length ys
    /\ forall i j, (i < length ys)%nat -> (j < length us)%nat ->
         nth j (nth i (fst (build_class_matrix Y)) []) NaN
         = if Req_dec_T (nth i ys 0) (nth j us 0) then Fin 1 else Fin 0.
Proof.
  intros Y. unfold build_class_matrix, Y. cbv zeta. cbn [fst snd].
  rewrite concat_singletons.
  destruct (unique_fin ys) as [us [E [Hin Hs]]].
  exists us. rewrite E. split; [reflexivity |]. split; [exact Hs |].
  split; [exact Hin |].
  rewrite !map_map, !length_map. split; [reflexivity |].
  intros i j Hi Hj.
  pose (F := fun y : R => one_hot (length us)
                            (index_of (Fin y) (map Fin us))).
  assert (Erow : nth i (map F ys) [] = F (nth i ys 0)).
  { transitivity (nth i (map F ys) (F 0)).
    - apply nth_indep. rewrite length_map. exact Hi.
    - apply map_nth. }
  change (nth j (nth i (map F ys) []) NaN
          = if Req_dec_T (nth i ys 0) (nth j us 0) then Fin 1 else Fin 0).
  unfold vec in *. rewrite Erow. unfold F.
  rewrite nth_one_hot by exact Hj.
  set (y := nth i ys 0).
  assert (Hy : In y us) by (apply Hin; apply nth_In; exact Hi).
  destruct (nth_index_of (Fin y) (map Fin us)) as [Hl Hn].
  { exists (Fin y). split; [apply in_map; exact Hy |].
    rewrite f64_eqb_fin. apply R_eqb_true. reflexivity. }
  rewrite length_map in Hl.
  rewrite (nth_indep _ NaN (Fin 0)) in Hn by (rewrite length_map; exact Hl).
  rewrite (map_nth Fin us 0) in Hn. rewrite f64_eqb_fin in Hn.
  apply R_eqb_spec in Hn.
  destruct (Nat.eqb_spec j (index_of (Fin y) (map Fin us))) as [Ej | Ej].
  - subst j. destruct (Req_dec_T y (nth _ us 0)); [reflexivity | contradiction].
  - destruct (Req_dec_T y (nth j us 0)) as [Ey | Ey]; [| reflexivity].
    exfalso. apply Ej.
    apply (proj1 (NoDup_nth us 0) (sorted_NoDup us Hs));
      [exact Hj | exact Hl |].
    congruence.
Qed.

(** ** The classification cost *)


Lemma bind_eq {S T U : Type} (m : M S T) (k : T -> M S U) (st st1 : S)
  (a : T) :
  m st = (st1, Ok a) -> bind m k st = k a st1.
Proof. intros H. unfold bind. rewrite H. reflexivity. Qed.

Lemma forward_steps_state (X Xe_ : matrix) (self self' : ANFIS)
  (r : res matrix) :
  forward_steps X Xe_ self = (self', r) -> self' = self.
Proof.
  unfold forward_steps, bind, get, raise, lift, ret.
  destruct (combs self); [intros H; injection H; auto |].
  destruct (output_columns _ _ _ _); intros H; injection H; auto.
Qed.




Lemma premise_centre_one :
  premise (Fin 0) (Fin 0) (Fin 1) (Fin 1) = Fin 1.
Proof. rewrite premise_centre_pos. f_equal. lra. Qed.

(** The four bands of [logsig] at a real argument. *)
Lemma logsig1_fin (z : R) :
  logsig1 (Fin z) =
  if Rlt_dec z (-33.3) then Fin z
  else if Rlt_dec z (-18) then Fin (z + - exp z)
  else if Rlt_dec z 37 then Fin (- ln (1 + exp (- z)))
  else Fin (- exp (- z)).
Proof.
  unfold logsig1, xge, xle, xlt. cbv zeta.
  destruct (Rlt_dec z (-33.3)); destruct (Rlt_dec z (-18));
    destruct (Rlt_dec z 37); try lra; r_eval; cbn [andb]; r_eval;
    cbn -[R_ltb]; pose proof (exp_pos (- z)); r_eval; reflexivity.
Qed.



Lemma build_param_ok (self : ANFIS) (theta : vec) :
  (n_var self <= length theta)%nat ->
  exists a,
    length a = (n_inputs self + 1)%nat
    /\ build_param theta self
       = (set_A a (set_premise (slice theta 0 (n_pf self))
                               (slice theta (n_pf self) (2 * n_pf self))
                               (slice theta (2 * n_pf self) (3 * n_pf self))
                               self),
          Ok tt).
Proof.
  intros Hlen. pose proof (n_var_split self) as Hv.
  rewrite build_param_unfold. cbv zeta. unfold reshape.
  rewrite length_slice.
  replace (Nat.min (n_var self - 3 * n_pf self)
                   (length theta - 3 * n_pf self))
    with ((n_inputs self + 1) * (n_cf self * n_outputs self))%nat by lia.
  rewrite Nat.eqb_refl. eexists. split; [| reflexivity].
  rewrite length_map, length_seq. reflexivity.
Qed.

Lemma output_columns_ok (self : ANFIS) (Wr X1 : matrix) (is_ : list nat) :
  Forall (fun row => length row = length (A self)) X1 ->
  exists cols, output_columns self Wr X1 is_ = Ok cols.
Proof.
  intros Hx. induction is_ as [| i rest [cols IH]].
  - exists []. reflexivity.
  - cbn [output_columns]. unfold output_column, matmul.
    rewrite length_map.
    assert (E : forallb (fun row => Nat.eqb (length row) (length (A self))) X1
                = true).
    { apply forallb_forall. intros row Hrow. apply Nat.eqb_eq.
      exact (proj1 (Forall_forall _ _) Hx row Hrow). }
    rewrite E, IH. eexists. reflexivity.
Qed.

Lemma forward_steps_ok (self : ANFIS) (X Xe_ : matrix) :
  combs self <> [] ->
  Forall (fun row => Datatypes.S (length row) = length (A self)) X ->
  exists f, forward_steps X Xe_ self = (self, Ok f).
Proof.
  intros Hc Hx. unfold forward_steps, bind, get, lift, ret.
  destruct (combs self) as [| c0 cb]; [contradiction |].
  destruct (output_columns_ok self (layer3 (firing_strengths self Xe_))
              (map (fun row => Fin 1 :: row) X) (seq 0 (n_outputs self)))
    as [cols E].
  - apply Forall_forall. intros row Hrow. apply in_map_iff in Hrow.
    destruct Hrow as [r [<- Hr]]. simpl.
    exact (proj1 (Forall_forall _ _) Hx r Hr).
  - rewrite E. eexists. reflexivity.
Qed.

Lemma build_combs_of_ok (nmf : list nat) :
  nmf <> [] -> Forall (fun m => (0 < m)%nat) nmf ->
  exists cb, build_combs_of nmf = Ok cb /\ cb <> [].
Proof.
  intros Hne Hpos. unfold build_combs_of. rewrite (build_ranges_ok nmf Hne).
  eexists. split; [reflexivity |].
  set (P := product (ranges_from 0 nmf)).
  assert (HlenP : length P = nat_prod nmf).
  { unfold P. rewrite length_product, map_length_ranges_from. reflexivity. }
  assert (HallP : Forall (fun col => length col = length nmf) P).
  { unfold P. rewrite <- (length_ranges_from 0 nmf). apply product_lengths. }
  assert (HneP : P <> []).
  { pose proof (nat_prod_pos nmf Hpos). destruct P; [simpl in HlenP; lia |].
    discriminate. }
  destruct (transpose_shape P (length nmf) HneP HallP) as [Hrows _].
  intros E. rewrite E in Hrows. destruct nmf; [contradiction | discriminate].
Qed.

(** On well-shaped data the first call of [create_model] returns. *)
Lemma create_model_returns (nmf : list nat) (nout : nat) (p : Problem)
  (theta : vec) (X Y : matrix) :
  let self := ANFIS_init nmf nout p in
  nmf <> [] ->
  Forall (fun m => (0 < m)%nat) nmf ->
  Forall (fun row => length row = length nmf) X ->
  (n_var self <= length theta)%nat ->
  exists self' J, create_model theta X Y self = (self', Ok J).
Proof.
  intros self Hne Hpos HX Hlen.
  destruct (build_combs_of_ok nmf Hne Hpos) as [cb [Ecb Hcb]].
  unfold create_model.
  unfold bind at 1, get at 1. cbn [init_prob self ANFIS_init].
  set (s1 := set_combs cb (set_init_prob false self)).
  set (s2 := set_Xe (map (expand_row nmf) X) s1).
  set (s3 := match p with
             | Classification =>
                 set_classes (fst (build_class_matrix Y))
                             (snd (build_class_matrix Y)) s2
             | Continuous => s2
             end).
  assert (E1 : (modify (set_init_prob false) ;;;
                build_combs ;;;
                xe <- expand_input_dataset X ;;
                modify (set_Xe xe) ;;;
                self' <- get ;;
                match problem self' with
                | Classification =>
                    let (yo, yu) := build_class_matrix Y in
                    modify (set_classes yo yu)
                | Continuous => ret tt
                end)%monad self = (s3, Ok tt)).
  { unfold bind at 1, modify at 1.
    unfold bind at 1, build_combs at 1, bind at 1, get at 1, bind at 1, lift.
    cbn [n_mf set_init_prob self ANFIS_init]. rewrite Ecb.
    unfold modify at 1.
    unfold bind at 1, expand_input_dataset, bind at 1, get at 1.
    cbn [n_inputs n_mf set_combs set_init_prob ANFIS_init].
    assert (F : forallb (fun row => Nat.leb (length nmf) (length row)) X
                = true).
    { apply forallb_forall. intros row Hrow. apply Nat.leb_le.
      rewrite (proj1 (Forall_forall _ _) HX row Hrow). lia. }
    change (n_inputs (set_combs cb (set_init_prob false self)))
      with (length nmf).
    change (n_mf self) with nmf.
    rewrite F. unfold ret at 1.
    unfold bind at 1, modify at 1. unfold bind at 1, get at 1.
    cbn [problem set_Xe set_combs set_init_prob ANFIS_init].
    unfold s3, s2, s1, self. destruct p.
    - destruct (build_class_matrix Y) as [yo yu]. reflexivity.
    - reflexivity. }
  fold self. rewrite (bind_eq _ _ _ _ _ E1).
  assert (Hv : n_var s3 = n_var self) by (unfold s3; destruct p; reflexivity).
  destruct (build_param_ok s3 theta) as [a [Ha E2]]; [lia |].
  rewrite (bind_eq _ _ _ _ _ E2).
  set (s4 := set_A a _).
  unfold bind at 1, get at 1.
  destruct (forward_steps_ok s4 X (Xe s4)) as [f E3].
  - unfold s4, s3. destruct p; exact Hcb.
  - unfold s4. cbn [A set_A]. rewrite Ha.
    assert (Hn : n_inputs s3 = length nmf)
      by (unfold s3; destruct p; reflexivity).
    rewrite Hn. apply Forall_forall. intros row Hrow.
    rewrite (proj1 (Forall_forall _ _) HX row Hrow). lia.
  - rewrite (bind_eq _ _ _ _ _ E3).
    unfold bind at 1, get at 1.
    destruct (problem s4); unfold ret; eexists; eexists; reflexivity.
Qed.


(** ** The swarm across epochs *)

Lemma run_S (cfg : PSO_args) (cols : list nat) (n : nat) (st : Swarm) :
  run cfg cols (Datatypes.S n) st = epoch cfg cols (run cfg cols n st).
Proof.
  revert st. induction n as [| n IH]; intros st.
  - reflexivity.
  - change (run cfg cols (Datatypes.S (Datatypes.S n)) st)
      with (run cfg cols (Datatypes.S n) (epoch cfg cols st)).
    rewrite IH. reflexivity.
Qed.

Lemma epoch_fields (cfg : PSO_args) (cols : list nat) (st : Swarm) :
  agent_vel (epoch cfg cols st) = epoch_vel cfg cols st
  /\ agent_pos (epoch cfg cols st)
     = clip_pos cfg cols (mmap2 xadd (agent_pos st) (epoch_vel cfg cols st))
  /\ swarm_best_cost (epoch cfg cols st)
     = (let best := epoch_best_cost cfg cols st in
        let cand := nth (argmin best) best NaN in
        if xlt cand (swarm_best_cost st) then cand else swarm_best_cost st).
Proof.
  unfold epoch, epoch_best_cost, epoch_vel. cbv zeta.
  destruct (confinement cfg _ (agent_pos st) (updated_vel cfg st))
    as [vel_conf used].
  cbn [fst].
  destruct (Nat.eqb (K cfg) 0).
  - repeat split; reflexivity.
  - destruct (group_best _ _ _) as [gbp peq].
    repeat split; reflexivity.
Qed.

Lemma xlt_trans (a b c : f64) :
  xlt a b = true -> xlt b c = true -> xlt a c = true.
Proof.
  destruct a, b, c; simpl; try discriminate; try reflexivity.
  rewrite !R_ltb_spec. lra.
Qed.

Lemma not_above_refl (a : f64) : not_above a a.
Proof. left. reflexivity. Qed.

Lemma not_above_trans (a b c : f64) :
  not_above a b -> not_above b c -> not_above a c.
Proof.
  intros [-> | Hab] [-> | Hbc].
  - left. reflexivity.
  - right. exact Hbc.
  - right. exact Hab.
  - right. exact (xlt_trans a b c Hab Hbc).
Qed.

Lemma epoch_cost_not_above (cfg : PSO_args) (cols : list nat) (st : Swarm) :
  not_above (swarm_best_cost (epoch cfg cols st)) (swarm_best_cost st).
Proof.
  destruct (epoch_fields cfg cols st) as [_ [_ E]]. rewrite E. cbv zeta.
  destruct (xlt _ (swarm_best_cost st)) eqn:Hlt.
  - right. exact Hlt.
  - left. reflexivity.
Qed.

Lemma run_cost_not_above (cfg : PSO_args) (cols : list nat) (st : Swarm)
  (m k : nat) :
  not_above (swarm_best_cost (run cfg cols (k + m) st))
            (swarm_best_cost (run cfg cols m st)).
Proof.
  induction k as [| k IH].
  - apply not_above_refl.
  - change (Datatypes.S k + m)%nat with (Datatypes.S (k + m)).
    rewrite run_S.
    eapply not_above_trans; [apply epoch_cost_not_above | exact IH].
Qed.

(** C4.  Along a run of [PSO], for any arguments and any realisation of the
    random generator, the swarm-best cost after [n] epochs is not above the
    one after [m <= n] epochs: every epoch either keeps it or replaces it by
    a strictly smaller cost. *)
Theorem swarm_best_cost_non_increasing (cfg : PSO_args) (m n : nat)
  (st_m st_n : Swarm) :
  (m <= n)%nat ->
  PSO_after cfg m = Ok st_m ->
  PSO_after cfg n = Ok st_n ->
  not_above (swarm_best_cost st_n) (swarm_best_cost st_m).
Proof.
  intros Hmn Hm Hn. unfold PSO_after in Hm, Hn.
  destruct (PSO_start cfg) as [[cols st0] | e]; [| discriminate].
  injection Hm as <-. injection Hn as <-.
  replace n with ((n - m) + m)%nat by lia.
  apply run_cost_not_above.
Qed.

Lemma swarm_best_cost_non_increasing_witness :
  let cfg := tiny_args 0 1 RB IntNone in
  not_above (swarm_best_cost (epoch cfg [] (init_swarm cfg [])))
            (swarm_best_cost (init_swarm cfg [])).
Proof.
  intros cfg.
  apply (swarm_best_cost_non_increasing cfg 0 1).
  - lia.
  - reflexivity.
  - reflexivity.
Defined.

(** ** Positions stay in the box *)

Lemma length_mapi_from {T U : Type} (f : nat -> T -> U) (i : nat)
  (l : list T) :
  length (mapi_from f i l) = length l.
Proof.
  revert i. induction l as [| x l IH]; intros i; simpl; [| rewrite IH];
    reflexivity.
Qed.

Lemma nth_mapi_from {T U : Type} (f : nat -> T -> U) (i j : nat)
  (l : list T) (d : U) (d' : T) :
  (j < length l)%nat ->
  nth j (mapi_from f i l) d = f (i + j)%nat (nth j l d').
Proof.
  revert i j. induction l as [| x l IH]; intros i j Hj; simpl in Hj.
  - lia.
  - destruct j as [| j]; simpl.
    + rewrite Nat.add_0_r. reflexivity.
    + rewrite IH by lia. f_equal. lia.
Qed.

Lemma nth_mapi {T U : Type} (f : nat -> T -> U) (j : nat) (l : list T)
  (d : U) (d' : T) :
  (j < length l)%nat -> nth j (mapi f l) d = f j (nth j l d').
Proof. intros Hj. unfold mapi. apply (nth_mapi_from f 0 j l d d' Hj). Qed.

Lemma length_zip3 {T U V W : Type} (f : T -> U -> V -> W)
  (l1 : list T) (l2 : list U) (l3 : list V) :
  length (zip3 f l1 l2 l3)
  = Nat.min (length l1) (Nat.min (length l2) (length l3)).
Proof.
  revert l2 l3. induction l1 as [| a l1 IH]; intros l2 l3.
  - reflexivity.
  - destruct l2 as [| b l2]; [reflexivity |].
    destruct l3 as [| e l3]; [simpl; lia |].
    simpl. rewrite IH. reflexivity.
Qed.

Lemma nth_zip3 {T U V W : Type} (f : T -> U -> V -> W)
  (l1 : list T) (l2 : list U) (l3 : list V) (j : nat)
  (d : W) (d1 : T) (d2 : U) (d3 : V) :
  (j < length (zip3 f l1 l2 l3))%nat ->
  nth j (zip3 f l1 l2 l3) d = f (nth j l1 d1) (nth j l2 d2) (nth j l3 d3).
Proof.
  revert l2 l3 j. induction l1 as [| a l1 IH]; intros l2 l3 j Hj.
  - simpl in Hj. lia.
  - destruct l2 as [| b l2]; [simpl in Hj; lia |].
    destruct l3 as [| e l3]; [simpl in Hj; lia |].
    destruct j as [| j]; [reflexivity |].
    simpl in Hj. simpl. apply IH. lia.
Qed.

Lemma clip_in_box (x : f64) (a b : R) :
  a <= b -> in_box (Fin a) (Fin b) (fmin (fmax x (Fin a)) (Fin b)).
Proof.
  intros Hab. destruct x as [v | | |]; simpl; r_cases; simpl; r_cases;
    simpl; lra.
Qed.

Lemma R_floor_le (b : R) : IZR (R_floor b) <= b.
Proof. unfold R_floor. apply (base_Int_part b). Qed.

Lemma R_ceil_ge (a : R) : a <= IZR (R_ceil a).
Proof.
  unfold R_ceil. rewrite opp_IZR.
  pose proof (proj1 (base_Int_part (- a))). lra.
Qed.

(** The re-clip of an integer column keeps a value of the box in the box
    when the box holds an integer. *)
Lemma reclip_in_box (x : f64) (a b : R) :
  in_box (Fin a) (Fin b) x ->
  xle (xceil (Fin a)) (xfloor (Fin b)) = true ->
  in_box (Fin a) (Fin b)
         (fmin (fmax x (xceil (Fin a))) (xfloor (Fin b))).
Proof.
  destruct x as [v | | |]; simpl; try contradiction.
  intros Hv Hcf. apply R_leb_spec in Hcf.
  pose proof (R_floor_le b). pose proof (R_ceil_ge a).
  r_cases; simpl; r_cases; simpl; lra.
Qed.

Lemma clip_pos_row (cfg : PSO_args) (cols : list nat) (pos : matrix)
  (row : vec) :
  In row (clip_pos cfg cols pos) ->
  exists row0,
    In row0 pos
    /\ length row
       = Nat.min (length row0)
                 (Nat.min (length (LBw cfg)) (length (UBw cfg)))
    /\ forall j, (j < length row)%nat ->
         nth j row NaN = clip1 cfg cols j (nth j row0 NaN).
Proof.
  unfold clip_pos, on_int_cols. rewrite !map_map. intros Hin.
  apply in_map_iff in Hin. destruct Hin as [row0 [<- Hin]].
  exists row0. split; [exact Hin |].
  unfold mapi. rewrite !length_mapi_from, length_zip3, length_mapi_from.
  split; [reflexivity |].
  intros j Hj.
  rewrite (nth_mapi_from _ 0 j _ NaN NaN)
    by (rewrite length_mapi_from, length_zip3, length_mapi_from; exact Hj).
  rewrite (nth_mapi_from _ 0 j _ NaN NaN)
    by (rewrite length_zip3, length_mapi_from; exact Hj).
  rewrite (nth_zip3 _ _ _ _ j NaN NaN NaN NaN)
    by (rewrite length_zip3, length_mapi_from; exact Hj).
  rewrite (nth_mapi_from _ 0 j _ NaN NaN) by lia.
  unfold clip1. cbn [Nat.add]. cbv zeta.
  destruct (is_int_col cols j); reflexivity.
Qed.

Lemma Forall2_nth_pair {T U : Type} (P : T -> U -> Prop) (l1 : list T)
  (l2 : list U) (j : nat) (d1 : T) (d2 : U) :
  Forall2 P l1 l2 -> (j < length l1)%nat -> P (nth j l1 d1) (nth j l2 d2).
Proof.
  intros H. revert j. induction H as [| a b l1 l2 Hab H IH]; intros j Hj.
  - simpl in Hj. lia.
  - destruct j as [| j]; [exact Hab |]. simpl. apply IH. simpl in Hj. lia.
Qed.

Lemma clip1_in_box (cfg : PSO_args) (cols : list nat) (j : nat) (x : f64) :
  bounds_ordered cfg -> int_feasible cfg cols ->
  (j < length (LBw cfg))%nat ->
  in_box (nth j (LBw cfg) NaN) (nth j (UBw cfg) NaN) (clip1 cfg cols j x).
Proof.
  intros Hb Hi Hj.
  destruct (Forall2_nth_pair _ _ _ j NaN NaN Hb Hj) as [a [b [Ea [Eb Hab]]]].
  unfold clip1. cbv zeta.
  destruct (is_int_col cols j) eqn:Hc.
  - assert (Hin : In j cols).
    { unfold is_int_col in Hc. apply existsb_exists in Hc.
      destruct Hc as [k [Hk E]]. apply Nat.eqb_eq in E. subst k. exact Hk. }
    specialize (Hi j Hin). rewrite Ea, Eb in *.
    apply reclip_in_box; [| exact Hi]. apply clip_in_box. exact Hab.
  - rewrite Ea, Eb. apply clip_in_box. exact Hab.
Qed.

Lemma epoch_pos_in_box (cfg : PSO_args) (cols : list nat) (st : Swarm)
  (row : vec) (j : nat) :
  bounds_ordered cfg -> int_feasible cfg cols ->
  In row (agent_pos (epoch cfg cols st)) -> (j < length row)%nat ->
  in_box (nth j (LBw cfg) NaN) (nth j (UBw cfg) NaN) (nth j row NaN).
Proof.
  intros Hb Hi Hrow Hj.
  destruct (epoch_fields cfg cols st) as [_ [E _]]. rewrite E in Hrow.
  destruct (clip_pos_row cfg cols _ row Hrow) as [row0 [_ [Hl Hn]]].
  rewrite (Hn j Hj). apply clip1_in_box; [exact Hb | exact Hi | lia].
Qed.

Lemma PSO_start_cols (cfg : PSO_args) (cols : list nat) (st0 : Swarm) :
  PSO_start cfg = Ok (cols, st0) ->
  resolve_IntVar (nVar cfg) (IntVar cfg) = Ok cols
  /\ st0 = init_swarm cfg cols.
Proof.
  unfold PSO_start.
  destruct (negb _); [discriminate |].
  destruct (Nat.eqb (nPop cfg) 0); [discriminate |].
  destruct (resolve_IntVar (nVar cfg) (IntVar cfg)); [| discriminate].
  intros H. injection H as -> <-. split; reflexivity.
Qed.

Lemma PSO_after_S_cols (cfg : PSO_args) (n : nat) (st : Swarm) :
  PSO_after cfg (Datatypes.S n) = Ok st ->
  exists cols st',
    resolve_IntVar (nVar cfg) (IntVar cfg) = Ok cols
    /\ st = epoch cfg cols st'.
Proof.
  unfold PSO_after.
  destruct (PSO_start cfg) as [[cols st0] | e] eqn:Hs; intros H.
  - injection H as <-. exists cols, (run cfg cols n st0).
    split; [exact (proj1 (PSO_start_cols cfg cols st0 Hs)) | apply run_S].
  - discriminate.
Qed.

(** C7 (as amended).  When the working bounds are finite with [LB <= UB]
    component-wise and the box of every integer-constrained variable holds
    an integer ([ceil(LB) <= floor(UB)]), after each full epoch every
    component of every particle's position lies inside [LB, UB]. *)
Theorem positions_stay_in_bounds (cfg : PSO_args) (n : nat) (st : Swarm)
  (row : vec) (j : nat) :
  bounds_ordered cfg ->
  (forall cols, resolve_IntVar (nVar cfg) (IntVar cfg) = Ok cols ->
                int_feasible cfg cols) ->
  PSO_after cfg (Datatypes.S n) = Ok st ->
  In row (agent_pos st) -> (j < length row)%nat ->
  in_box (nth j (LBw cfg) NaN) (nth j (UBw cfg) NaN) (nth j row NaN).
Proof.
  intros Hb Hi Hst Hrow Hj.
  destruct (PSO_after_S_cols cfg n st Hst) as [cols [st' [Hc ->]]].
  apply (epoch_pos_in_box cfg cols st' row j); auto.
Qed.
Lemma positions_stay_in_bounds_witness :
  let cfg := tiny_args 0 1 RB IntNone in
  let st := epoch cfg [] (init_swarm cfg []) in
  in_box (Fin 0) (Fin 1) (nth 0 (nth 0 (agent_pos st) []) NaN).
Proof.
  intros cfg st.
  assert (Hshape : exists x, agent_pos st = [[x]]).
  { unfold st. destruct (epoch_fields cfg [] (init_swarm cfg [])) as [_ [E _]].
    rewrite E. eexists.
    cbn -[xadd xsub xmul xdiv xneg fmin fmax xsqrt xabs xlt xgt xge xle
          xround xceil xfloor R_ltb R_eqb R_leb].
    reflexivity. }
  destruct Hshape as [x Hx].
  apply (positions_stay_in_bounds cfg 0 st (nth 0 (agent_pos st) []) 0).
  - repeat constructor. exists 0, 1. repeat split; lra.
  - intros cols Hc. cbn in Hc. injection Hc as <-. intros j [].
  - reflexivity.
  - rewrite Hx. left. reflexivity.
  - rewrite Hx. simpl. lia.
Defined.

Lemma R_ceil_02 : R_ceil 0.2 = 1%Z.
Proof.
  unfold R_ceil.
  assert (E : Int_part (Ropp 0.2) = (-1)%Z).
  { symmetry. apply Int_part_spec. split; simpl; lra. }
  rewrite E. reflexivity.
Qed.

Lemma R_floor_08 : R_floor 0.8 = 0%Z.
Proof.
  unfold R_floor. symmetry. apply Int_part_spec. split; simpl; lra.
Qed.

(** With bounds 0.2 and 0.8 the integer re-clip sends every value to 0:
    first up to [ceil(0.2) = 1], then down to [floor(0.8) = 0]. *)
Lemma reclip_02_08 (x : f64) :
  fmin (fmax (fmin (fmax x (Fin 0.2)) (Fin 0.8)) (xceil (Fin 0.2)))
       (xfloor (Fin 0.8)) = Fin 0.
Proof.
  pose proof (clip_in_box x 0.2 0.8) as H.
  destruct (fmin (fmax x (Fin 0.2)) (Fin 0.8)) as [v | | |];
    simpl in H; try (exfalso; apply H; lra).
  assert (Hv : 0.2 <= v <= 0.8) by (apply H; lra).
  unfold xceil, xfloor. rewrite R_ceil_02, R_floor_08.
  simpl. r_eval. simpl. r_eval. reflexivity.
Qed.

(** C7 as stated fails: an integer-constrained variable with bounds
    [0.2, 0.8] (ordered, but holding no integer) sits at 0 after one epoch,
    below its lower bound. *)
Lemma integer_reclip_leaves_box :
  let cfg := tiny_args 0.2 0.8 RB IntAll in
  bounds_ordered cfg
  /\ exists st,
       PSO_after cfg 1 = Ok st
       /\ agent_pos st = [[Fin 0]]
       /\ ~ in_box (Fin 0.2) (Fin 0.8) (Fin 0).
Proof.
  intros cfg. split.
  { repeat constructor. exists 0.2, 0.8. repeat split; lra. }
  exists (epoch cfg [0%nat] (init_swarm cfg [0%nat])).
  split; [reflexivity |]. split.
  - destruct (epoch_fields cfg [0%nat] (init_swarm cfg [0%nat])) as [_ [E _]].
    rewrite E.
    cbn -[xadd xsub xmul xdiv xneg fmin fmax xsqrt xabs xlt xgt xge xle
          xround xceil xfloor R_ltb R_eqb R_leb].
    rewrite reclip_02_08. reflexivity.
  - simpl. lra.
Qed.

(** ** Velocities after the confinement *)

(** The hyperbolic confinement of a zero velocity on the lower bound is
    [0 / (1 + |0 / 0|)]. *)
Lemma hyperbolic1_zero_on_lower_bound (x : R) (ub : f64) :
  hyperbolic1 (Fin x) (Fin 0) ub (Fin x) = NaN.
Proof.
  unfold hyperbolic1, xgt. cbv zeta. simpl xlt. r_eval.
  simpl xsub. unfold xdiv at 2. r_eval. reflexivity.
Qed.

Lemma clamp_between (v : f64) (a b : R) :
  a <= b ->
  exists r, fmin (fmax v (Fin a)) (Fin b) = Fin r /\ a <= r <= b.
Proof.
  intros Hab. pose proof (clip_in_box v a b Hab) as H.
  destruct (fmin (fmax v (Fin a)) (Fin b)) as [r | | |];
    simpl in H; try contradiction.
  exists r. split; [reflexivity | exact H].
Qed.

Lemma length_map2 {T U V : Type} (f : T -> U -> V) (l1 : list T)
  (l2 : list U) :
  length (map2 f l1 l2) = Nat.min (length l1) (length l2).
Proof.
  revert l2. induction l1 as [| a l1 IH]; intros l2.
  - reflexivity.
  - destruct l2 as [| b l2]; [reflexivity |]. simpl. rewrite IH. reflexivity.
Qed.

Lemma nth_map2 {T U V : Type} (f : T -> U -> V) (l1 : list T) (l2 : list U)
  (j : nat) (d : V) (d1 : T) (d2 : U) :
  (j < length (map2 f l1 l2))%nat ->
  nth j (map2 f l1 l2) d = f (nth j l1 d1) (nth j l2 d2).
Proof.
  revert l2 j. induction l1 as [| a l1 IH]; intros l2 j Hj.
  - simpl in Hj. lia.
  - destruct l2 as [| b l2]; [simpl in Hj; lia |].
    destruct j as [| j]; [reflexivity |].
    simpl in Hj. simpl. apply IH. lia.
Qed.

Lemma nth_combine {T U : Type} (l1 : list T) (l2 : list U) (j : nat)
  (d1 : T) (d2 : U) :
  (j < length (combine l1 l2))%nat ->
  nth j (combine l1 l2) (d1, d2) = (nth j l1 d1, nth j l2 d2).
Proof.
  revert l2 j. induction l1 as [| a l1 IH]; intros l2 j Hj.
  - simpl in Hj. lia.
  - destruct l2 as [| b l2]; [simpl in Hj; lia |].
    destruct j as [| j]; [reflexivity |].
    simpl in Hj. simpl. apply IH. lia.
Qed.

Lemma in_zip3 {T U V W : Type} (f : T -> U -> V -> W)
  (l1 : list T) (l2 : list U) (l3 : list V) (z : W)
  (d1 : T) (d2 : U) (d3 : V) :
  In z (zip3 f l1 l2 l3) ->
  exists i, (i < length (zip3 f l1 l2 l3))%nat
            /\ z = f (nth i l1 d1) (nth i l2 d2) (nth i l3 d3).
Proof.
  intros Hin. destruct (In_nth _ _ z Hin) as [i [Hi E]].
  exists i. split; [exact Hi |].
  rewrite <- E. apply nth_zip3. exact Hi.
Qed.

(** The velocity limit of a variable with finite ordered bounds and a
    non-negative velocity factor. *)
Lemma vel_max_nth (cfg : PSO_args) (j : nat) :
  Forall2 (fun lb ub => exists a b, lb = Fin a /\ ub = Fin b /\ a <= b)
          (LB cfg) (UB cfg) ->
  0 <= vel_fact cfg ->
  (j < length (vel_max cfg))%nat ->
  exists m, nth j (vel_max cfg) NaN = Fin m /\ 0 <= m.
Proof.
  intros Hb Hf Hj. unfold vel_max in *.
  rewrite (nth_map2 _ _ _ j NaN NaN NaN Hj).
  rewrite length_map2 in Hj.
  destruct (Forall2_nth_pair _ _ _ j NaN NaN Hb) as [a [b [-> [-> Hab]]]];
    [lia |].
  simpl. eexists. split; [reflexivity |]. nra.
Qed.

Lemma clamp_vel_within (cfg : PSO_args) (V : matrix) (row : vec) (j : nat) :
  Forall2 (fun lb ub => exists a b, lb = Fin a /\ ub = Fin b /\ a <= b)
          (LB cfg) (UB cfg) ->
  0 <= vel_fact cfg ->
  In row (clamp_vel cfg V) -> (j < length row)%nat ->
  exists m r, nth j (vel_max cfg) NaN = Fin m /\ nth j row NaN = Fin r
              /\ - m <= r <= m.
Proof.
  intros Hb Hf Hrow Hj. unfold clamp_vel in Hrow.
  apply in_map_iff in Hrow. destruct Hrow as [row0 [<- _]].
  pose proof Hj as Hj'. rewrite length_zip3 in Hj'.
  unfold vel_min in Hj'. rewrite length_map in Hj'.
  destruct (vel_max_nth cfg j Hb Hf) as [m [Em Hm]]; [lia |].
  rewrite (nth_zip3 _ _ _ _ j NaN NaN NaN NaN Hj).
  unfold vel_min.
  change (nth j (map xneg (vel_max cfg)) NaN)
    with (nth j (map xneg (vel_max cfg)) (xneg NaN)).
  rewrite map_nth.
  rewrite Em. simpl xneg.
  destruct (clamp_between (nth j row0 NaN) (- m) m) as [r [Er Hr]]; [lra |].
  exists m, r. split; [reflexivity |]. split; assumption.
Qed.

(** Random-back confinement never leaves the limits. *)
Lemma random_back_within (u r m : R) :
  0 <= u < 1 -> - m <= r <= m ->
  exists r', xmul (xneg (Fin u)) (Fin r) = Fin r' /\ - m <= r' <= m.
Proof.
  intros Hu Hr. simpl. eexists. split; [reflexivity |]. nra.
Qed.

(** Hyperbolic confinement gives NaN or a velocity no larger in
    magnitude. *)
Lemma shrink_within (r m : R) (q : f64) :
  - m <= r <= m ->
  within_or_nan (Fin m) (xdiv (Fin r) (xadd (Fin 1) (xabs q))).
Proof.
  intros Hr. unfold within_or_nan.
  destruct q as [a | | |]; simpl.
  - pose proof (Rabs_pos a) as Ha. rewrite R_eqb_false by lra.
    right. simpl.
    assert (Hd : 0 < 1 + Rabs a) by lra.
    assert (Hi : 0 < / (1 + Rabs a) <= 1).
    { split; [apply Rinv_0_lt_compat; exact Hd |].
      rewrite <- Rinv_1. apply Rinv_le_contravar; lra. }
    unfold Rdiv. nra.
  - right. simpl. lra.
  - right. simpl. lra.
  - left. reflexivity.
Qed.

Lemma hyperbolic1_within (x ub lb : f64) (r m : R) :
  - m <= r <= m -> within_or_nan (Fin m) (hyperbolic1 x (Fin r) ub lb).
Proof.
  intros Hr. unfold hyperbolic1. cbv zeta.
  destruct (xgt (Fin r) (Fin 0)); apply shrink_within; exact Hr.
Qed.

Lemma row_inside_within (cfg : PSO_args) (row : vec) :
  row_inside cfg row -> row_within cfg row.
Proof. intros H j Hj. right. apply H. exact Hj. Qed.

Lemma row_clamped_inside (cfg : PSO_args) (row : vec) :
  row_clamped cfg row -> row_inside cfg row.
Proof.
  intros H j Hj. destruct (H j Hj) as [m [r [-> [-> Hr]]]]. simpl. exact Hr.
Qed.

Lemma draw_matrix_row (u : nat -> R) (k rows cols i : nat) (j : nat) :
  (j < length (nth i (draw_matrix u k rows cols) []))%nat ->
  exists n, nth j (nth i (draw_matrix u k rows cols) []) NaN = Fin (u n).
Proof.
  unfold draw_matrix. intros Hj.
  destruct (Nat.lt_ge_cases i rows) as [Hi | Hi].
  - rewrite nth_map_seq in * by exact Hi.
    rewrite length_map, length_seq in Hj.
    rewrite nth_map_seq by exact Hj. eexists. reflexivity.
  - rewrite nth_overflow in Hj
      by (rewrite length_map, length_seq; exact Hi).
    simpl in Hj. lia.
Qed.

Lemma random_back_row (cfg : PSO_args) (ku i : nat) (vel : matrix) :
  unit_draws (rng cfg) ->
  row_clamped cfg (nth i vel []) ->
  row_inside cfg (nth i (random_back_conf (rng cfg) ku vel) []).
Proof.
  intros Hu Hv j Hj. unfold random_back_conf, mmap2 in *.
  set (U := draw_matrix (uniform_draws (rng cfg)) ku (length vel)
                        (n_columns vel)) in *.
  destruct (Nat.lt_ge_cases i (length (map2 (map2 (fun u v => xmul (xneg u) v))
                                            U vel))) as [Hi | Hi].
  - pose proof (nth_map2 (map2 (fun u v => xmul (xneg u) v)) U vel i
                         [] [] [] Hi) as Ei.
    unfold vec, matrix in *. rewrite Ei in Hj. rewrite Ei.
    rewrite (nth_map2 _ _ _ j NaN NaN NaN Hj).
    rewrite length_map2 in Hj.
    destruct (draw_matrix_row (uniform_draws (rng cfg)) ku (length vel)
                (n_columns vel) i j) as [n En]; [fold U; lia |].
    fold U in En. rewrite En.
    destruct (Hv j) as [m [r [Em [Er Hr]]]]; [lia |].
    rewrite Em, Er.
    destruct (random_back_within (uniform_draws (rng cfg) n) r m (Hu n) Hr)
      as [r' [E' Hr']].
    rewrite E'. simpl. exact Hr'.
  - rewrite nth_overflow in Hj by exact Hi. simpl in Hj. lia.
Qed.

Lemma hyperbolic_row (cfg : PSO_args) (i : nat) (pos vel : matrix)
  (ubs lbs : vec) :
  row_clamped cfg (nth i vel []) ->
  row_within cfg (nth i (hyperbolic_conf pos vel ubs lbs) []).
Proof.
  intros Hv j Hj.
  pose (F := fun xrow vrow : vec =>
               zip3 (fun (xv : f64 * f64) ub lb =>
                       hyperbolic1 (fst xv) (snd xv) ub lb)
                    (combine xrow vrow) ubs lbs).
  change (hyperbolic_conf pos vel ubs lbs) with (map2 F pos vel) in Hj.
  change (hyperbolic_conf pos vel ubs lbs) with (map2 F pos vel).
  destruct (Nat.lt_ge_cases i (length (map2 F pos vel))) as [Hi | Hi].
  - pose proof (nth_map2 F pos vel i [] [] [] Hi) as Ei.
    unfold vec, matrix in *. rewrite Ei in Hj. rewrite Ei. unfold F in *.
    rewrite (nth_zip3 _ _ _ _ j NaN (NaN, NaN) NaN NaN Hj).
    rewrite length_zip3 in Hj.
    rewrite (nth_combine _ _ j NaN NaN) by lia. cbn [fst snd].
    rewrite length_combine in Hj.
    destruct (Hv j) as [m [r [Em [Er Hr]]]]; [lia |].
    rewrite Em, Er. apply hyperbolic1_within. exact Hr.
  - rewrite nth_overflow in Hj by exact Hi. simpl in Hj. lia.
Qed.

Lemma mixed_row (cfg : PSO_args) (ku i : nat) (pos vel : matrix)
  (ubs lbs : vec) :
  unit_draws (rng cfg) ->
  row_clamped cfg (nth i vel []) ->
  row_within cfg (nth i (mixed_conf (rng cfg) ku pos vel ubs lbs) []).
Proof.
  intros Hu Hv j Hj. unfold mixed_conf in *. cbv zeta in *.
  set (G := draw_matrix _ _ _ _) in *.
  set (H := hyperbolic_conf pos vel ubs lbs) in *.
  set (B := random_back_conf (rng cfg) ku vel) in *.
  set (sel := fun g hy rb : f64 => if xge g (Fin 0.5) then hy else rb) in *.
  destruct (Nat.lt_ge_cases i (length (zip3 (zip3 sel) G H B))) as [Hi | Hi].
  - rewrite (nth_zip3 _ _ _ _ i [] [] [] [] Hi) in Hj.
    rewrite (nth_zip3 _ _ _ _ i [] [] [] [] Hi).
    rewrite (nth_zip3 _ _ _ _ j NaN NaN NaN NaN Hj).
    rewrite length_zip3 in Hj. unfold sel.
    destruct (xge _ _).
    + apply (hyperbolic_row cfg i pos vel ubs lbs Hv). fold H. lia.
    + apply row_inside_within.
      * apply (random_back_row cfg ku i vel Hu Hv).
      * fold B. lia.
  - rewrite nth_overflow in Hj by exact Hi. simpl in Hj. lia.
Qed.

Lemma confinement_row (cfg : PSO_args) (ku i : nat) (pos vel : matrix) :
  unit_draws (rng cfg) ->
  row_clamped cfg (nth i vel []) ->
  row_within cfg (nth i (fst (confinement cfg ku pos vel)) [])
  /\ (conf_type cfg = RB ->
      row_inside cfg (nth i (fst (confinement cfg ku pos vel)) [])).
Proof.
  intros Hu Hv. unfold confinement. destruct (conf_type cfg); cbn [fst].
  - split; [apply row_inside_within |]; intros;
      apply random_back_row; assumption.
  - split; [apply hyperbolic_row; assumption | discriminate].
  - split; [apply mixed_row; assumption | discriminate].
Qed.

Lemma updated_vel_clamped (cfg : PSO_args) (st : Swarm) (i : nat) :
  Forall2 (fun lb ub => exists a b, lb = Fin a /\ ub = Fin b /\ a <= b)
          (LB cfg) (UB cfg) ->
  0 <= vel_fact cfg ->
  row_clamped cfg (nth i (updated_vel cfg st) []).
Proof.
  intros Hb Hf j Hj.
  destruct (nth_in_or_default i (updated_vel cfg st) []) as [Hin | E].
  - unfold updated_vel in Hin. cbv zeta in Hin.
    exact (clamp_vel_within cfg _ _ j Hb Hf Hin Hj).
  - rewrite E in Hj. simpl in Hj. lia.
Qed.

(** The velocities at the end of an epoch: with finite ordered bounds, a
    non-negative velocity factor and uniform draws in [0, 1), every
    component is inside [-vel_max, vel_max] or is NaN, and under random-back
    confinement it is inside the limits. *)
Lemma epoch_vel_within (cfg : PSO_args) (cols : list nat) (st : Swarm)
  (row : vec) (j : nat) :
  Forall2 (fun lb ub => exists a b, lb = Fin a /\ ub = Fin b /\ a <= b)
          (LB cfg) (UB cfg) ->
  0 <= vel_fact cfg ->
  unit_draws (rng cfg) ->
  In row (agent_vel (epoch cfg cols st)) -> (j < length row)%nat ->
  within_or_nan (nth j (vel_max cfg) NaN) (nth j row NaN)
  /\ (conf_type cfg = RB ->
      in_box (xneg (nth j (vel_max cfg) NaN)) (nth j (vel_max cfg) NaN)
             (nth j row NaN)).
Proof.
  intros Hb Hf Hu Hrow Hj.
  destruct (epoch_fields cfg cols st) as [E _]. rewrite E in Hrow.
  unfold epoch_vel, confined_vel in Hrow. cbv zeta in Hrow.
  destruct (in_zip3 _ _ _ _ row [] [] [] Hrow) as [i [Hi ->]].
  pose proof (updated_vel_clamped cfg st i Hb Hf) as Hv.
  destruct (confinement_row cfg (n_uniform st + length (agent_pos st)) i
              (agent_pos st) (updated_vel cfg st) Hu Hv) as [Hc Hc'].
  rewrite (nth_zip3 _ _ _ _ j NaN false NaN NaN Hj).
  rewrite length_zip3 in Hj.
  destruct (nth j (nth i (outside cfg cols (agent_pos st)
                                  (updated_vel cfg st)) []) false).
  - split; [apply Hc; lia | intros HRB; apply (Hc' HRB); lia].
  - pose proof (row_clamped_inside cfg _ Hv j) as Hin.
    split; [right |]; intros; apply Hin; lia.
Qed.

(** C10 fails on the code.  A variable pinned by [LB = UB = 0], hyperbolic
    confinement: the velocity is clamped to 0, the tentative position is on
    the bound and so flagged, and the confinement replaces the velocity by
    [0 / (1 + |0 / 0|)]: after one epoch the velocity is NaN, which is not
    inside [-vel_max, vel_max] = [0, 0]. *)
Theorem hyperbolic_confinement_yields_nan :
  let cfg := tiny_args 0 0 HY IntNone in
  exists st,
    PSO_after cfg 1 = Ok st
    /\ agent_vel st = [[NaN]]
    /\ (exists m, vel_max cfg = [Fin m] /\ m = 0)
    /\ ~ in_box (xneg (nth 0 (vel_max cfg) NaN)) (nth 0 (vel_max cfg) NaN)
               (nth 0 (nth 0 (agent_vel st) []) NaN).
Proof.
  intros cfg.
  exists (epoch cfg [] (init_swarm cfg [])).
  split; [reflexivity |].
  assert (Hvel : agent_vel (epoch cfg [] (init_swarm cfg [])) = [[NaN]]).
  { destruct (epoch_fields cfg [] (init_swarm cfg [])) as [E _].
    rewrite E.
    cbn -[xadd xsub xmul xdiv xneg fmin fmax xsqrt xabs xlt xgt xge xle
          xround xceil xfloor R_ltb R_eqb R_leb hyperbolic1].
    match goal with
    | |- context [hyperbolic1 ?p ?v _ _] => set (V := v); set (P := p)
    end.
    assert (HP : P = Fin 0).
    { unfold P. simpl. f_equal. lra. }
    assert (HV : V = Fin 0).
    { unfold V. simpl xsub. simpl xmul. simpl xneg.
      match goal with
      | |- fmin (fmax ?big _) _ = _ =>
          destruct (clamp_between big (- (0.5 * (0 + - 0)))
                                  (0.5 * (0 + - 0)))
            as [r [Hr Hb]]; [lra |]
      end.
      rewrite Hr. f_equal. lra. }
    clearbody P V. subst P V. simpl xadd. unfold xgt. simpl xlt. r_eval.
    cbn [andb negb]. rewrite hyperbolic1_zero_on_lower_bound. reflexivity. }
  split; [exact Hvel |]. split.
  - eexists. split; [reflexivity | lra].
  - rewrite Hvel. simpl. tauto.
Qed.

(** ** Construction of the optimiser *)



(** ** The normalised firing strengths in the forward pass *)





(** * Further properties *)

(** ** Parameters bound and read back *)

Lemma slice_app {T : Type} (l : list T) (a b d : nat) :
  (a <= b)%nat -> (b <= d)%nat ->
  slice l a b ++ slice l b d = slice l a d.
Proof.
  intros Hab Hbd. unfold slice.
  replace (d - a)%nat with ((b - a) + (d - b))%nat by lia.
  rewrite <- (firstn_skipn (b - a) (firstn (b - a + (d - b)) (skipn a l))).
  f_equal.
  - rewrite firstn_firstn. f_equal. lia.
  - rewrite skipn_firstn_comm.
    replace (b - a + (d - b) - (b - a))%nat with (d - b)%nat by lia.
    rewrite skipn_skipn. f_equal. f_equal. lia.
Qed.

Lemma slice_0 {T : Type} (l : list T) (n : nat) : slice l 0 n = firstn n l.
Proof. unfold slice. rewrite Nat.sub_0_r. reflexivity. Qed.

Lemma slice_slice {T : Type} (l : list T) (a b x y : nat) :
  (a + y <= b)%nat ->
  slice (slice l a b) x y = slice l (a + x) (a + y).
Proof.
  intros H. unfold slice.
  rewrite skipn_firstn_comm, firstn_firstn, skipn_skipn.
  f_equal; [lia | f_equal; lia].
Qed.

(** The rows of a reshaped vector, put end to end. *)
Lemma concat_rows (l : vec) (cols rows : nat) :
  concat (map (fun r => slice l (r * cols) (r * cols + cols)) (seq 0 rows))
  = slice l 0 (rows * cols).
Proof.
  induction rows as [| n IH].
  - simpl. unfold slice. reflexivity.
  - rewrite seq_S, map_app, concat_app, IH. cbn [map concat Nat.add].
    rewrite app_nil_r. rewrite slice_app by lia.
    f_equal. lia.
Qed.



(** ** [create_model] called again *)

Lemma create_model_cached (theta : vec) (X Y : matrix) (self : ANFIS) :
  init_prob self = false ->
  create_model theta X Y self =
  match build_param theta self with
  | (s1, Ok _) =>
      match forward_steps X (Xe s1) s1 with
      | (s2, Ok f) =>
          (s2,
           Ok match problem s2 with
              | Classification =>
                  xdiv (msum (class_error (Yout s2) f))
                       (Fin (INR (length X)))
              | Continuous =>
                  xdiv (msum (map (map (fun e => xpow e (Fin 2)))
                                  (mmap2 xsub f Y))) (Fin 2)
              end)
      | (s2, Raise e) => (s2, Raise e)
      end
  | (s1, Raise e) => (s1, Raise e)
  end.
Proof.
  intros Hi. unfold create_model.
  unfold bind at 1. unfold get at 1.
  unfold bind at 1. rewrite Hi. unfold ret at 1.
  unfold bind at 1.
  destruct (build_param theta self) as [s1 [[] | e]]; [| reflexivity].
  unfold bind at 1. unfold get at 1.
  unfold bind at 1.
  destruct (forward_steps X (Xe s1) s1) as [s2 [f | e]]; [| reflexivity].
  unfold bind, get, ret. destruct (problem s2); reflexivity.
Qed.

(** X2.  Once the object is initialised, [create_model] never rebuilds the rule
    table, the expanded inputs or the class matrix, whatever [X] and [Y] it is
    given and whether it returns or raises. *)
Theorem create_model_keeps_setup (theta : vec) (X Y : matrix)
  (self self' : ANFIS) (r : res f64) :
  init_prob self = false ->
  create_model theta X Y self = (self', r) ->
  combs self' = combs self /\ Xe self' = Xe self
  /\ Yout self' = Yout self /\ Yu self' = Yu self
  /\ init_prob self' = false.
Proof.
  intros Hi H. rewrite create_model_cached in H by exact Hi.
  assert (K : forall s1 r1, build_param theta self = (s1, r1) ->
            combs s1 = combs self /\ Xe s1 = Xe self
            /\ Yout s1 = Yout self /\ Yu s1 = Yu self
            /\ init_prob s1 = false).
  { intros s1 r1 E. rewrite build_param_unfold in E. cbv zeta in E.
    destruct (reshape _ _ _); injection E as <- _;
      cbn; repeat split; try reflexivity; exact Hi. }
  destruct (build_param theta self) as [s1 [[] | e]] eqn:E.
  - destruct (forward_steps X (Xe s1) s1) as [s2 [f | e]] eqn:F;
      apply forward_steps_state in F; subst s2;
      injection H as <- _; exact (K _ _ eq_refl).
  - injection H as <- _. exact (K _ _ eq_refl).
Qed.

Lemma create_model_keeps_setup_witness :
  let self := set_init_prob false one_rule in
  let out := create_model [Fin 0] [[Fin 7]; [Fin 8]] [] self in
  combs (fst out) = combs self /\ Xe (fst out) = Xe self
  /\ Yout (fst out) = Yout self /\ Yu (fst out) = Yu self
  /\ init_prob (fst out) = false.
Proof.
  intros self out.
  apply (create_model_keeps_setup [Fin 0] [[Fin 7]; [Fin 8]] []
           self (fst out) (snd out)).
  - reflexivity.
  - apply surjective_pairing.
Defined.

(** X3.  The outcome of [create_model] does not depend on the parameters a
    previous call has left in the object: from two objects with the same layout
    and cached data it returns the same cost or raises the same exception, and
    when it returns it leaves the two objects equal. *)
Theorem create_model_forgets_parameters (theta : vec) (X Y : matrix)
  (s1 s2 : ANFIS) :
  same_setup s1 s2 ->
  snd (create_model theta X Y s1) = snd (create_model theta X Y s2)
  /\ forall J, snd (create_model theta X Y s1) = Ok J ->
       fst (create_model theta X Y s1) = fst (create_model theta X Y s2).
Proof.
  destruct s1 as [nmf nout p ip xe yo yu cb m1 g1 e1 a1].
  destruct s2 as [nmf2 nout2 p2 ip2 xe2 yo2 yu2 cb2 m2 g2 e2 a2].
  unfold same_setup. cbn.
  intros (<- & <- & <- & <- & <- & <- & <- & <-).
  unfold create_model, build_combs, expand_input_dataset, build_param,
    forward_steps, bind, get, modify, ret, raise, lift.
  cbn.
  destruct ip; cbn.
  - destruct (build_combs_of nmf) as [cb' | e]; cbn;
      [| split; [reflexivity | discriminate]].
    destruct (forallb _ X); cbn; [| split; [reflexivity | discriminate]].
    destruct p; cbn.
    + destruct (build_class_matrix Y) as [yo' yu']. cbn.
      destruct (reshape _ _ _) as [a | e]; cbn;
        [| split; [reflexivity | discriminate]].
      destruct cb'; cbn; [split; [reflexivity | discriminate] |].
      destruct (output_columns _ _ _ _); cbn;
        split; try reflexivity; discriminate.
    + destruct (reshape _ _ _) as [a | e]; cbn;
        [| split; [reflexivity | discriminate]].
      destruct cb'; cbn; [split; [reflexivity | discriminate] |].
      destruct (output_columns _ _ _ _); cbn;
        split; try reflexivity; discriminate.
  - destruct (reshape _ _ _) as [a | e]; cbn;
      [| split; [reflexivity | discriminate]].
    destruct cb; cbn; [split; [reflexivity | discriminate] |].
    destruct (output_columns _ _ _ _); cbn;
      destruct p; cbn; split; try reflexivity; discriminate.
Qed.

Lemma create_model_forgets_parameters_witness :
  let theta := [Fin 0; Fin 1; Fin 1; Fin 2; Fin 3] in
  let s1 := set_init_prob false one_rule in
  let s2 := set_A [[Fin 4]] (set_premise [Fin 5] [] [Fin 6] s1) in
  snd (create_model theta [[Fin 0]] [[Fin 2]] s1)
  = snd (create_model theta [[Fin 0]] [[Fin 2]] s2).
Proof.
  intros theta s1 s2.
  apply (create_model_forgets_parameters theta [[Fin 0]] [[Fin 2]] s1 s2).
  unfold same_setup. cbn. repeat split; reflexivity.
Defined.

(** ** The expanded input dataset *)

Lemma length_blocks {T : Type} (g : nat -> T) (nmf : list nat) (n : nat) :
  length (concat (map (fun i => repeat (g i) (nth i nmf 0%nat)) (seq 0 n)))
  = offset nmf n.
Proof.
  unfold offset. induction n as [| n IH].
  - reflexivity.
  - rewrite nat_sum_firstn_S, seq_S, map_app, concat_app, length_app, IH.
    cbn [Nat.add map concat]. rewrite app_nil_r, repeat_length.
    reflexivity.
Qed.

Lemma nth_blocks {T : Type} (g : nat -> T) (nmf : list nat) (n i k : nat)
  (d : T) :
  (i < n)%nat -> (k < nth i nmf 0)%nat ->
  nth (offset nmf i + k)
      (concat (map (fun i => repeat (g i) (nth i nmf 0%nat)) (seq 0 n))) d
  = g i.
Proof.
  induction n as [| n IH]; intros Hi Hk; [lia |].
  rewrite seq_S, map_app, concat_app. cbn [Nat.add map concat].
  rewrite app_nil_r.
  destruct (Nat.eq_dec i n) as [-> | Hne].
  - rewrite app_nth2; rewrite length_blocks; [| lia].
    replace (offset nmf n + k - offset nmf n)%nat with k by lia.
    apply nth_repeat_lt. exact Hk.
  - assert (Hin : (i < n)%nat) by lia.
    assert (Hoff : (offset nmf i + nth i nmf 0 <= offset nmf n)%nat).
    { unfold offset. rewrite <- nat_sum_firstn_S.
      clear - Hin. induction Hin as [| m Hm IHm]; [lia |].
      rewrite (nat_sum_firstn_S nmf m). lia. }
    rewrite app_nth1 by (rewrite length_blocks; lia).
    apply IH; assumption.
Qed.

Lemma offset_all (nmf : list nat) : offset nmf (length nmf) = nat_sum nmf.
Proof. unfold offset. rewrite firstn_all. reflexivity. Qed.

(** X4.  [expand_input_dataset] leaves the object as it is and returns one row
    of [n_pf] columns per sample: the columns of the block of input [i] all
    hold the value of input [i]. *)
Theorem expand_input_dataset_copies (X Xe_ : matrix) (self self' : ANFIS) :
  expand_input_dataset X self = (self', Ok Xe_) ->
  self' = self
  /\ length Xe_ = length X
  /\ (forall r, (r < length X)%nat -> length (nth r Xe_ []) = n_pf self)
  /\ forall r i k d,
       (r < length X)%nat -> (i < n_inputs self)%nat ->
       (k < nth i (n_mf self) 0)%nat ->
       nth (offset (n_mf self) i + k) (nth r Xe_ []) d
       = nth i (nth r X []) NaN.
Proof.
  unfold expand_input_dataset, bind, get, ret, raise.
  destruct (forallb _ X); [| discriminate].
  intros H. injection H as <- <-.
  split; [reflexivity |]. split; [apply length_map |].
  assert (E : forall r, (r < length X)%nat ->
            nth r (map (expand_row (n_mf self)) X) []
            = expand_row (n_mf self) (nth r X [])).
  { intros r Hr.
    rewrite (nth_indep _ [] (expand_row (n_mf self) []))
      by (rewrite length_map; exact Hr).
    apply map_nth. }
  split.
  - intros r Hr. rewrite E by exact Hr. unfold expand_row.
    rewrite length_blocks, offset_all. reflexivity.
  - intros r i k d Hr Hi Hk. rewrite E by exact Hr. unfold expand_row.
    apply (nth_blocks (fun i => nth i (nth r X []) NaN)); assumption.
Qed.

Lemma expand_input_dataset_copies_witness :
  let self := ANFIS_init [2%nat; 1%nat] 1 Continuous in
  exists Xe_,
    expand_input_dataset [[Fin 5; Fin 6]] self = (self, Ok Xe_)
    /\ nth 2 (nth 0 Xe_ []) NaN = Fin 6.
Proof.
  intros self. eexists. split; [reflexivity |].
  destruct (expand_input_dataset_copies [[Fin 5; Fin 6]] _ self self
              eq_refl) as (_ & _ & _ & H).
  apply (H 0%nat 1%nat 0%nat NaN); cbn; lia.
Defined.

(** ** The objective handed to the optimiser *)

(** X5.  When [interface_PSO] returns, it returns one cost per row of [theta]:
    there was a learner for every row, learner [i] has been updated by
    [create_model] on row [i] and cost [i] is what that call returned; the
    learners beyond the rows are untouched. *)
Theorem interface_PSO_costs (theta X Y : matrix) (ls ls' : list ANFIS)
  (J : vec) :
  interface_PSO theta X Y ls = (ls', Ok J) ->
  length J = length theta
  /\ length ls' = length ls
  /\ (length theta <= length ls)%nat
  /\ (forall i d, (i < length theta)%nat ->
        create_model (nth i theta []) X Y (nth i ls d)
        = (nth i ls' d, Ok (nth i J NaN)))
  /\ forall i d, (length theta <= i)%nat -> nth i ls' d = nth i ls d.
Proof.
  revert ls ls' J. induction theta as [| row rest IH]; intros ls ls' J H.
  - cbn in H. injection H as <- <-. cbn.
    repeat split; try lia.
  - cbn [interface_PSO] in H. destruct ls as [| l ls0]; [discriminate |].
    destruct (create_model row X Y l) as [l' [J0 | e]] eqn:E;
      [| discriminate].
    destruct (interface_PSO rest X Y ls0) as [ls1 [Js | e]] eqn:R;
      [| discriminate].
    injection H as <- <-.
    destruct (IH _ _ _ R) as (H1 & H2 & H3 & H4 & H5).
    cbn [length]. repeat split; try lia.
    + intros [| i] d Hi; cbn [nth]; [exact E |].
      apply H4. cbn in Hi. lia.
    + intros [| i] d Hi; cbn [nth]; cbn in Hi; [lia |].
      apply H5. lia.
Qed.

Lemma interface_PSO_costs_witness :
  let theta := [[Fin 0; Fin 1; Fin 1; Fin 2; Fin 3]] in
  let ls := [ANFIS_init [1%nat] 1 Continuous;
             ANFIS_init [1%nat] 1 Continuous] in
  exists ls' J,
    interface_PSO theta [[Fin 0]] [[Fin 2]] ls = (ls', Ok J)
    /\ length J = 1%nat /\ length ls' = 2%nat
    /\ nth 1 ls' (ANFIS_init [] 0 Continuous)
       = ANFIS_init [1%nat] 1 Continuous.
Proof.
  intros theta ls.
  destruct (create_model_returns [1%nat] 1 Continuous
              [Fin 0; Fin 1; Fin 1; Fin 2; Fin 3] [[Fin 0]] [[Fin 2]])
    as (self' & J0 & E).
  - discriminate.
  - repeat constructor.
  - repeat constructor.
  - cbn. lia.
  - exists [self'; ANFIS_init [1%nat] 1 Continuous], [J0].
    assert (H : interface_PSO theta [[Fin 0]] [[Fin 2]] ls
                = ([self'; ANFIS_init [1%nat] 1 Continuous], Ok [J0])).
    { unfold theta, ls. cbn [interface_PSO]. rewrite E. reflexivity. }
    destruct (interface_PSO_costs _ _ _ _ _ _ H) as (H1 & H2 & _ & _ & H5).
    split; [exact H |]. split; [exact H1 |]. split; [exact H2 |].
    apply (H5 1%nat). cbn. lia.
Defined.


Lemma create_model_params (theta : vec) (X Y : matrix) (self self' : ANFIS)
  (J : f64) :
  create_model theta X Y self = (self', Ok J) ->
  n_mf self' = n_mf self /\ n_outputs self' = n_outputs self
  /\ mu self' = slice theta 0 (n_pf self)
  /\ s self' = slice theta (n_pf self) (2 * n_pf self)
  /\ c self' = slice theta (2 * n_pf self) (3 * n_pf self)
  /\ reshape (slice theta (3 * n_pf self) (n_var self))
             (n_inputs self + 1) (n_cf self * n_outputs self)
     = Ok (A self').
Proof.
  destruct self as [nmf nout p ip xe yo yu cb m1 g1 e1 a1].
  unfold create_model, build_combs, expand_input_dataset, build_param,
    forward_steps, bind, get, modify, ret, raise, lift.
  cbn.
  destruct ip; cbn.
  - destruct (build_combs_of nmf) as [cb' | e]; cbn; [| discriminate].
    destruct (forallb _ X); cbn; [| discriminate].
    destruct p; cbn.
    + destruct (build_class_matrix Y) as [yo' yu']. cbn.
      destruct (reshape _ _ _) as [a | e]; cbn; [| discriminate].
      destruct cb'; cbn; [discriminate |].
      destruct (output_columns _ _ _ _); cbn; [| discriminate].
      intros H. injection H as <- _. cbn. repeat split; reflexivity.
    + destruct (reshape _ _ _) as [a | e]; cbn; [| discriminate].
      destruct cb'; cbn; [discriminate |].
      destruct (output_columns _ _ _ _); cbn; [| discriminate].
      intros H. injection H as <- _. cbn. repeat split; reflexivity.
  - destruct (reshape _ _ _) as [a | e]; cbn; [| discriminate].
    destruct cb; cbn; [discriminate |].
    destruct (output_columns _ _ _ _); cbn; [| discriminate].
    destruct p; cbn; intros H; injection H as <- _; cbn;
      repeat split; reflexivity.
Qed.

(** X6.  A learner holds the parameters of the last vector it has evaluated:
    when [create_model] returns, [mu], [s], [c] and the rows of [A], put end to
    end, are the first [n_var] entries of [theta]. *)
Theorem create_model_holds_theta (theta : vec) (X Y : matrix)
  (self self' : ANFIS) (J : f64) :
  create_model theta X Y self = (self', Ok J) ->
  mu self' ++ s self' ++ c self' ++ concat (A self')
  = firstn (n_var self) theta.
Proof.
  intros H. apply create_model_params in H.
  destruct H as (_ & _ & -> & -> & -> & HA).
  pose proof (n_var_split self) as Hv.
  unfold reshape in HA.
  destruct (Nat.eqb_spec
              (length (slice theta (3 * n_pf self) (n_var self)))
              ((n_inputs self + 1) * (n_cf self * n_outputs self)))
    as [E | _]; [| discriminate].
  injection HA as <-.
  rewrite concat_rows, slice_slice by lia.
  rewrite Nat.add_0_r, !slice_app by lia.
  rewrite <- slice_0. f_equal. lia.
Qed.

Lemma create_model_holds_theta_witness :
  let theta := [Fin 0; Fin 1; Fin 1; Fin 2; Fin 3; Fin 9] in
  exists self' J,
    create_model theta [[Fin 0]] [[Fin 2]] (ANFIS_init [1%nat] 1 Continuous)
    = (self', Ok J)
    /\ mu self' ++ s self' ++ c self' ++ concat (A self')
       = [Fin 0; Fin 1; Fin 1; Fin 2; Fin 3].
Proof.
  intros theta.
  destruct (create_model_returns [1%nat] 1 Continuous
              theta [[Fin 0]] [[Fin 2]])
    as (self' & J & E).
  - discriminate.
  - repeat constructor.
  - repeat constructor.
  - cbn. lia.
  - exists self', J. split; [exact E |].
    exact (create_model_holds_theta _ _ _ _ _ _ E).
Defined.

(** ** The sigmoid and its logarithm *)

Lemma ln1p_le (y : R) : 0 <= y -> ln (1 + y) <= y.
Proof.
  intros Hy. pose proof (exp_ineq1_le y) as H.
  destruct H as [H | H].
  - left. rewrite <- (ln_exp y) at 2. apply ln_increasing; lra.
  - right. rewrite H. apply ln_exp.
Qed.

Lemma ln1p_pos (y : R) : 0 < y -> 0 < ln (1 + y).
Proof. intros Hy. rewrite <- ln_1. apply ln_increasing; lra. Qed.

Lemma ln_le_sub1 (t : R) : 0 < t -> ln t <= t - 1.
Proof.
  intros Ht. pose proof (exp_ineq1_le (ln t)) as H.
  rewrite exp_ln in H by exact Ht. lra.
Qed.

Lemma ln1p_ge (y : R) : 0 <= y -> y - y * y <= ln (1 + y).
Proof.
  intros Hy.
  assert (Hp : 0 < 1 + y) by lra.
  pose proof (ln_le_sub1 (/ (1 + y)) (Rinv_0_lt_compat _ Hp)) as H.
  rewrite ln_Rinv in H by exact Hp.
  assert (E : / (1 + y) - 1 = - (y / (1 + y))) by (field; lra).
  assert (G : y - y * y <= y / (1 + y)).
  { apply (Rmult_le_reg_r (1 + y)); [exact Hp |].
    unfold Rdiv. rewrite Rmult_assoc, Rinv_l by lra.
    assert (0 <= y * y * y) by (repeat apply Rmult_le_pos; exact Hy).
    nra. }
  lra.
Qed.

Lemma sigmoid_range (z : R) : 0 < sigmoid z < 1.
Proof.
  unfold sigmoid. pose proof (exp_pos (- z)) as He.
  assert (Hp : 0 < 1 + exp (- z)) by lra.
  split.
  - apply Rdiv_lt_0_compat; lra.
  - apply (Rmult_lt_reg_r (1 + exp (- z))); [exact Hp |].
    unfold Rdiv. rewrite Rmult_assoc, Rinv_l by lra. lra.
Qed.

Lemma ln_sigmoid (z : R) : ln (sigmoid z) = - ln (1 + exp (- z)).
Proof.
  unfold sigmoid. pose proof (exp_pos (- z)) as He.
  unfold Rdiv. rewrite Rmult_1_l. apply ln_Rinv. lra.
Qed.

Lemma ln_sigmoid_neg (z : R) : ln (sigmoid z) = z - ln (1 + exp z).
Proof.
  rewrite ln_sigmoid. pose proof (exp_pos z) as He.
  assert (E : 1 + exp (- z) = (1 + exp z) * / exp z).
  { rewrite exp_Ropp. field. lra. }
  rewrite E, ln_mult, ln_Rinv, ln_exp; try lra.
  apply Rinv_0_lt_compat. exact He.
Qed.

Lemma f_activation1_fin (z : R) : f_activation1 (Fin z) = Fin (sigmoid z).
Proof.
  pose proof (exp_pos z) as He. pose proof (exp_pos (- z)) as Hn.
  unfold f_activation1, sigmoid, xge. cbn [xle xneg xexp xadd xdiv].
  destruct (Rle_dec 0 z) as [Hz | Hz].
  - rewrite (R_leb_true 0 z) by exact Hz. cbn [negb].
    rewrite R_eqb_false by lra. reflexivity.
  - rewrite (R_leb_false 0 z) by exact Hz. cbn [negb].
    rewrite R_eqb_false by lra. f_equal.
    rewrite exp_Ropp. field. lra.
Qed.

(** X7.  [f_activation] is the logistic function: both branches compute [1 / (1
    + exp(-z))], a value strictly between 0 and 1, and the special values go to
    NaN, 1 and 0. *)
Theorem f_activation_sigmoid :
  (forall z, f_activation1 (Fin z) = Fin (sigmoid z) /\ 0 < sigmoid z < 1)
  /\ f_activation1 NaN = NaN
  /\ f_activation1 PInf = Fin 1
  /\ f_activation1 NInf = Fin 0.
Proof.
  split; [| split; [| split]].
  - intros z. split; [apply f_activation1_fin | apply sigmoid_range].
  - reflexivity.
  - unfold f_activation1, xge. cbn. rewrite R_eqb_false by lra.
    f_equal. field.
  - unfold f_activation1, xge. cbn. rewrite R_eqb_false by lra.
    f_equal. field.
Qed.

Lemma exp_sq_lt (x b : R) : x + x < b -> exp x * exp x < exp b.
Proof. intros H. rewrite <- exp_plus. apply exp_increasing. exact H. Qed.

(** What [logsig1] returns on a real: a negative number below [z], within
    [exp z] squared or [exp (-z)] squared of the logarithm of the sigmoid
    outside the band where it is computed directly. *)
Lemma logsig1_bands (z : R) :
  exists a,
    logsig1 (Fin z) = Fin a /\ a < 0 /\ a <= z
    /\ Rabs (a - ln (sigmoid z)) < exp (-33.3)
    /\ (-18 <= z < 37 -> a = ln (sigmoid z)).
Proof.
  rewrite logsig1_fin.
  pose proof (exp_pos z) as He. pose proof (exp_pos (- z)) as Hn.
  pose proof (exp_pos (-33.3)) as H33.
  destruct (Rlt_dec z (-33.3)) as [H1 | H1];
    [| destruct (Rlt_dec z (-18)) as [H2 | H2];
       [| destruct (Rlt_dec z 37) as [H3 | H3]]].
  - exists z. split; [reflexivity |]. split; [lra |]. split; [lra |].
    split; [| lra].
    rewrite ln_sigmoid_neg.
    pose proof (ln1p_le (exp z) (Rlt_le _ _ He)).
    pose proof (ln1p_pos (exp z) He).
    pose proof (exp_increasing z (-33.3) H1).
    rewrite Rabs_pos_eq; lra.
  - exists (z + - exp z). split; [reflexivity |]. split; [lra |].
    split; [lra |]. split; [| lra].
    rewrite ln_sigmoid_neg.
    pose proof (ln1p_le (exp z) (Rlt_le _ _ He)).
    pose proof (ln1p_ge (exp z) (Rlt_le _ _ He)).
    assert (exp z * exp z < exp (-33.3)) by (apply exp_sq_lt; lra).
    apply Rabs_def1; lra.
  - exists (- ln (1 + exp (- z))). split; [reflexivity |].
    pose proof (ln1p_pos (exp (- z)) Hn).
    split; [lra |]. split.
    + assert (- z < ln (1 + exp (- z))).
      { rewrite <- (ln_exp (- z)) at 1. apply ln_increasing; lra. }
      lra.
    + rewrite ln_sigmoid. split; [| reflexivity].
      replace (- ln (1 + exp (- z)) - - ln (1 + exp (- z))) with 0 by lra.
      rewrite Rabs_R0. exact H33.
  - exists (- exp (- z)). split; [reflexivity |]. split; [lra |].
    split; [lra |]. split; [| lra].
    rewrite ln_sigmoid.
    pose proof (ln1p_le (exp (- z)) (Rlt_le _ _ Hn)).
    pose proof (ln1p_ge (exp (- z)) (Rlt_le _ _ Hn)).
    assert (exp (- z) * exp (- z) < exp (-33.3))
      by (apply exp_sq_lt; lra).
    apply Rabs_def1; lra.
Qed.

(** X8.  [logsig] returns a negative number that is the logarithm of the
    sigmoid on the band [-18 <= z < 37] and within [exp(-33.3)] (less than
    1e-14) of it elsewhere; a NaN entry gives 0, not NaN, since no mask selects
    it. *)
Theorem logsig_accuracy :
  (forall z, exists a,
      logsig1 (Fin z) = Fin a /\ a < 0
      /\ Rabs (a - ln (sigmoid z)) < exp (-33.3)
      /\ (-18 <= z < 37 -> a = ln (sigmoid z)))
  /\ logsig1 NaN = Fin 0.
Proof.
  split; [| reflexivity].
  intros z. destruct (logsig1_bands z) as (a & E & Hn & _ & Hd & Hx).
  exists a. repeat split; assumption.
Qed.

(** ** The cost is never negative *)

Lemma xadd_nonneg (x y : f64) : nonneg x -> nonneg y -> nonneg (xadd x y).
Proof. destruct x, y; simpl; try tauto; lra. Qed.

Lemma fold_xadd_nonneg (w : vec) (acc : f64) :
  nonneg acc -> Forall nonneg w -> nonneg (fold_left xadd w acc).
Proof.
  revert acc. induction w as [| x w IH]; intros acc Ha Hw; [exact Ha |].
  inversion Hw; subst. simpl. apply IH; [apply xadd_nonneg |]; assumption.
Qed.

Lemma xsum_nonneg (w : vec) : Forall nonneg w -> nonneg (xsum w).
Proof. intros H. apply fold_xadd_nonneg; [simpl; lra | exact H]. Qed.

Lemma xdiv_nonneg (x : f64) (b : R) :
  nonneg x -> 0 <= b -> nonneg (xdiv x (Fin b)).
Proof.
  intros Hx Hb. destruct x as [a | | |]; simpl in *; try tauto.
  - destruct (Req_dec_T b 0) as [E | E].
    + rewrite (R_eqb_true b 0) by exact E.
      unfold R_eqb, R_ltb.
      destruct (Req_dec_T a 0); [exact I |].
      destruct (Rlt_dec 0 a); [exact I | lra].
    + rewrite (R_eqb_false b 0) by exact E. simpl.
      apply Rmult_le_pos; [exact Hx |].
      left. apply Rinv_0_lt_compat. lra.
  - unfold R_ltb. destruct (Rlt_dec b 0); [lra | exact I].
Qed.

Lemma Forall_concat {T : Type} (P : T -> Prop) (m : list (list T)) :
  Forall (Forall P) m -> Forall P (concat m).
Proof.
  induction 1 as [| r m Hr _ IH]; [constructor |].
  simpl. apply Forall_app. split; assumption.
Qed.

Lemma Forall_map2 {T U V : Type} (P : V -> Prop) (f : T -> U -> V)
  (Q : T -> Prop) (l1 : list T) (l2 : list U) :
  (forall x y, Q x -> P (f x y)) -> Forall Q l1 -> Forall P (map2 f l1 l2).
Proof.
  intros Hf H. revert l2. induction H as [| x l1 Hx _ IH]; intros l2.
  - constructor.
  - destruct l2 as [| y l2]; simpl; [constructor |].
    constructor; [apply Hf; exact Hx | apply IH].
Qed.

(** One entry of the error matrix of the classification cost. *)
Lemma class_entry_nonneg (y z : f64) :
  y = Fin 0 \/ y = Fin 1 ->
  nonneg (xsub (xmul (xsub (Fin 1) y) z) (logsig1 z)).
Proof.
  intros Hy. destruct z as [r | | |].
  - destruct (logsig1_bands r) as (a & -> & Ha & Hz & _).
    destruct Hy as [-> | ->]; simpl; lra.
  - destruct Hy as [-> | ->]; unfold logsig1, xge, xsub;
      repeat (progress (unfold inf_times; r_eval;
                        cbn -[R_ltb R_eqb R_leb])); exact I.
  - destruct Hy as [-> | ->]; unfold logsig1, xge, xsub;
      repeat (progress (unfold inf_times; r_eval;
                        cbn -[R_ltb R_eqb R_leb])); exact I.
  - destruct Hy as [-> | ->]; exact I.
Qed.

Lemma one_hot_bits (n i : nat) :
  Forall (fun y => y = Fin 0 \/ y = Fin 1) (one_hot n i).
Proof.
  unfold one_hot. apply Forall_forall. intros y Hy.
  apply in_map_iff in Hy. destruct Hy as [j [<- _]].
  destruct (Nat.eqb j i); [right | left]; reflexivity.
Qed.

Lemma class_matrix_bits (Y : matrix) :
  Forall (Forall (fun y => y = Fin 0 \/ y = Fin 1))
         (fst (build_class_matrix Y)).
Proof.
  unfold build_class_matrix. cbn [fst]. apply Forall_forall.
  intros row Hrow. apply in_map_iff in Hrow.
  destruct Hrow as [i [<- _]]. apply one_hot_bits.
Qed.

Lemma class_error_nonneg (Yo f : matrix) :
  Forall (Forall (fun y => y = Fin 0 \/ y = Fin 1)) Yo ->
  Forall nonneg (concat (class_error Yo f)).
Proof.
  intros HY. apply Forall_concat. unfold class_error, mmap2.
  revert f. induction HY as [| yr Yo Hyr _ IH]; intros f.
  - constructor.
  - destruct f as [| fr f]; [constructor |].
    cbn [map2 logsig map]. constructor; [| apply IH].
    clear - Hyr. revert fr.
    induction Hyr as [| y yr Hy _ IHr]; intros fr; [constructor |].
    destruct fr as [| z fr]; [constructor |].
    cbn [map2 map]. constructor; [| apply IHr].
    apply class_entry_nonneg. exact Hy.
Qed.

Lemma Int_part_2 : Int_part 2 = 2%Z.
Proof. symmetry. apply Int_part_spec. simpl. lra. Qed.

Lemma xpow_2_nonneg (x : f64) : nonneg (xpow x (Fin 2)).
Proof.
  unfold xpow. rewrite (R_eqb_false 2 0) by lra.
  destruct x as [a | | |]; try exact I.
  - destruct (R_ltb 0 a); [simpl; left; apply Rpower_pos |].
    destruct (R_eqb a 0).
    + destruct (R_ltb 0 2); simpl; [lra | exact I].
    + destruct (R_is_int 2); [| exact I].
      rewrite Int_part_2. simpl. left. apply Rpower_pos.
  - destruct (R_ltb 0 2); simpl; [exact I | lra].
  - destruct (R_ltb 0 2); [| simpl; lra].
    unfold R_odd_int. rewrite Int_part_2.
    destruct (R_is_int 2); exact I.
Qed.

Lemma create_model_value (theta : vec) (X Y : matrix) (self self' : ANFIS)
  (J : f64) :
  create_model theta X Y self = (self', Ok J) ->
  exists f,
    J = match problem self with
        | Classification =>
            xdiv (msum (class_error (Yout self') f)) (Fin (INR (length X)))
        | Continuous =>
            xdiv (msum (map (map (fun e => xpow e (Fin 2)))
                            (mmap2 xsub f Y))) (Fin 2)
        end
    /\ (init_prob self = true -> problem self = Classification ->
        Yout self' = fst (build_class_matrix Y)).
Proof.
  destruct self as [nmf nout p ip xe yo yu cb m1 g1 e1 a1].
  unfold create_model, build_combs, expand_input_dataset, build_param,
    forward_steps, bind, get, modify, ret, raise, lift.
  cbn.
  destruct ip; cbn.
  - destruct (build_combs_of nmf) as [cb' | e]; cbn; [| discriminate].
    destruct (forallb _ X); cbn; [| discriminate].
    destruct p; cbn.
    + destruct (build_class_matrix Y) as [yo' yu']. cbn.
      destruct (reshape _ _ _) as [a | e]; cbn; [| discriminate].
      destruct cb'; cbn; [discriminate |].
      destruct (output_columns _ _ _ _); cbn; [| discriminate].
      intros H. injection H as <- <-. cbn. eexists.
      split; reflexivity.
    + destruct (reshape _ _ _) as [a | e]; cbn; [| discriminate].
      destruct cb'; cbn; [discriminate |].
      destruct (output_columns _ _ _ _); cbn; [| discriminate].
      intros H. injection H as <- <-. cbn. eexists.
      split; [reflexivity | discriminate].
  - destruct (reshape _ _ _) as [a | e]; cbn; [| discriminate].
    destruct cb; cbn; [discriminate |].
    destruct (output_columns _ _ _ _); cbn; [| discriminate].
    destruct p; cbn; intros H; injection H as <- <-; cbn; eexists;
      (split; [reflexivity | discriminate]).
Qed.

(** X9.  The cost that [create_model] returns on a new object is never
    negative: it is a non-negative real, [+inf] or NaN, for both kinds of
    problem. *)
Theorem create_model_cost_nonneg (nmf : list nat) (nout : nat)
  (p : Problem) (theta : vec) (X Y : matrix) (self' : ANFIS) (J : f64) :
  create_model theta X Y (ANFIS_init nmf nout p) = (self', Ok J) ->
  nonneg J.
Proof.
  intros H. apply create_model_value in H.
  destruct H as (f & -> & HY). cbn [problem ANFIS_init] in *.
  destruct p.
  - apply xdiv_nonneg; [| apply pos_INR].
    apply xsum_nonneg, class_error_nonneg.
    rewrite HY by reflexivity. apply class_matrix_bits.
  - apply xdiv_nonneg; [| lra].
    apply xsum_nonneg, Forall_concat.
    apply Forall_forall. intros row Hrow. apply in_map_iff in Hrow.
    destruct Hrow as [r [<- _]]. apply Forall_forall. intros e He.
    apply in_map_iff in He. destruct He as [x [<- _]].
    apply xpow_2_nonneg.
Qed.

Lemma create_model_cost_nonneg_witness :
  exists self' J,
    create_model [Fin 0; Fin 1; Fin 1; Fin 2; Fin 3] [[Fin 0]] [[Fin 2]]
                 (ANFIS_init [1%nat] 1 Continuous) = (self', Ok J)
    /\ nonneg J.
Proof.
  destruct (create_model_returns [1%nat] 1 Continuous
              [Fin 0; Fin 1; Fin 1; Fin 2; Fin 3] [[Fin 0]] [[Fin 2]])
    as (self' & J & E).
  - discriminate.
  - repeat constructor.
  - repeat constructor.
  - cbn. lia.
  - exists self', J. split; [exact E |].
    exact (create_model_cost_nonneg _ _ _ _ _ _ _ _ E).
Defined.

(** ** Predictions *)

Lemma xle_refl (x : f64) : is_nan x = false -> xle x x = true.
Proof.
  destruct x; simpl; try reflexivity; try discriminate.
  intros _. apply R_leb_true. lra.
Qed.

Lemma xle_total (x y : f64) :
  is_nan x = false -> is_nan y = false -> xle x y = false ->
  xle y x = true.
Proof.
  destruct x, y; simpl; try reflexivity; try discriminate.
  intros _ _ H. apply R_leb_true.
  unfold R_leb in H. destruct (Rle_dec r r0); [discriminate | lra].
Qed.

Lemma xle_trans (x y z : f64) :
  xle x y = true -> xle y z = true -> xle x z = true.
Proof.
  destruct x, y, z; simpl; try reflexivity; try discriminate.
  unfold R_leb. destruct (Rle_dec r r0), (Rle_dec r0 r1); try discriminate.
  intros _ _. destruct (Rle_dec r r1); [reflexivity | lra].
Qed.

Lemma argmax_from_spec (t pre : vec) (mp : f64) (mi : nat) :
  (mi < length pre)%nat -> nth mi (pre ++ t) NaN = mp ->
  is_nan mp = false ->
  (forall j, (j < length pre)%nat -> xle (nth j (pre ++ t) NaN) mp = true) ->
  let k := argmax_from t (length pre) mp mi in
  (k < length (pre ++ t))%nat
  /\ (Forall (fun x => is_nan x = false) t ->
      forall j, (j < length (pre ++ t))%nat ->
        xle (nth j (pre ++ t) NaN) (nth k (pre ++ t) NaN) = true).
Proof.
  revert pre mp mi. induction t as [| x t IH]; intros pre mp mi Hmi Hmp Hn Hle.
  - cbn [argmax_from]. rewrite app_nil_r in *. split; [exact Hmi |].
    intros _ j Hj. rewrite Hmp. apply Hle. exact Hj.
  - cbn [argmax_from].
    assert (EL : pre ++ x :: t = (pre ++ [x]) ++ t)
      by (rewrite <- app_assoc; reflexivity).
    assert (Ex : nth (length pre) (pre ++ x :: t) NaN = x)
      by (rewrite app_nth2, Nat.sub_diag by lia; reflexivity).
    assert (El : length (pre ++ [x]) = Datatypes.S (length pre))
      by (rewrite length_app; simpl; lia).
    destruct (xle x mp) eqn:C; cbn [negb].
    + pose proof (IH (pre ++ [x]) mp mi) as H.
      rewrite El, <- EL in H. cbv zeta in H.
      destruct H as [H1 H2]; [lia | exact Hmp | exact Hn | |].
      * intros j Hj. destruct (Nat.eq_dec j (length pre)) as [-> | Hne].
        -- rewrite Ex. exact C.
        -- apply Hle. lia.
      * split; [exact H1 |]. intros Hall. apply H2.
        inversion Hall; assumption.
    + destruct (is_nan x) eqn:Nx.
      * split; [rewrite length_app; simpl; lia |].
        intros Hall. inversion Hall; congruence.
      * pose proof (IH (pre ++ [x]) x (length pre)) as H.
        rewrite El, <- EL in H. cbv zeta in H.
        destruct H as [H1 H2]; [lia | exact Ex | exact Nx | |].
        -- intros j Hj. destruct (Nat.eq_dec j (length pre)) as [-> | Hne].
           ++ rewrite Ex. apply xle_refl. exact Nx.
           ++ apply (xle_trans _ mp); [apply Hle; lia |].
              apply xle_total; assumption.
        -- split; [exact H1 |]. intros Hall. apply H2.
           inversion Hall; assumption.
Qed.

(** [np.argmax] of a row that is not empty is an index of the row, and on
    a row without NaN no entry is above the one it points to. *)
Lemma argmax_spec (l : vec) :
  l <> [] ->
  (argmax l < length l)%nat
  /\ (Forall (fun x => is_nan x = false) l ->
      forall j, (j < length l)%nat ->
        xle (nth j l NaN) (nth (argmax l) l NaN) = true).
Proof.
  destruct l as [| x t]; [congruence |]. intros _. unfold argmax.
  destruct (is_nan x) eqn:Nx.
  - split; [simpl; lia |]. intros Hall. inversion Hall; congruence.
  - pose proof (argmax_from_spec t [x] x 0) as H. cbv zeta in H.
    cbn [length app] in H.
    destruct H as [H1 H2]; [lia | reflexivity | exact Nx | |].
    + intros j Hj. replace j with 0%nat by lia. apply xle_refl. exact Nx.
    + split; [exact H1 |]. intros Hall. apply H2.
      inversion Hall; assumption.
Qed.

Lemma length_output_columns (self : ANFIS) (Wr X1 : matrix)
  (is_ : list nat) (cols : list vec) :
  output_columns self Wr X1 is_ = Ok cols -> length cols = length is_.
Proof.
  revert cols. induction is_ as [| i rest IH]; intros cols H.
  - injection H as <-. reflexivity.
  - cbn [output_columns] in H.
    destruct (output_column self Wr X1 i); [| discriminate].
    destruct (output_columns self Wr X1 rest); [| discriminate].
    injection H as <-. simpl. f_equal. apply IH. reflexivity.
Qed.

Lemma forward_steps_shape (X Xe_ f : matrix) (self self' : ANFIS) :
  forward_steps X Xe_ self = (self', Ok f) ->
  length f = length X
  /\ Forall (fun row => length row = n_outputs self) f.
Proof.
  unfold forward_steps, bind, get, lift, ret, raise.
  destruct (combs self); [discriminate |].
  destruct (output_columns _ _ _ _) as [cols |] eqn:E; [| discriminate].
  intros H. injection H as _ <-. apply length_output_columns in E.
  rewrite length_seq in E. unfold from_columns. split.
  - rewrite length_map, length_seq. reflexivity.
  - apply Forall_forall. intros row Hrow. apply in_map_iff in Hrow.
    destruct Hrow as [r [<- _]]. rewrite length_map. exact E.
Qed.

Lemma f_activation1_not_nan (z : f64) :
  is_nan z = false -> is_nan (f_activation1 z) = false.
Proof.
  destruct z as [r | | |]; [| | | discriminate]; intros _.
  - rewrite f_activation1_fin. reflexivity.
  - unfold f_activation1, xge. cbn. rewrite R_eqb_false by lra. reflexivity.
  - unfold f_activation1, xge. cbn. rewrite R_eqb_false by lra. reflexivity.
Qed.

Lemma nth_map_in {T U : Type} (g : T -> U) (l : list T) (r : nat) (d : U)
  (d' : T) :
  (r < length l)%nat -> nth r (map g l) d = g (nth r l d').
Proof.
  intros Hr. rewrite (nth_indep _ d (g d')) by (rewrite length_map; lia).
  apply map_nth.
Qed.

(** X10.  On a categorical problem [eval_data] leaves the object as it is and
    returns one label per sample, taken from the class list [Yu] at an output
    index; when the outputs of a sample hold no NaN, no output has a larger
    activation than the one chosen. *)
Theorem eval_data_predicts (Xp Yp : matrix) (self self' : ANFIS) :
  problem self = Classification ->
  eval_data Xp self = (self', Ok Yp) ->
  self' = self /\ length Yp = length Xp
  /\ exists f,
       forward_steps Xp (map (expand_row (n_mf self)) Xp) self
       = (self, Ok f)
       /\ forall r, (r < length Xp)%nat ->
            exists i,
              (i < n_outputs self)%nat /\ (i < length (Yu self))%nat
              /\ nth r Yp [] = [nth i (Yu self) NaN]
              /\ (Forall (fun z => is_nan z = false) (nth r f []) ->
                  forall j, (j < n_outputs self)%nat ->
                    xle (f_activation1 (nth j (nth r f []) NaN))
                        (f_activation1 (nth i (nth r f []) NaN)) = true).
Proof.
  intros Hp H. unfold eval_data in H.
  unfold bind at 1 in H.
  destruct (expand_input_dataset Xp self) as [s1 [Xpe | e]] eqn:E1;
    [| discriminate].
  assert (E1' := E1).
  unfold expand_input_dataset, bind, get, ret, raise in E1'.
  destruct (forallb _ Xp); [| discriminate]. injection E1' as <- <-.
  unfold bind at 1 in H.
  destruct (forward_steps Xp _ self) as [s2 [f | e]] eqn:E2;
    [| discriminate].
  pose proof (forward_steps_state _ _ _ _ _ E2) as ->.
  destruct (forward_steps_shape _ _ _ _ _ E2) as [Hlen Hrows].
  unfold bind, get in H. rewrite Hp in H.
  destruct (Nat.eqb_spec (n_outputs self) 0) as [Hz | Hz];
    [discriminate |].
  destruct (forallb _ (map argmax (f_activation f))) eqn:Hall;
    [| discriminate].
  unfold ret in H. injection H as <- <-.
  split; [reflexivity |]. split.
  { rewrite !length_map. unfold f_activation. rewrite length_map.
    exact Hlen. }
  exists f. split; [reflexivity |].
  intros r Hr.
  assert (Hrow : length (nth r f []) = n_outputs self).
  { apply (proj1 (Forall_forall _ _) Hrows). apply nth_In. lia. }
  set (a := map f_activation1 (nth r f [])).
  assert (Ea : nth r (f_activation f) [] = a).
  { unfold f_activation, a.
    change [] with (map f_activation1 []) at 1. apply map_nth. }
  assert (Hne : a <> []).
  { intros Ha. apply (f_equal (@length f64)) in Ha.
    unfold a in Ha. rewrite length_map in Ha. simpl in Ha. lia. }
  destruct (argmax_spec a Hne) as [Hi Hmax].
  assert (La : length a = n_outputs self)
    by (unfold a; rewrite length_map; exact Hrow).
  exists (argmax a). split; [lia |]. split.
  { rewrite forallb_forall in Hall. apply Nat.ltb_lt, Hall.
    rewrite <- Ea. apply in_map, nth_In.
    unfold f_activation. rewrite length_map. lia. }
  split.
  { rewrite (nth_map_in _ _ _ _ 0%nat)
      by (rewrite length_map; unfold f_activation; rewrite length_map; lia).
    rewrite (nth_map_in argmax (f_activation f) r 0%nat [])
      by (unfold f_activation; rewrite length_map; lia).
    exact (f_equal (fun x => [nth (argmax x) (Yu self) NaN]) Ea). }
  intros Hnn j Hj.
  assert (Hnth : forall k, nth k a NaN
                           = f_activation1 (nth k (nth r f []) NaN)).
  { intros k. unfold a.
    change NaN with (f_activation1 NaN) at 1. apply map_nth. }
  rewrite <- !Hnth. apply Hmax; [| lia].
  unfold a. apply Forall_forall. intros y Hy. apply in_map_iff in Hy.
  destruct Hy as [z [<- Hz']]. apply f_activation1_not_nan.
  exact (proj1 (Forall_forall _ _) Hnn z Hz').
Qed.

Lemma eval_data_two_class :
  eval_data [[Fin 0]] two_class_model = (two_class_model, Ok [[Fin 0]]).
Proof.
  unfold eval_data, two_class_model.
  cbn -[premise R_ltb R_eqb R_leb INR f_activation1 argmax].
  rewrite premise_centre_one. x_eval.
  replace (0 + 1 * 1 / (0 + 1 * 1) * (0 + 1 * 0 + 0 * 0)) with 0 by lra.
  rewrite f_activation1_fin. unfold argmax. x_eval.
  reflexivity.
Qed.

Lemma eval_data_predicts_witness :
  exists Yp,
    eval_data [[Fin 0]] two_class_model = (two_class_model, Ok Yp)
    /\ length Yp = 1%nat.
Proof.
  exists [[Fin 0]]. split; [exact eval_data_two_class |].
  exact (proj1 (proj2 (eval_data_predicts [[Fin 0]] [[Fin 0]]
                         two_class_model two_class_model eq_refl
                         eval_data_two_class))).
Defined.

(** ** The best particle of a group *)

Lemma argmin_from_spec (t pre : vec) (mp : f64) (mi : nat) :
  (mi < length pre)%nat -> nth mi (pre ++ t) NaN = mp ->
  is_nan mp = false ->
  (forall j, (j < length pre)%nat -> xle mp (nth j (pre ++ t) NaN) = true) ->
  let k := argmin_from t (length pre) mp mi in
  (k < length (pre ++ t))%nat
  /\ (Forall (fun x => is_nan x = false) t ->
      forall j, (j < length (pre ++ t))%nat ->
        xle (nth k (pre ++ t) NaN) (nth j (pre ++ t) NaN) = true).
Proof.
  revert pre mp mi. induction t as [| x t IH]; intros pre mp mi Hmi Hmp Hn Hle.
  - cbn [argmin_from]. rewrite app_nil_r in *. split; [exact Hmi |].
    intros _ j Hj. rewrite Hmp. apply Hle. exact Hj.
  - cbn [argmin_from]. unfold xge.
    assert (EL : pre ++ x :: t = (pre ++ [x]) ++ t)
      by (rewrite <- app_assoc; reflexivity).
    assert (Ex : nth (length pre) (pre ++ x :: t) NaN = x)
      by (rewrite app_nth2, Nat.sub_diag by lia; reflexivity).
    assert (El : length (pre ++ [x]) = Datatypes.S (length pre))
      by (rewrite length_app; simpl; lia).
    destruct (xle mp x) eqn:C; cbn [negb].
    + pose proof (IH (pre ++ [x]) mp mi) as H.
      rewrite El, <- EL in H. cbv zeta in H.
      destruct H as [H1 H2]; [lia | exact Hmp | exact Hn | |].
      * intros j Hj. destruct (Nat.eq_dec j (length pre)) as [-> | Hne].
        -- rewrite Ex. exact C.
        -- apply Hle. lia.
      * split; [exact H1 |]. intros Hall. apply H2.
        inversion Hall; assumption.
    + destruct (is_nan x) eqn:Nx.
      * split; [rewrite length_app; simpl; lia |].
        intros Hall. inversion Hall; congruence.
      * pose proof (IH (pre ++ [x]) x (length pre)) as H.
        rewrite El, <- EL in H. cbv zeta in H.
        destruct H as [H1 H2]; [lia | exact Ex | exact Nx | |].
        -- intros j Hj. destruct (Nat.eq_dec j (length pre)) as [-> | Hne].
           ++ rewrite Ex. apply xle_refl. exact Nx.
           ++ apply (xle_trans _ mp); [| apply Hle; lia].
              apply xle_total; assumption.
        -- split; [exact H1 |]. intros Hall. apply H2.
           inversion Hall; assumption.
Qed.

(** [np.argmin] of a vector that is not empty is an index of the vector,
    and on a vector without NaN no entry is below the one it points to. *)
Lemma argmin_spec (l : vec) :
  l <> [] ->
  (argmin l < length l)%nat
  /\ (Forall (fun x => is_nan x = false) l ->
      forall j, (j < length l)%nat ->
        xle (nth (argmin l) l NaN) (nth j l NaN) = true).
Proof.
  destruct l as [| x t]; [congruence |]. intros _. unfold argmin.
  destruct (is_nan x) eqn:Nx.
  - split; [simpl; lia |]. intros Hall. inversion Hall; congruence.
  - pose proof (argmin_from_spec t [x] x 0) as H. cbv zeta in H.
    cbn [length app] in H.
    destruct H as [H1 H2]; [lia | reflexivity | exact Nx | |].
    + intros j Hj. replace j with 0%nat by lia. apply xle_refl. exact Nx.
    + split; [exact H1 |]. intros Hall. apply H2.
      inversion Hall; assumption.
Qed.

Lemma masked_cost_nth (row : list bool) (cost : vec) (j : nat) :
  length row = length cost -> (j < length cost)%nat ->
  nth j (map2 (fun (b : bool) cst => if b then cst else PInf) row cost) NaN
  = if nth j row false then nth j cost NaN else PInf.
Proof.
  revert cost j. induction row as [| b row IH]; intros cost j Hl Hj.
  - simpl in Hl. lia.
  - destruct cost as [| x cost]; [simpl in Hj; lia |].
    destruct j as [| j]; [reflexivity |].
    cbn [map2 nth]. apply IH; simpl in *; lia.
Qed.

Lemma length_masked_cost (row : list bool) (cost : vec) :
  length row = length cost ->
  length (map2 (fun (b : bool) cst => if b then cst else PInf) row cost)
  = length cost.
Proof.
  revert cost. induction row as [| b row IH]; intros cost Hl.
  - simpl in *. lia.
  - destruct cost as [| x cost]; [reflexivity |].
    cbn [map2 length]. f_equal. apply IH. simpl in Hl. lia.
Qed.

Lemma xle_PInf (x : f64) : is_nan x = false -> xle x PInf = true.
Proof. destruct x; simpl; try reflexivity; discriminate. Qed.

(** X11.  [group_best]: when no best cost is NaN, the position given to agent
    [i] is the best position of a particle [k] whose cost is not above the cost
    of any informant of [i], and the correction factor is 0.75 exactly when [k
    = i]. *)
Theorem group_best_minimises (inf : list (list bool)) (bp : matrix)
  (cost : vec) (i : nat) :
  cost <> [] ->
  Forall (fun x => is_nan x = false) cost ->
  (i < length inf)%nat ->
  length (nth i inf []) = length cost ->
  exists k,
    (k < length cost)%nat
    /\ nth i (fst (group_best inf bp cost)) [] = nth k bp []
    /\ nth i (snd (group_best inf bp cost)) NaN
       = (if Nat.eqb i k then Fin 0.75 else Fin 1)
    /\ forall j, (j < length cost)%nat ->
         nth j (nth i inf []) false = true ->
         xle (nth k cost NaN) (nth j cost NaN) = true.
Proof.
  intros Hne Hnn Hi Hrow.
  set (mask := fun row : list bool =>
                 map2 (fun (b : bool) cst => if b then cst else PInf)
                      row cost).
  set (r := mask (nth i inf [])).
  assert (Lr : length r = length cost)
    by (apply length_masked_cost; exact Hrow).
  assert (Hr : r <> []).
  { intros E. rewrite E in Lr. destruct cost; [congruence | discriminate]. }
  assert (Nr : Forall (fun x => is_nan x = false) r).
  { apply Forall_forall. intros x Hx.
    destruct (In_nth _ _ NaN Hx) as [j [Hj <-]].
    unfold r, mask. rewrite masked_cost_nth by lia.
    destruct (nth j (nth i inf []) false); [| reflexivity].
    apply (proj1 (Forall_forall _ _) Hnn). apply nth_In. lia. }
  destruct (argmin_spec r Hr) as [Hk Hmin].
  exists (argmin r). split; [lia |].
  unfold group_best. cbn [fst snd].
  assert (Ei : nth i (map argmin (map mask inf)) 0%nat = argmin r).
  { rewrite (nth_map_in argmin (map mask inf) i 0%nat [])
      by (rewrite length_map; exact Hi).
    apply (f_equal argmin). exact (nth_map_in mask inf i [] [] Hi). }
  split; [| split].
  - fold mask.
    rewrite (nth_map_in _ _ i [] 0%nat) by (rewrite !length_map; exact Hi).
    rewrite Ei. reflexivity.
  - fold mask. unfold mapi.
    rewrite (nth_mapi_from _ 0 i _ NaN 0%nat)
      by (rewrite !length_map; exact Hi).
    rewrite Ei. reflexivity.
  - intros j Hj Hinf.
    assert (Hnth : forall m, (m < length cost)%nat ->
              nth m r NaN
              = if nth m (nth i inf []) false then nth m cost NaN
                else PInf).
    { intros m Hm. unfold r, mask. apply masked_cost_nth; assumption. }
    pose proof (Hmin Nr j ltac:(lia)) as H.
    rewrite (Hnth j Hj), Hinf in H.
    apply (xle_trans _ (nth (argmin r) r NaN)); [| exact H].
    rewrite (Hnth (argmin r)) by lia.
    assert (Nk : is_nan (nth (argmin r) cost NaN) = false).
    { apply (proj1 (Forall_forall _ _) Hnn). apply nth_In. lia. }
    destruct (nth (argmin r) (nth i inf []) false).
    + apply xle_refl. exact Nk.
    + apply xle_PInf. exact Nk.
Qed.

Lemma group_best_minimises_witness :
  let inf := [[true; false]; [true; true]] in
  let bp := [[Fin 1]; [Fin 2]] in
  let cost := [Fin 5; Fin 7] in
  exists k,
    (k < length cost)%nat
    /\ nth 1 (fst (group_best inf bp cost)) [] = nth k bp []
    /\ nth 1 (snd (group_best inf bp cost)) NaN
       = (if Nat.eqb 1 k then Fin 0.75 else Fin 1)
    /\ forall j, (j < length cost)%nat ->
         nth j (nth 1 inf []) false = true ->
         xle (nth k cost NaN) (nth j cost NaN) = true.
Proof.
  intros inf bp cost.
  apply (group_best_minimises inf bp cost 1).
  - discriminate.
  - repeat constructor.
  - simpl. lia.
  - reflexivity.
Defined.

(** ** Integer variables *)

Lemma resolve_index_bound (n : nat) (z : Z) (i : nat) :
  resolve_index n z = Ok i -> (i < n)%nat.
Proof.
  unfold resolve_index. cbv zeta.
  destruct ((0 <=? z - 1)%Z && (z - 1 <? Z.of_nat n)%Z) eqn:C1.
  - intros H. injection H as <-.
    apply andb_prop in C1. destruct C1 as [A1 A2].
    apply Z.leb_le in A1. apply Z.ltb_lt in A2. lia.
  - destruct ((z - 1 <? 0)%Z && (- Z.of_nat n <=? z - 1)%Z) eqn:C2;
      [| discriminate].
    intros H. injection H as <-.
    apply andb_prop in C2. destruct C2 as [A1 A2].
    apply Z.ltb_lt in A1. apply Z.leb_le in A2. lia.
Qed.


Lemma epoch_IntVar (iv1 iv2 : IntVarSpec) (cfg : PSO_args)
  (cols : list nat) (st : Swarm) :
  epoch (with_IntVar iv1 cfg) cols st = epoch (with_IntVar iv2 cfg) cols st.
Proof. reflexivity. Qed.















Lemma PSO_after_0 (cfg : PSO_args) (st : Swarm) :
  PSO_after cfg 0 = Ok st ->
  exists cols,
    resolve_IntVar (nVar cfg) (IntVar cfg) = Ok cols
    /\ st = init_swarm cfg cols.
Proof.
  unfold PSO_after. destruct (PSO_start cfg) as [[cols st0] | e] eqn:E;
    [| discriminate].
  intros H. injection H as <-. exists cols.
  exact (PSO_start_cols cfg cols st0 E).
Qed.

Lemma init_swarm_pos (cfg : PSO_args) (cols : list nat) :
  agent_pos (init_swarm cfg cols)
  = on_int_cols cols (fun _ => xround)
      (map (fun urow => zip3 (fun lb u ub => xadd lb (xmul u (xsub ub lb)))
                             (LBw cfg) urow (UBw cfg))
           (draw_matrix (uniform_draws (rng cfg)) 0 (nPop cfg) (nVar cfg))).
Proof.
  unfold init_swarm. cbv zeta.
  destruct (Nat.eqb (K cfg) 0).
  - reflexivity.
  - destruct (group_best _ _ _) as [gbp peq]. reflexivity.
Qed.

Lemma init_swarm_vel (cfg : PSO_args) (cols : list nat) :
  exists V, agent_vel (init_swarm cfg cols) = clamp_vel cfg V.
Proof.
  unfold init_swarm. cbv zeta.
  destruct (Nat.eqb (K cfg) 0).
  - eexists. reflexivity.
  - destruct (group_best _ _ _) as [gbp peq]. eexists. reflexivity.
Qed.




(** ** Velocity limits *)

(** X14.  Every velocity component of every swarm that [PSO] goes through, the
    initial one included, is inside [-vel_max, vel_max] or is NaN, for finite
    ordered bounds, a non-negative velocity factor and uniform draws in [0, 1).
    *)
Theorem velocities_within_limits (cfg : PSO_args) (n : nat) (st : Swarm)
  (row : vec) (j : nat) :
  Forall2 (fun lb ub => exists a b, lb = Fin a /\ ub = Fin b /\ a <= b)
          (LB cfg) (UB cfg) ->
  0 <= vel_fact cfg ->
  unit_draws (rng cfg) ->
  PSO_after cfg n = Ok st ->
  In row (agent_vel st) -> (j < length row)%nat ->
  within_or_nan (nth j (vel_max cfg) NaN) (nth j row NaN).
Proof.
  intros Hb Hf Hu Hst Hrow Hj.
  destruct n as [| n].
  - apply PSO_after_0 in Hst. destruct Hst as (cols & _ & ->).
    destruct (init_swarm_vel cfg cols) as [V E]. rewrite E in Hrow.
    destruct (clamp_vel_within cfg V row j Hb Hf Hrow Hj)
      as (m & r & Em & Er & Hr).
    rewrite Em, Er. right. simpl. exact Hr.
  - apply PSO_after_S_cols in Hst. destruct Hst as (cols & st' & _ & ->).
    exact (proj1 (epoch_vel_within cfg cols st' row j Hb Hf Hu Hrow Hj)).
Qed.

Lemma velocities_within_limits_witness :
  let cfg := tiny_args 0 1 RB IntNone in
  let st := epoch cfg [] (init_swarm cfg []) in
  within_or_nan (nth 0 (vel_max cfg) NaN)
                (nth 0 (nth 0 (agent_vel st) []) NaN).
Proof.
  intros cfg st.
  assert (Hshape : exists x, agent_vel st = [[x]]).
  { unfold st. destruct (epoch_fields cfg [] (init_swarm cfg [])) as [E _].
    rewrite E. eexists.
    cbn -[xadd xsub xmul xdiv xneg fmin fmax xsqrt xabs xlt xgt xge xle
          xround xceil xfloor R_ltb R_eqb R_leb].
    reflexivity. }
  destruct Hshape as [x Hx].
  apply (velocities_within_limits cfg 1 st (nth 0 (agent_vel st) []) 0).
  - repeat constructor. exists 0, 1. repeat split; lra.
  - simpl. lra.
  - intros k. simpl. lra.
  - reflexivity.
  - rewrite Hx. left. reflexivity.
  - rewrite Hx. simpl. lia.
Defined.

(** ** The initial swarm *)



(** ** The correction factor without informants *)

Lemma epoch_p_equal_g (cfg : PSO_args) (cols : list nat) (st : Swarm) :
  K cfg = 0%nat -> p_equal_g (epoch cfg cols st) = p_equal_g st.
Proof.
  intros HK. unfold epoch. cbv zeta.
  destruct (confinement _ _ _ _) as [vc used]. rewrite HK. reflexivity.
Qed.

(** X16.  With [K = 0] the factor [p_equal_g] is computed once, before the main
    loop: after any number of epochs it still marks with 0.75 the particle that
    was the best of the initial swarm, whichever particle is the best by then.
    *)
Theorem p_equal_g_never_updated (cfg : PSO_args) (n : nat) (st : Swarm) :
  K cfg = 0%nat ->
  PSO_after cfg n = Ok st ->
  exists cols,
    resolve_IntVar (nVar cfg) (IntVar cfg) = Ok cols
    /\ p_equal_g st
       = map (fun i =>
                if Nat.eqb i (swarm_best_idx (init_swarm cfg cols))
                then Fin 0.75 else Fin 1)
             (seq 0 (nPop cfg)).
Proof.
  intros HK Hst. unfold PSO_after in Hst.
  destruct (PSO_start cfg) as [[cols st0] | e] eqn:E; [| discriminate].
  injection Hst as <-.
  destruct (PSO_start_cols cfg cols st0 E) as [Hc ->].
  exists cols. split; [exact Hc |].
  assert (H0 : p_equal_g (init_swarm cfg cols)
               = map (fun i =>
                        if Nat.eqb i (swarm_best_idx (init_swarm cfg cols))
                        then Fin 0.75 else Fin 1)
                     (seq 0 (nPop cfg))).
  { unfold init_swarm. cbv zeta. rewrite HK. reflexivity. }
  rewrite <- H0. clear H0 E.
  generalize (init_swarm cfg cols).
  induction n as [| n IH]; intros st; [reflexivity |].
  cbn [run]. rewrite IH. apply epoch_p_equal_g. exact HK.
Qed.

Lemma p_equal_g_never_updated_witness :
  let cfg := tiny_args 0 1 RB IntNone in
  exists cols,
    resolve_IntVar (nVar cfg) (IntVar cfg) = Ok cols
    /\ p_equal_g (epoch cfg [] (init_swarm cfg []))
       = map (fun i =>
                if Nat.eqb i (swarm_best_idx (init_swarm cfg cols))
                then Fin 0.75 else Fin 1)
             (seq 0 (nPop cfg)).
Proof.
  intros cfg.
  apply (p_equal_g_never_updated cfg 1 (epoch cfg [] (init_swarm cfg []))).
  - reflexivity.
  - reflexivity.
Defined.

(** ** The shapes of the arrays of the optimiser *)

Lemma Forall_zip3 {T U V W : Type} (P1 : T -> Prop) (P2 : U -> Prop)
  (P3 : V -> Prop) (Q : W -> Prop) (f : T -> U -> V -> W)
  (l1 : list T) (l2 : list U) (l3 : list V) :
  (forall a b d, P1 a -> P2 b -> P3 d -> Q (f a b d)) ->
  Forall P1 l1 -> Forall P2 l2 -> Forall P3 l3 ->
  Forall Q (zip3 f l1 l2 l3).
Proof.
  intros Hf H1. revert l2 l3.
  induction H1 as [| a l1 Ha _ IH]; intros l2 l3 H2 H3; [constructor |].
  destruct H2 as [| b l2 Hb H2]; [constructor |].
  destruct H3 as [| d l3 Hd H3]; [constructor |].
  cbn [zip3]. constructor; [apply Hf; assumption | apply IH; assumption].
Qed.

Lemma Forall_map2_both {T U V : Type} (P1 : T -> Prop) (P2 : U -> Prop)
  (Q : V -> Prop) (f : T -> U -> V) (l1 : list T) (l2 : list U) :
  (forall a b, P1 a -> P2 b -> Q (f a b)) ->
  Forall P1 l1 -> Forall P2 l2 -> Forall Q (map2 f l1 l2).
Proof.
  intros Hf H1. revert l2.
  induction H1 as [| a l1 Ha _ IH]; intros l2 H2; [constructor |].
  destruct H2 as [| b l2 Hb H2]; [constructor |].
  cbn [map2]. constructor; [apply Hf; assumption | apply IH; assumption].
Qed.

Lemma Forall_combine {T U : Type} (P1 : T -> Prop) (P2 : U -> Prop)
  (l1 : list T) (l2 : list U) :
  Forall P1 l1 -> Forall P2 l2 ->
  Forall (fun p => P1 (fst p) /\ P2 (snd p)) (combine l1 l2).
Proof.
  intros H1. revert l2.
  induction H1 as [| a l1 Ha _ IH]; intros l2 H2; [constructor |].
  destruct H2 as [| b l2 Hb H2]; [constructor |].
  cbn [combine]. constructor; [split; assumption | apply IH; assumption].
Qed.

Lemma Forall_map_of {T U : Type} (P : T -> Prop) (Q : U -> Prop)
  (f : T -> U) (l : list T) :
  (forall a, P a -> Q (f a)) -> Forall P l -> Forall Q (map f l).
Proof.
  intros Hf H. induction H; cbn [map]; constructor; auto.
Qed.

Lemma Forall_True {T : Type} (l : list T) : Forall (fun _ => True) l.
Proof. induction l; constructor; auto. Qed.

Lemma length_mapi {T U : Type} (f : nat -> T -> U) (l : list T) :
  length (mapi f l) = length l.
Proof. apply length_mapi_from. Qed.

Lemma draw_matrix_shape (u : nat -> R) (k rows cols_ : nat) :
  has_shape rows cols_ (draw_matrix u k rows cols_).
Proof.
  unfold has_shape, draw_matrix. rewrite length_map, length_seq.
  split; [reflexivity |]. apply Forall_forall. intros row Hrow.
  apply in_map_iff in Hrow. destruct Hrow as [i [<- _]].
  rewrite length_map, length_seq. reflexivity.
Qed.

Lemma n_columns_shape {T : Type} (rows cols_ : nat) (m : list (list T)) :
  has_shape rows cols_ m -> (0 < rows)%nat -> n_columns m = cols_.
Proof.
  intros [Hl Hc] Hr. destruct m as [| r m]; [simpl in Hl; lia |].
  inversion Hc; subst. reflexivity.
Qed.

Lemma nth_shape {T : Type} (rows cols_ : nat) (m : list (list T)) (i : nat) :
  has_shape rows cols_ m -> (i < rows)%nat -> length (nth i m []) = cols_.
Proof.
  intros [Hl Hc] Hi.
  apply (proj1 (Forall_forall _ _) Hc). apply nth_In. lia.
Qed.

Section Shapes.

Variable cfg : PSO_args.
Hypothesis Hbounds : length (UB cfg) = length (LB cfg).
Hypothesis Hpop : (0 < nPop cfg)%nat.

Lemma length_LBw : length (LBw cfg) = nVar cfg.
Proof.
  unfold LBw. destruct (normalize cfg); [apply repeat_length | reflexivity].
Qed.

Lemma length_UBw : length (UBw cfg) = nVar cfg.
Proof.
  unfold UBw. destruct (normalize cfg); [apply repeat_length | exact Hbounds].
Qed.

Lemma length_vel_max : length (vel_max cfg) = nVar cfg.
Proof. unfold vel_max, nVar. rewrite length_map2. lia. Qed.

Lemma length_vel_min : length (vel_min cfg) = nVar cfg.
Proof. unfold vel_min. rewrite length_map. apply length_vel_max. Qed.

Lemma clamp_vel_shape (V : matrix) :
  has_shape (nPop cfg) (nVar cfg) V ->
  has_shape (nPop cfg) (nVar cfg) (clamp_vel cfg V).
Proof.
  intros [Hl Hc]. unfold clamp_vel. split; [rewrite length_map; exact Hl |].
  apply (Forall_map_of (fun row => length row = nVar cfg)); [| exact Hc].
  intros row Hr. rewrite length_zip3, Hr, length_vel_min, length_vel_max.
  lia.
Qed.

Lemma on_int_cols_shape (cols : list nat) (g : nat -> f64 -> f64)
  (a : matrix) :
  has_shape (nPop cfg) (nVar cfg) a ->
  has_shape (nPop cfg) (nVar cfg) (on_int_cols cols g a).
Proof.
  intros [Hl Hc]. unfold on_int_cols. split; [rewrite length_map; exact Hl |].
  apply (Forall_map_of (fun row => length row = nVar cfg)); [| exact Hc].
  intros row Hr. rewrite length_mapi. exact Hr.
Qed.

Lemma mmap2_shape (f : f64 -> f64 -> f64) (a b : matrix) :
  has_shape (nPop cfg) (nVar cfg) a ->
  has_shape (nPop cfg) (nVar cfg) b ->
  has_shape (nPop cfg) (nVar cfg) (mmap2 f a b).
Proof.
  intros [Hl Hc] [Hl' Hc']. unfold mmap2.
  split; [rewrite length_map2; lia |].
  apply (Forall_map2_both (fun row => length row = nVar cfg)
                          (fun row => length row = nVar cfg));
    [| assumption | assumption].
  intros r1 r2 H1 H2. rewrite length_map2. lia.
Qed.

Lemma bounds_rows_shape {T : Type} (f : f64 -> f64 -> f64 -> T)
  (a : matrix) :
  has_shape (nPop cfg) (nVar cfg) a ->
  has_shape (nPop cfg) (nVar cfg)
            (map (fun row => zip3 f row (LBw cfg) (UBw cfg)) a).
Proof.
  intros [Hl Hc]. split; [rewrite length_map; exact Hl |].
  apply (Forall_map_of (fun row => length row = nVar cfg)); [| exact Hc].
  intros row Hr. rewrite length_zip3, Hr, length_LBw, length_UBw. lia.
Qed.

Lemma clip_pos_shape (cols : list nat) (pos : matrix) :
  has_shape (nPop cfg) (nVar cfg) pos ->
  has_shape (nPop cfg) (nVar cfg) (clip_pos cfg cols pos).
Proof.
  intros H. unfold clip_pos.
  do 2 apply on_int_cols_shape. apply bounds_rows_shape.
  apply on_int_cols_shape. exact H.
Qed.

Lemma outside_shape (cols : list nat) (pos vel : matrix) :
  has_shape (nPop cfg) (nVar cfg) pos ->
  has_shape (nPop cfg) (nVar cfg) vel ->
  has_shape (nPop cfg) (nVar cfg) (outside cfg cols pos vel).
Proof.
  intros Hp Hv. unfold outside. cbv zeta.
  apply bounds_rows_shape, on_int_cols_shape, mmap2_shape; assumption.
Qed.

Lemma random_back_shape (ku : nat) (vel : matrix) :
  has_shape (nPop cfg) (nVar cfg) vel ->
  has_shape (nPop cfg) (nVar cfg) (random_back_conf (rng cfg) ku vel).
Proof.
  intros Hv. unfold random_back_conf. cbv zeta.
  apply mmap2_shape; [| exact Hv].
  rewrite (proj1 Hv), (n_columns_shape _ _ _ Hv Hpop).
  apply draw_matrix_shape.
Qed.

Lemma hyperbolic_shape (pos vel : matrix) :
  has_shape (nPop cfg) (nVar cfg) pos ->
  has_shape (nPop cfg) (nVar cfg) vel ->
  has_shape (nPop cfg) (nVar cfg)
            (hyperbolic_conf pos vel (UBw cfg) (LBw cfg)).
Proof.
  intros [Hl Hc] [Hl' Hc']. unfold hyperbolic_conf.
  split; [rewrite length_map2; lia |].
  apply (Forall_map2_both (fun row => length row = nVar cfg)
                          (fun row => length row = nVar cfg));
    [| assumption | assumption].
  intros r1 r2 H1 H2.
  rewrite length_zip3, length_combine, H1, H2, length_LBw, length_UBw.
  lia.
Qed.

Lemma zip3_rows_shape {T U V : Type} (f : T -> U -> V -> f64)
  (a : list (list T)) (b : list (list U)) (d : list (list V)) :
  has_shape (nPop cfg) (nVar cfg) a ->
  has_shape (nPop cfg) (nVar cfg) b ->
  has_shape (nPop cfg) (nVar cfg) d ->
  has_shape (nPop cfg) (nVar cfg) (zip3 (zip3 f) a b d).
Proof.
  intros [L1 C1] [L2 C2] [L3 C3].
  split; [rewrite length_zip3; lia |].
  apply (Forall_zip3 (fun row => length row = nVar cfg)
                     (fun row => length row = nVar cfg)
                     (fun row => length row = nVar cfg));
    [| assumption | assumption | assumption].
  intros r1 r2 r3 H1 H2 H3. rewrite length_zip3. lia.
Qed.

Lemma mixed_shape (ku : nat) (pos vel : matrix) :
  has_shape (nPop cfg) (nVar cfg) pos ->
  has_shape (nPop cfg) (nVar cfg) vel ->
  has_shape (nPop cfg) (nVar cfg)
            (mixed_conf (rng cfg) ku pos vel (UBw cfg) (LBw cfg)).
Proof.
  intros Hp Hv. unfold mixed_conf. cbv zeta.
  apply zip3_rows_shape.
  - rewrite (proj1 Hp), (n_columns_shape _ _ _ Hp Hpop).
    apply draw_matrix_shape.
  - apply hyperbolic_shape; assumption.
  - apply random_back_shape; assumption.
Qed.

Lemma confinement_shape (ku : nat) (pos vel : matrix) :
  has_shape (nPop cfg) (nVar cfg) pos ->
  has_shape (nPop cfg) (nVar cfg) vel ->
  has_shape (nPop cfg) (nVar cfg) (fst (confinement cfg ku pos vel)).
Proof.
  intros Hp Hv. unfold confinement. cbv zeta.
  destruct (conf_type cfg); cbn [fst].
  - apply random_back_shape; assumption.
  - apply hyperbolic_shape; assumption.
  - apply mixed_shape; assumption.
Qed.

Lemma confined_vel_shape (out : list (list bool)) (vc vel : matrix) :
  has_shape (nPop cfg) (nVar cfg) out ->
  has_shape (nPop cfg) (nVar cfg) vc ->
  has_shape (nPop cfg) (nVar cfg) vel ->
  has_shape (nPop cfg) (nVar cfg) (confined_vel out vc vel).
Proof. intros. unfold confined_vel. apply zip3_rows_shape; assumption. Qed.

Lemma gravity_shape (st : Swarm) :
  swarm_shapes cfg st -> has_shape (nPop cfg) (nVar cfg) (gravity cfg st).
Proof.
  intros ([L1 C1] & _ & [L3 C3] & [L4 C4] & _ & _ & L7 & _).
  unfold gravity. split.
  - rewrite length_zip3, length_combine. lia.
  - apply (Forall_zip3
             (fun p : vec * vec => length (fst p) = nVar cfg
                                   /\ length (snd p) = nVar cfg)
             (fun row : vec => length row = nVar cfg)
             (fun _ : f64 => True));
      [| exact (Forall_combine (fun row : vec => length row = nVar cfg)
                               (fun row : vec => length row = nVar cfg)
                               _ _ C1 C3)
       | assumption | apply Forall_True].
    intros [x p] g peq [H1 H2] H3 _. cbn [fst snd] in *.
    rewrite length_zip3. lia.
Qed.

Lemma hypersphere_shape (kg ku : nat) (Gr pos : matrix) :
  has_shape (nPop cfg) (nVar cfg) Gr ->
  has_shape (nPop cfg) (nVar cfg) pos ->
  has_shape (nPop cfg) (nVar cfg)
            (hypersphere_point (rng cfg) kg ku Gr pos).
Proof.
  intros HG Hp. unfold hypersphere_point. cbv zeta.
  rewrite (proj1 Hp), (n_columns_shape _ _ _ Hp Hpop).
  pose proof (draw_matrix_shape (normal_draws (rng cfg)) kg (nPop cfg)
                                (nVar cfg)) as [Lu Cu].
  pose proof (mmap2_shape xsub Gr pos HG Hp) as [Ld _].
  split.
  - rewrite length_zip3, length_map2, !length_map.
    unfold draw_vector. rewrite length_map, length_seq.
    unfold vec, matrix in *. rewrite Lu, Ld. lia.
  - apply (Forall_zip3 (fun row : vec => length row = nVar cfg)
                       (fun _ : f64 => True) (fun _ : f64 => True));
      [| exact Cu | apply Forall_True | apply Forall_True].
    intros urow ri ni H _ _. rewrite length_map. exact H.
Qed.

Lemma updated_vel_shape (st : Swarm) :
  swarm_shapes cfg st ->
  has_shape (nPop cfg) (nVar cfg) (updated_vel cfg st).
Proof.
  intros Hs. pose proof (gravity_shape st Hs) as HG.
  destruct Hs as (Hp & Hv & _).
  unfold updated_vel. cbv zeta. apply clamp_vel_shape.
  repeat apply mmap2_shape; try assumption.
  - destruct Hv as [Lv Cv]. split; [rewrite length_map; exact Lv |].
    apply (Forall_map_of (fun row => length row = nVar cfg)); [| exact Cv].
    intros row Hr. rewrite length_map. exact Hr.
  - apply hypersphere_shape; assumption.
Qed.

Lemma draw_informants_shape (ku : nat) :
  has_shape (nPop cfg) (nPop cfg) (draw_informants cfg ku).
Proof.
  unfold draw_informants.
  pose proof (draw_matrix_shape (uniform_draws (rng cfg)) ku (nPop cfg)
                                (nPop cfg)) as [L C].
  split; [rewrite length_mapi; exact L |].
  apply Forall_forall. intros row Hrow.
  destruct (In_nth _ _ [] Hrow) as [i [Hi <-]].
  rewrite length_mapi in Hi.
  rewrite (nth_mapi _ i _ [] []) by exact Hi.
  rewrite length_mapi.
  apply (proj1 (Forall_forall _ _) C). apply nth_In. exact Hi.
Qed.

Lemma group_best_shape (inf : list (list bool)) (bp : matrix) (cost : vec) :
  has_shape (nPop cfg) (nPop cfg) inf ->
  has_shape (nPop cfg) (nVar cfg) bp ->
  length cost = nPop cfg ->
  has_shape (nPop cfg) (nVar cfg) (fst (group_best inf bp cost))
  /\ length (snd (group_best inf bp cost)) = nPop cfg.
Proof.
  intros [Li Ci] Hb Lc. unfold group_best. cbn [fst snd].
  rewrite length_mapi, !length_map. split; [| exact Li].
  split; [rewrite !length_map; exact Li |].
  apply Forall_forall. intros row Hrow. apply in_map_iff in Hrow.
  destruct Hrow as [k [<- Hk]]. apply in_map_iff in Hk.
  destruct Hk as [r [<- Hr]]. apply in_map_iff in Hr.
  destruct Hr as [irow [<- Hin]].
  apply (nth_shape _ _ _ _ Hb).
  pose proof (proj1 (Forall_forall _ _) Ci irow Hin) as Hlen.
  cbv beta in Hlen.
  set (r := map2 _ irow cost).
  assert (Lr : length r = nPop cfg)
    by (unfold r; rewrite length_map2; lia).
  assert (Hr : r <> []) by (intros E; rewrite E in Lr; simpl in Lr; lia).
  pose proof (proj1 (argmin_spec r Hr)). lia.
Qed.

End Shapes.

(** ** The best position and its cost *)

Lemma epoch_best_fields (cfg : PSO_args) (cols : list nat) (st : Swarm) :
  let pos := agent_pos (epoch cfg cols st) in
  let cost := evaluate cfg pos in
  let better := map2 xlt cost (agent_best_cost st) in
  let best_pos :=
    zip3 (fun (b : bool) new old => if b then new else old)
         better pos (agent_best_pos st) in
  let best_cost :=
    zip3 (fun (b : bool) new old => if b then new else old)
         better cost (agent_best_cost st) in
  let idx := argmin best_cost in
  let improved := xlt (nth idx best_cost NaN) (swarm_best_cost st) in
  agent_cost (epoch cfg cols st) = cost
  /\ agent_best_pos (epoch cfg cols st) = best_pos
  /\ agent_best_cost (epoch cfg cols st) = best_cost
  /\ swarm_best_cost (epoch cfg cols st)
     = (if improved then nth idx best_cost NaN else swarm_best_cost st)
  /\ swarm_best_idx (epoch cfg cols st)
     = (if improved then idx else swarm_best_idx st)
  /\ (K cfg = 0%nat ->
      group_best_pos (epoch cfg cols st)
      = repeat (nth (swarm_best_idx (epoch cfg cols st)) best_pos [])
               (nPop cfg)
      /\ p_equal_g (epoch cfg cols st) = p_equal_g st)
  /\ (K cfg <> 0%nat ->
      (informants (epoch cfg cols st) = informants st
       \/ exists ku, informants (epoch cfg cols st)
                     = draw_informants cfg ku)
      /\ group_best_pos (epoch cfg cols st)
         = fst (group_best (informants (epoch cfg cols st))
                           best_pos best_cost)
      /\ p_equal_g (epoch cfg cols st)
         = snd (group_best (informants (epoch cfg cols st))
                           best_pos best_cost)).
Proof.
  cbv zeta. unfold epoch. cbv zeta.
  destruct (confinement _ _ _ _) as [vc used].
  destruct (Nat.eqb_spec (K cfg) 0) as [HK | HK].
  - cbn. repeat split; try reflexivity; intros; congruence.
  - destruct (group_best _ _ _) as [gbp peq] eqn:G. cbn.
    repeat split; try reflexivity; try (intros; congruence).
    destruct (negb _); [right; eexists; reflexivity | left; reflexivity].
Qed.

Lemma select_rows_shape (cfg : PSO_args) (better : list bool)
  (a b : matrix) :
  length better = nPop cfg ->
  has_shape (nPop cfg) (nVar cfg) a -> has_shape (nPop cfg) (nVar cfg) b ->
  has_shape (nPop cfg) (nVar cfg)
            (zip3 (fun (c : bool) (new old : vec) => if c then new else old)
                  better a b).
Proof.
  intros Lb [La Ca] [Lb' Cb]. unfold vec, matrix in *.
  split; [rewrite length_zip3; lia |].
  apply (Forall_zip3 (fun _ : bool => True)
                     (fun row : vec => length row = nVar cfg)
                     (fun row : vec => length row = nVar cfg));
    [| apply Forall_True | assumption | assumption].
  intros [] r1 r2 _ H1 H2; assumption.
Qed.

Lemma length_evaluate (cfg : PSO_args) (pos : matrix) :
  (forall p, length (func cfg p) = length p) ->
  length (evaluate cfg pos) = length pos.
Proof.
  intros Hf. unfold evaluate, to_orig.
  destruct (normalize cfg); rewrite Hf; [apply length_map | reflexivity].
Qed.

Lemma argmin_bound (l : vec) : (0 < length l)%nat -> (argmin l < length l)%nat.
Proof.
  intros H. apply argmin_spec. intros E. rewrite E in H. simpl in H. lia.
Qed.

Lemma repeat_shape {T : Type} (rows cols_ : nat) (row : list T) :
  length row = cols_ -> has_shape rows cols_ (repeat row rows).
Proof.
  intros H. split; [apply repeat_length |].
  apply Forall_forall. intros r Hr. apply repeat_spec in Hr. subst r.
  exact H.
Qed.

(** One pass of the loop keeps the shapes. *)
Lemma epoch_shapes (cfg : PSO_args) (cols : list nat) (st : Swarm) :
  length (UB cfg) = length (LB cfg) ->
  (0 < nPop cfg)%nat ->
  (forall p, length (func cfg p) = length p) ->
  swarm_shapes cfg st -> swarm_shapes cfg (epoch cfg cols st).
Proof.
  intros Hb Hp Hf Hs.
  assert (Hu : has_shape (nPop cfg) (nVar cfg) (updated_vel cfg st))
    by (apply updated_vel_shape; assumption).
  destruct (epoch_fields cfg cols st) as (Ev & Ep & _).
  destruct (epoch_best_fields cfg cols st)
    as (Ec & Ebp & Ebc & _ & Ei & EK0 & EK).
  assert (Spos := proj1 Hs).
  assert (Hv : has_shape (nPop cfg) (nVar cfg) (epoch_vel cfg cols st)).
  { unfold epoch_vel. cbv zeta. apply confined_vel_shape; try assumption.
    - apply outside_shape; assumption.
    - apply confinement_shape; assumption. }
  assert (Hpos : has_shape (nPop cfg) (nVar cfg)
                           (agent_pos (epoch cfg cols st))).
  { rewrite Ep. apply clip_pos_shape; try assumption.
    apply mmap2_shape; assumption. }
  destruct Hs as (_ & _ & Sbp & _ & _ & Lbc & Lpeq & Sinf & Hidx).
  assert (Lc : length (evaluate cfg (agent_pos (epoch cfg cols st)))
               = nPop cfg).
  { rewrite length_evaluate by exact Hf. exact (proj1 Hpos). }
  assert (Lbet : length (map2 xlt
                           (evaluate cfg (agent_pos (epoch cfg cols st)))
                           (agent_best_cost st)) = nPop cfg)
    by (rewrite length_map2; lia).
  assert (Hbp : has_shape (nPop cfg) (nVar cfg)
                          (agent_best_pos (epoch cfg cols st))).
  { rewrite Ebp. apply select_rows_shape; assumption. }
  assert (Lbc' : length (agent_best_cost (epoch cfg cols st)) = nPop cfg).
  { rewrite Ebc, length_zip3. lia. }
  assert (Hidx' : (swarm_best_idx (epoch cfg cols st) < nPop cfg)%nat).
  { pose proof (argmin_bound (agent_best_cost (epoch cfg cols st))) as Ha.
    rewrite Lbc' in Ha. rewrite Ebc in Ha. rewrite Ei.
    destruct (xlt _ _); [apply Ha; exact Hp | exact Hidx]. }
  unfold swarm_shapes. rewrite Ev.
  split; [exact Hpos |]. split; [exact Hv |]. split; [exact Hbp |].
  assert (HG : has_shape (nPop cfg) (nVar cfg)
                         (group_best_pos (epoch cfg cols st))
               /\ length (p_equal_g (epoch cfg cols st)) = nPop cfg
               /\ (K cfg <> 0%nat ->
                   has_shape (nPop cfg) (nPop cfg)
                             (informants (epoch cfg cols st)))).
  { destruct (Nat.eq_dec (K cfg) 0) as [HK | HK].
    - destruct (EK0 HK) as [-> ->]. rewrite <- Ebp.
      split; [| split; [exact Lpeq | intros; contradiction]].
      apply repeat_shape. apply (nth_shape _ _ _ _ Hbp). exact Hidx'.
    - destruct (EK HK) as (Einf & -> & ->). rewrite <- Ebp, <- Ebc.
      assert (Hinf : has_shape (nPop cfg) (nPop cfg)
                               (informants (epoch cfg cols st))).
      { destruct Einf as [-> | [ku ->]];
          [apply Sinf; exact HK | apply draw_informants_shape]. }
      assert (G : has_shape (nPop cfg) (nVar cfg)
                    (fst (group_best (informants (epoch cfg cols st))
                                     (agent_best_pos (epoch cfg cols st))
                                     (agent_best_cost (epoch cfg cols st))))
                  /\ length
                       (snd (group_best (informants (epoch cfg cols st))
                               (agent_best_pos (epoch cfg cols st))
                               (agent_best_cost (epoch cfg cols st))))
                     = nPop cfg)
        by (apply group_best_shape; assumption).
      destruct G as [G1 G2].
      split; [exact G1 |]. split; [exact G2 | intros _; exact Hinf]. }
  destruct HG as (G1 & G2 & G3).
  split; [exact G1 |]. split; [rewrite Ec; exact Lc |].
  split; [exact Lbc' |]. split; [exact G2 |]. split; [exact G3 |].
  exact Hidx'.
Qed.

Lemma init_swarm_fields (cfg : PSO_args) (cols : list nat) :
  let st := init_swarm cfg cols in
  let pos := agent_pos st in
  let cost := evaluate cfg pos in
  let idx := argmin cost in
  agent_cost st = cost
  /\ agent_best_pos st = pos
  /\ agent_best_cost st = cost
  /\ swarm_best_cost st = nth idx cost NaN
  /\ swarm_best_idx st = idx
  /\ agent_vel st
     = clamp_vel cfg
         (map2 (fun xrow urow =>
                  zip3 (fun lbx u ublb => xadd lbx (xmul u ublb))
                       (map2 xsub (LBw cfg) xrow) urow
                       (map2 xsub (UBw cfg) (LBw cfg)))
               pos
               (draw_matrix (uniform_draws (rng cfg))
                            (nPop cfg * nVar cfg) (nPop cfg) (nVar cfg)))
  /\ (K cfg = 0%nat ->
      group_best_pos st = repeat (nth idx pos []) (nPop cfg)
      /\ length (p_equal_g st) = nPop cfg)
  /\ (K cfg <> 0%nat ->
      (exists ku, informants st = draw_informants cfg ku)
      /\ group_best_pos st = fst (group_best (informants st) pos cost)
      /\ p_equal_g st = snd (group_best (informants st) pos cost)).
Proof.
  cbv zeta. unfold init_swarm. cbv zeta.
  destruct (Nat.eqb_spec (K cfg) 0) as [HK | HK].
  - cbn. repeat split; try reflexivity; try (intros; congruence).
    rewrite length_map, length_seq. reflexivity.
  - destruct (group_best _ _ _) as [gbp peq] eqn:G. cbn.
    repeat split; try reflexivity; try (intros; congruence).
    eexists. reflexivity.
Qed.

Lemma init_swarm_shapes (cfg : PSO_args) (cols : list nat) :
  length (UB cfg) = length (LB cfg) ->
  (0 < nPop cfg)%nat ->
  (forall p, length (func cfg p) = length p) ->
  swarm_shapes cfg (init_swarm cfg cols).
Proof.
  intros Hb Hp Hf.
  destruct (init_swarm_fields cfg cols)
    as (Ec & Ebp & Ebc & _ & Ei & Ev & EK0 & EK).
  assert (LL : length (LBw cfg) = nVar cfg) by (apply length_LBw).
  assert (LU : length (UBw cfg) = nVar cfg)
    by (apply length_UBw; assumption).
  assert (Hpos : has_shape (nPop cfg) (nVar cfg)
                           (agent_pos (init_swarm cfg cols))).
  { rewrite init_swarm_pos. apply on_int_cols_shape.
    destruct (draw_matrix_shape (uniform_draws (rng cfg)) 0 (nPop cfg)
                                (nVar cfg)) as [L C].
    split; [rewrite length_map; exact L |].
    apply (Forall_map_of (fun row : vec => length row = nVar cfg));
      [| exact C].
    intros row Hr. rewrite length_zip3. unfold vec in *. lia. }
  assert (Hvel : has_shape (nPop cfg) (nVar cfg)
                           (agent_vel (init_swarm cfg cols))).
  { rewrite Ev. apply clamp_vel_shape; try assumption.
    destruct (draw_matrix_shape (uniform_draws (rng cfg))
                (nPop cfg * nVar cfg) (nPop cfg) (nVar cfg)) as [L C].
    destruct Hpos as [Lp Cp].
    split; [rewrite length_map2; unfold vec, matrix in *; lia |].
    apply (Forall_map2_both (fun row : vec => length row = nVar cfg)
                            (fun row : vec => length row = nVar cfg));
      [| assumption | assumption].
    intros r1 r2 H1 H2. rewrite length_zip3, !length_map2.
    unfold vec in *. lia. }
  assert (Lc : length (evaluate cfg (agent_pos (init_swarm cfg cols)))
               = nPop cfg).
  { rewrite length_evaluate by exact Hf. exact (proj1 Hpos). }
  assert (Hidx : (swarm_best_idx (init_swarm cfg cols) < nPop cfg)%nat).
  { pose proof (argmin_bound
                  (evaluate cfg (agent_pos (init_swarm cfg cols)))) as Ha.
    rewrite Lc in Ha. rewrite Ei. apply Ha. exact Hp. }
  unfold swarm_shapes. rewrite Ebp, Ec, Ebc.
  split; [exact Hpos |]. split; [exact Hvel |]. split; [exact Hpos |].
  assert (HG : has_shape (nPop cfg) (nVar cfg)
                         (group_best_pos (init_swarm cfg cols))
               /\ length (p_equal_g (init_swarm cfg cols)) = nPop cfg
               /\ (K cfg <> 0%nat ->
                   has_shape (nPop cfg) (nPop cfg)
                             (informants (init_swarm cfg cols)))).
  { destruct (Nat.eq_dec (K cfg) 0) as [HK | HK].
    - destruct (EK0 HK) as [-> Lq].
      split; [| split; [exact Lq | intros; contradiction]].
      apply repeat_shape. apply (nth_shape _ _ _ _ Hpos).
      rewrite <- Ei. exact Hidx.
    - destruct (EK HK) as ([ku Einf] & -> & ->).
      assert (Hinf : has_shape (nPop cfg) (nPop cfg)
                               (informants (init_swarm cfg cols)))
        by (rewrite Einf; apply draw_informants_shape).
      assert (G : has_shape (nPop cfg) (nVar cfg)
                    (fst (group_best (informants (init_swarm cfg cols))
                            (agent_pos (init_swarm cfg cols))
                            (evaluate cfg
                               (agent_pos (init_swarm cfg cols)))))
                  /\ length
                       (snd (group_best (informants (init_swarm cfg cols))
                               (agent_pos (init_swarm cfg cols))
                               (evaluate cfg
                                  (agent_pos (init_swarm cfg cols)))))
                     = nPop cfg)
        by (apply group_best_shape; assumption).
      destruct G as [G1 G2].
      split; [exact G1 |]. split; [exact G2 | intros _; exact Hinf]. }
  destruct HG as (G1 & G2 & G3).
  split; [exact G1 |]. split; [exact Lc |]. split; [exact Lc |].
  split; [exact G2 |]. split; [exact G3 | exact Hidx].
Qed.

Lemma run_shapes (cfg : PSO_args) (cols : list nat) (n : nat) (st : Swarm) :
  length (UB cfg) = length (LB cfg) ->
  (0 < nPop cfg)%nat ->
  (forall p, length (func cfg p) = length p) ->
  swarm_shapes cfg st -> swarm_shapes cfg (run cfg cols n st).
Proof.
  intros Hb Hp Hf. revert st.
  induction n as [| n IH]; intros st Hs; [exact Hs |].
  cbn [run]. apply IH. apply epoch_shapes; assumption.
Qed.

Lemma PSO_start_ok (cfg : PSO_args) (cols : list nat) (st0 : Swarm) :
  PSO_start cfg = Ok (cols, st0) ->
  length (UB cfg) = length (LB cfg) /\ (0 < nPop cfg)%nat.
Proof.
  unfold PSO_start.
  destruct (Nat.eqb_spec (length (UB cfg)) (length (LB cfg))) as [E | E];
    cbn [negb]; [| discriminate].
  destruct (Nat.eqb_spec (nPop cfg) 0) as [E0 | E0]; [discriminate |].
  intros _. split; [exact E | lia].
Qed.

(** X17.  The arrays of the loop keep their dimensions from the initial swarm
    on and after every epoch, when the objective returns one cost per row:
    [(nPop, nVar)] for the positions, the velocities, the best positions and
    the group-best positions, [(nPop)] for the costs, [(nPop, nPop)] for the
    informants, as the docstring of [PSO] lists them, and [nPop] entries for
    [p_equal_g], which the program holds as a column of shape [(nPop, 1)]
    and not as the [(nPop)] array of the docstring; and [swarm_best_idx] is
    the index of a particle. *)
Theorem PSO_keeps_shapes (cfg : PSO_args) (n : nat) (st : Swarm) :
  (forall p, length (func cfg p) = length p) ->
  PSO_after cfg n = Ok st ->
  swarm_shapes cfg st.
Proof.
  intros Hf Hst. unfold PSO_after in Hst.
  destruct (PSO_start cfg) as [[cols st0] | e] eqn:E; [| discriminate].
  injection Hst as <-.
  destruct (PSO_start_ok cfg cols st0 E) as [Hb Hp].
  destruct (PSO_start_cols cfg cols st0 E) as [_ ->].
  apply run_shapes; try assumption.
  apply init_swarm_shapes; assumption.
Qed.

Lemma PSO_keeps_shapes_witness :
  let cfg := tiny_args 0 1 RB IntNone in
  swarm_shapes cfg (epoch cfg [] (init_swarm cfg [])).
Proof.
  intros cfg.
  apply (PSO_keeps_shapes cfg 1).
  - intros p. unfold cfg. cbn. apply length_map.
  - reflexivity.
Defined.

Lemma evaluate_rows (cfg : PSO_args) (g : vec -> f64) (pos : matrix) :
  (forall p, func cfg p = map g p) ->
  evaluate cfg pos = map (row_cost cfg g) pos.
Proof.
  intros Hf. unfold evaluate, to_orig, row_cost. rewrite !Hf.
  destruct (normalize cfg); [apply map_map | reflexivity].
Qed.

Lemma zip3_select_map {T U : Type} (h : T -> U) (better : list bool)
  (a b : list T) :
  zip3 (fun (c : bool) new old => if c then new else old)
       better (map h a) (map h b)
  = map h (zip3 (fun (c : bool) new old => if c then new else old)
                better a b).
Proof.
  revert a b. induction better as [| c better IH]; intros a b;
    [reflexivity |].
  destruct a as [| x a]; [reflexivity |].
  destruct b as [| y b]; [reflexivity |].
  cbn [map zip3]. rewrite IH. destruct c; reflexivity.
Qed.

Lemma xle_not_nan_r (x y : f64) : xle x y = true -> is_nan y = false.
Proof. destruct x, y; simpl; try reflexivity; discriminate. Qed.

Lemma xlt_not_nan (x y : f64) :
  xlt x y = true -> is_nan x = false /\ is_nan y = false.
Proof. destruct x, y; simpl; try discriminate; split; reflexivity. Qed.

Lemma xle_xlt_trans (x y z : f64) :
  xle x y = true -> xlt y z = true -> xlt x z = true.
Proof.
  destruct x, y, z; simpl; try reflexivity; try discriminate.
  unfold R_leb, R_ltb.
  destruct (Rle_dec r r0), (Rlt_dec r0 r1); try discriminate.
  intros _ _. destruct (Rlt_dec r r1); [reflexivity | lra].
Qed.

Lemma argmin_from_nan_free (t pre : vec) (mp : f64) (mi : nat) :
  (mi < length pre)%nat -> nth mi (pre ++ t) NaN = mp ->
  is_nan mp = false ->
  is_nan (nth (argmin_from t (length pre) mp mi) (pre ++ t) NaN) = false ->
  Forall (fun x => is_nan x = false) t.
Proof.
  revert pre mp mi. induction t as [| x t IH]; intros pre mp mi Hmi Hmp Hn Hk;
    [constructor |].
  cbn [argmin_from] in Hk. unfold xge in Hk.
  assert (EL : pre ++ x :: t = (pre ++ [x]) ++ t)
    by (rewrite <- app_assoc; reflexivity).
  assert (Ex : nth (length pre) (pre ++ x :: t) NaN = x)
    by (rewrite app_nth2, Nat.sub_diag by lia; reflexivity).
  assert (El : length (pre ++ [x]) = Datatypes.S (length pre))
    by (rewrite length_app; simpl; lia).
  destruct (xle mp x) eqn:C; cbn [negb] in Hk.
  - constructor; [exact (xle_not_nan_r _ _ C) |].
    apply (IH (pre ++ [x]) mp mi); rewrite ?El, <- ?EL; try assumption.
    lia.
  - destruct (is_nan x) eqn:Nx.
    + rewrite Ex in Hk. congruence.
    + constructor; [exact Nx |].
      apply (IH (pre ++ [x]) x (length pre)); rewrite ?El, <- ?EL;
        try assumption.
      lia.
Qed.

(** When [np.argmin] points to an entry that is not NaN, no entry is. *)
Lemma argmin_nan_free (l : vec) :
  is_nan (nth (argmin l) l NaN) = false ->
  Forall (fun x => is_nan x = false) l.
Proof.
  destruct l as [| x t]; [constructor |]. unfold argmin.
  destruct (is_nan x) eqn:Nx.
  - simpl. congruence.
  - intros H. constructor; [exact Nx |].
    apply (argmin_from_nan_free t [x] x 0); try assumption;
      [simpl; lia | reflexivity].
Qed.

Lemma nth_select (better : list bool) (a b : vec) (i : nat) :
  (i < length better)%nat -> (i < length a)%nat -> (i < length b)%nat ->
  nth i (zip3 (fun (c : bool) new old => if c then new else old)
              better a b) NaN
  = if nth i better false then nth i a NaN else nth i b NaN.
Proof.
  intros H1 H2 H3.
  rewrite (nth_zip3 _ _ _ _ i NaN false NaN NaN)
    by (rewrite length_zip3; lia).
  reflexivity.
Qed.

Lemma select_cost_nth (cost bc : vec) (n i : nat) :
  length cost = n -> length bc = n -> (i < n)%nat ->
  nth i (zip3 (fun (c : bool) new old => if c then new else old)
              (map2 xlt cost bc) cost bc) NaN
  = if xlt (nth i cost NaN) (nth i bc NaN) then nth i cost NaN
    else nth i bc NaN.
Proof.
  intros Lc Lb Hi.
  rewrite nth_select by (rewrite ?length_map2; lia).
  rewrite (nth_map2 _ _ _ i false NaN NaN) by (rewrite length_map2; lia).
  reflexivity.
Qed.

Lemma select_cost_nan_free (cost bc : vec) (n : nat) :
  length cost = n -> length bc = n ->
  Forall (fun x => is_nan x = false) bc ->
  Forall (fun x => is_nan x = false)
         (zip3 (fun (c : bool) new old => if c then new else old)
               (map2 xlt cost bc) cost bc).
Proof.
  intros Lc Lb Hnn. apply Forall_forall. intros x Hx.
  destruct (In_nth _ _ NaN Hx) as [i [Hi <-]].
  rewrite length_zip3, length_map2 in Hi.
  rewrite (select_cost_nth cost bc n i) by lia.
  destruct (xlt _ _) eqn:B.
  - exact (proj1 (xlt_not_nan _ _ B)).
  - apply (proj1 (Forall_forall _ _) Hnn). apply nth_In. lia.
Qed.

Lemma func_rows_length (cfg : PSO_args) (g : vec -> f64) :
  (forall p, func cfg p = map g p) ->
  forall p, length (func cfg p) = length p.
Proof. intros Hf p. rewrite Hf. apply length_map. Qed.

Lemma epoch_coherent (cfg : PSO_args) (g : vec -> f64) (cols : list nat)
  (st : Swarm) :
  (forall p, func cfg p = map g p) ->
  length (UB cfg) = length (LB cfg) ->
  (0 < nPop cfg)%nat ->
  swarm_shapes cfg st ->
  best_coherent cfg g st -> best_coherent cfg g (epoch cfg cols st).
Proof.
  intros Hf Hb Hp Hs (Ha & Hsb & Hnn).
  pose proof (func_rows_length cfg g Hf) as Hfl.
  pose proof (epoch_shapes cfg cols st Hb Hp Hfl Hs) as Hs'.
  destruct (epoch_best_fields cfg cols st)
    as (_ & Ebp & Ebc & Es & Ei & _).
  destruct Hs as (_ & _ & _ & _ & _ & Lbc & _ & _ & Hidx).
  destruct Hs' as (Hpos' & _ & _ & _ & _ & Lbc' & _ & _ & Hidx').
  unfold best_coherent.
  set (cost := evaluate cfg (agent_pos (epoch cfg cols st))) in *.
  assert (Lc : length cost = nPop cfg).
  { unfold cost. rewrite length_evaluate by exact Hfl. exact (proj1 Hpos'). }
  set (bc := agent_best_cost st) in *.
  set (bc' := agent_best_cost (epoch cfg cols st)) in *.
  assert (F2 : forall i, (i < nPop cfg)%nat ->
             nth i bc' NaN
             = if xlt (nth i cost NaN) (nth i bc NaN) then nth i cost NaN
               else nth i bc NaN).
  { intros i Hi. rewrite Ebc.
    apply (select_cost_nth cost bc (nPop cfg)); assumption. }
  assert (F3 : Forall (fun x => is_nan x = false) bc ->
               Forall (fun x => is_nan x = false) bc').
  { intros H. rewrite Ebc.
    apply (select_cost_nan_free cost bc (nPop cfg)); assumption. }
  split; [| rewrite Es, Ei; rewrite <- Ebc].
  - clear F2 F3. subst bc' bc cost. rewrite Ebc, Ebp.
    rewrite (evaluate_rows cfg g _ Hf), Ha. apply zip3_select_map.
  - destruct (xlt (nth (argmin bc') bc' NaN) (swarm_best_cost st))
      eqn:I.
    + split; [reflexivity |]. apply argmin_nan_free.
    + split; [| intros H; apply F3, Hnn; exact H].
      rewrite (F2 _ Hidx).
      destruct (xlt (nth (swarm_best_idx st) cost NaN)
                    (nth (swarm_best_idx st) bc NaN)) eqn:B;
        [| exact Hsb].
      exfalso. fold bc in Hsb. rewrite <- Hsb in B.
      pose proof (proj2 (xlt_not_nan _ _ B)) as Hn.
      pose proof (F3 (Hnn Hn)) as Hn'.
      assert (Hne : bc' <> []).
      { intros E. rewrite E in Lbc'. simpl in Lbc'. lia. }
      pose proof (proj2 (argmin_spec bc' Hne) Hn' (swarm_best_idx st)
                    ltac:(lia)) as Hmin.
      rewrite (F2 _ Hidx) in Hmin. rewrite <- Hsb in Hmin.
      rewrite B in Hmin.
      pose proof (xle_xlt_trans _ _ _ Hmin B) as C. congruence.
Qed.

Lemma init_coherent (cfg : PSO_args) (g : vec -> f64) (cols : list nat) :
  (forall p, func cfg p = map g p) ->
  best_coherent cfg g (init_swarm cfg cols).
Proof.
  intros Hf.
  destruct (init_swarm_fields cfg cols) as (_ & Ebp & Ebc & Es & Ei & _).
  unfold best_coherent. rewrite Es, Ei, Ebc, Ebp.
  split; [apply evaluate_rows; exact Hf |].
  split; [reflexivity | apply argmin_nan_free].
Qed.

Lemma run_coherent (cfg : PSO_args) (g : vec -> f64) (cols : list nat)
  (n : nat) (st : Swarm) :
  (forall p, func cfg p = map g p) ->
  length (UB cfg) = length (LB cfg) ->
  (0 < nPop cfg)%nat ->
  swarm_shapes cfg st -> best_coherent cfg g st ->
  best_coherent cfg g (run cfg cols n st).
Proof.
  intros Hf Hb Hp. revert st.
  induction n as [| n IH]; intros st Hs Hc; [exact Hc |].
  cbn [run]. apply IH.
  - apply epoch_shapes; try assumption. apply (func_rows_length cfg g Hf).
  - apply epoch_coherent; assumption.
Qed.

(** X18.  For an objective that applies [g] to every row, the cost that [PSO]
    returns is the value of [g] at the position it returns (also when the
    search space is normalised), and the index it returns is the index of a
    particle. *)
Theorem PSO_returns_cost_of_best (cfg : PSO_args) (g : vec -> f64)
  (theta : vec) (J : f64) (idx in_rad : nat) :
  (forall p, func cfg p = map g p) ->
  PSO cfg = Ok (theta, (J, idx, in_rad)) ->
  J = g theta /\ (idx < nPop cfg)%nat.
Proof.
  intros Hf H. unfold PSO, PSO_after in H.
  destruct (PSO_start cfg) as [[cols st0] | e] eqn:E; [| discriminate].
  destruct (PSO_start_ok cfg cols st0 E) as [Hb Hp].
  destruct (PSO_start_cols cfg cols st0 E) as [_ ->].
  pose proof (func_rows_length cfg g Hf) as Hfl.
  pose proof (init_swarm_shapes cfg cols Hb Hp Hfl) as Hs0.
  pose proof (run_shapes cfg cols (epochs cfg) _ Hb Hp Hfl Hs0) as Hs.
  pose proof (run_coherent cfg g cols (epochs cfg) _ Hf Hb Hp Hs0
                (init_coherent cfg g cols Hf)) as (Ha & Hsb & _).
  set (st := run cfg cols (epochs cfg) (init_swarm cfg cols)) in *.
  destruct Hs as (_ & _ & [Lbp _] & _ & _ & _ & _ & _ & Hidx).
  unfold finish in H. cbv zeta in H. injection H as <- <- <- _.
  split; [| exact Hidx].
  rewrite Hsb, Ha.
  rewrite (nth_map_in (row_cost cfg g) (agent_best_pos st) _ NaN [])
    by (unfold matrix, vec in *; rewrite Lbp; exact Hidx).
  unfold row_cost, swarm_best_pos. destruct (normalize cfg); reflexivity.
Qed.

Lemma PSO_returns_cost_of_best_witness :
  let cfg := tiny_args 0 1 RB IntNone in
  exists theta J idx in_rad,
    PSO cfg = Ok (theta, (J, idx, in_rad))
    /\ J = Fin 0 /\ (idx < 1)%nat.
Proof.
  intros cfg.
  destruct (PSO cfg) as [[theta [[J idx] in_rad]] | e] eqn:E.
  - exists theta, J, idx, in_rad. split; [reflexivity |].
    apply (PSO_returns_cost_of_best cfg (fun _ => Fin 0) theta J idx
             in_rad).
    + intros p. reflexivity.
    + exact E.
  - discriminate E.
Defined.

(** ** The bounds built for the optimiser *)







Lemma finite_list (l : vec) :
  Forall (fun x => is_finite x = true) l -> exists rs, l = map Fin rs.
Proof.
  induction 1 as [| x l Hx _ [rs ->]]; [exists []; reflexivity |].
  destruct x as [r | | |]; try discriminate.
  exists (r :: rs). reflexivity.
Qed.






Lemma xdiv_fin_nz (a b : R) : b <> 0 -> xdiv (Fin a) (Fin b) = Fin (a / b).
Proof. intros H. simpl. rewrite R_eqb_false by exact H. reflexivity. Qed.








(** ** Accuracy and error measures *)

Lemma count_true_le (l : list bool) : (count_true l <= length l)%nat.
Proof. unfold count_true. apply filter_length_le. Qed.

Lemma count_true_all (l : list bool) :
  count_true l = length l <-> Forall (fun b => b = true) l.
Proof.
  unfold count_true. induction l as [| b l IH]; simpl.
  - split; [constructor | reflexivity].
  - destruct b; simpl.
    + split.
      * intros H. constructor; [reflexivity |]. apply IH. lia.
      * intros H. inversion H; subst. f_equal. apply IH. assumption.
    + split.
      * intros H. pose proof (filter_length_le (fun b : bool => b) l). lia.
      * intros H. inversion H; discriminate.
Qed.

Lemma Forall_map2_eq {T U : Type} (f : T -> U -> bool) (l1 : list T)
  (l2 : list U) :
  length l1 = length l2 ->
  (Forall (fun b => b = true) (map2 f l1 l2)
   <-> Forall2 (fun x y => f x y = true) l1 l2).
Proof.
  revert l2. induction l1 as [| x l1 IH]; intros l2 Hl.
  - destruct l2; [| discriminate]. split; constructor.
  - destruct l2 as [| y l2]; [discriminate |]. cbn [map2].
    injection Hl as Hl. split; intros H; inversion H; subst;
      constructor; try assumption; apply (IH l2 Hl); assumption.
Qed.

(** X20.  [calc_accu] on two arrays of the same size that are not empty: a
    percentage between 0 and 100, which is 100 exactly when every entry of the
    first equals the entry of the second at the same place (a NaN is equal to
    nothing). *)
Theorem calc_accu_range (a b : matrix) :
  length (concat a) = length (concat b) ->
  concat a <> [] ->
  exists r,
    calc_accu a b = Fin r /\ 0 <= r <= 100
    /\ (r = 100
        <-> Forall2 (fun x y => xeq x y = true) (concat a) (concat b)).
Proof.
  intros Hl Hne. unfold calc_accu. cbv zeta.
  set (u := concat a) in *. set (v := concat b) in *.
  set (c := count_true (map2 xeq u v)).
  assert (Hn : (0 < length u)%nat).
  { destruct u; [congruence | simpl; lia]. }
  assert (Hc : (c <= length u)%nat).
  { unfold c. pose proof (count_true_le (map2 xeq u v)) as H.
    rewrite length_map2 in H. lia. }
  pose proof (lt_0_INR _ Hn) as Hn'.
  pose proof (pos_INR c) as Hc0.
  pose proof (le_INR _ _ Hc) as Hc'.
  cbn [xmul]. rewrite xdiv_fin_nz by lra.
  exists (100 * INR c / INR (length u)). split; [reflexivity |].
  assert (Hq : 0 <= INR c / INR (length u) <= 1).
  { split.
    - apply Rmult_le_pos; [lra | left; apply Rinv_0_lt_compat; lra].
    - apply (Rmult_le_reg_r (INR (length u))); [lra |].
      unfold Rdiv. rewrite Rmult_assoc, Rinv_l by lra. lra. }
  assert (Eq : 100 * INR c / INR (length u)
               = 100 * (INR c / INR (length u))) by (field; lra).
  rewrite Eq. split; [lra |].
  rewrite <- (Forall_map2_eq xeq u v Hl), <- count_true_all.
  fold c. rewrite length_map2, <- Hl, Nat.min_id.
  split.
  - intros H. apply INR_eq.
    assert (INR c / INR (length u) = 1) by lra.
    apply (Rmult_eq_reg_r (/ INR (length u)));
      [| apply Rinv_neq_0_compat; lra].
    rewrite Rinv_r by lra. exact H0.
  - intros ->. unfold Rdiv. rewrite Rinv_r by lra. lra.
Qed.

Lemma calc_accu_range_witness :
  exists r,
    calc_accu [[Fin 0]; [Fin 1]] [[Fin 0]; [Fin 0]] = Fin r
    /\ 0 <= r <= 100.
Proof.
  destruct (calc_accu_range [[Fin 0]; [Fin 1]] [[Fin 0]; [Fin 0]])
    as (r & E & Hr & _).
  - reflexivity.
  - discriminate.
  - exists r. split; [exact E | exact Hr].
Defined.

Lemma Rpower_2 (x : R) : 0 < x -> Rpower x 2 = x * x.
Proof.
  intros Hx. replace 2 with (INR 2) by (simpl; lra).
  rewrite Rpower_pow by exact Hx. simpl. lra.
Qed.

Lemma xpow_2_fin (e : R) : xpow (Fin e) (Fin 2) = Fin (e * e).
Proof.
  unfold xpow. rewrite (R_eqb_false 2 0) by lra.
  destruct (Rlt_dec 0 e) as [Hp | Hp].
  - rewrite (R_ltb_true 0 e) by exact Hp. rewrite Rpower_2 by exact Hp.
    reflexivity.
  - rewrite (R_ltb_false 0 e) by exact Hp.
    destruct (Req_dec_T e 0) as [-> | Hz].
    + rewrite (R_eqb_true 0 0) by reflexivity.
      rewrite (R_ltb_true 0 2) by lra. f_equal. lra.
    + rewrite (R_eqb_false e 0) by exact Hz.
      unfold R_is_int. rewrite Int_part_2.
      rewrite (R_eqb_true (IZR 2) 2) by reflexivity. cbn [Z.odd].
      rewrite Rpower_2 by lra. f_equal. lra.
Qed.

Lemma map2_xsub_fin (ra rb : list R) :
  map2 xsub (map Fin ra) (map Fin rb)
  = map Fin (map2 (fun x y => x + - y) ra rb).
Proof.
  revert rb. induction ra as [| x ra IH]; intros rb; [reflexivity |].
  destruct rb as [| y rb]; [reflexivity |].
  cbn [map map2]. rewrite IH. reflexivity.
Qed.

Lemma rsum_squares_nonneg (ds : list R) :
  0 <= rsum (map (fun d => d * d) ds).
Proof.
  induction ds as [| d ds IH]; simpl; [lra |].
  pose proof (Rle_0_sqr d) as H. unfold Rsqr in H. lra.
Qed.

Lemma rsum_squares_zero (ds : list R) :
  rsum (map (fun d => d * d) ds) = 0 -> Forall (fun d => d = 0) ds.
Proof.
  induction ds as [| d ds IH]; simpl; intros H; [constructor |].
  pose proof (Rle_0_sqr d) as Hd. unfold Rsqr in Hd.
  pose proof (rsum_squares_nonneg ds) as Hs.
  constructor; [| apply IH; lra].
  assert (E : d * d = 0) by lra.
  apply Rmult_integral in E. destruct E; assumption.
Qed.

Lemma differences_zero (ra rb : list R) :
  length ra = length rb ->
  Forall (fun d => d = 0) (map2 (fun x y => x + - y) ra rb) -> ra = rb.
Proof.
  revert rb. induction ra as [| x ra IH]; intros rb Hl H.
  - destruct rb; [reflexivity | discriminate].
  - destruct rb as [| y rb]; [discriminate |].
    cbn [map2] in H. inversion H; subst. injection Hl as Hl.
    f_equal; [lra | apply IH; assumption].
Qed.

Lemma squares_symmetric (ra rb : list R) :
  map (fun d => d * d) (map2 (fun x y => x + - y) ra rb)
  = map (fun d => d * d) (map2 (fun x y => x + - y) rb ra).
Proof.
  revert rb. induction ra as [| x ra IH]; intros rb.
  - destruct rb; reflexivity.
  - destruct rb as [| y rb]; [reflexivity |].
    cbn [map map2]. rewrite IH. f_equal. lra.
Qed.

(** The value of [calc_rmse] on two arrays of reals. *)
Lemma calc_rmse_fin (a b : matrix) (ra rb : list R) :
  concat a = map Fin ra -> concat b = map Fin rb -> ra <> [] ->
  calc_rmse a b
  = Fin (sqrt (rsum (map (fun d => d * d)
                         (map2 (fun x y => x + - y) ra rb))
               / INR (length ra))).
Proof.
  intros Ea Eb Hne. unfold calc_rmse. cbv zeta. rewrite Ea, Eb.
  rewrite map2_xsub_fin, map_map.
  rewrite (map_ext _ (fun d => Fin (d * d))) by (intros; apply xpow_2_fin).
  rewrite <- (map_map (fun d => d * d) Fin), xsum_fin, length_map.
  assert (Hn : 0 < INR (length ra)).
  { apply lt_0_INR. destruct ra; [congruence | simpl; lia]. }
  rewrite xdiv_fin_nz by lra.
  pose proof (rsum_squares_nonneg (map2 (fun x y => x + - y) ra rb)) as Hs.
  cbn [xsqrt]. rewrite R_ltb_false; [reflexivity |].
  apply Rle_not_lt. apply Rmult_le_pos; [exact Hs |].
  left. apply Rinv_0_lt_compat. exact Hn.
Qed.

(** X21.  [calc_rmse] on two arrays of reals of the same size that are not
    empty: a real that is never negative, that is 0 exactly when the two arrays
    are equal, and that does not depend on the order of the arguments. *)
Theorem calc_rmse_zero_iff_equal (a b : matrix) (ra rb : list R) :
  concat a = map Fin ra -> concat b = map Fin rb ->
  length ra = length rb -> ra <> [] ->
  exists r,
    calc_rmse a b = Fin r /\ 0 <= r /\ (r = 0 <-> ra = rb)
    /\ calc_rmse b a = Fin r.
Proof.
  intros Ea Eb Hl Hne.
  assert (Hne' : rb <> []).
  { intros E. rewrite E in Hl. destruct ra; [congruence | discriminate]. }
  rewrite (calc_rmse_fin a b ra rb Ea Eb Hne).
  rewrite (calc_rmse_fin b a rb ra Eb Ea Hne').
  set (S1 := rsum (map (fun d => d * d)
                       (map2 (fun x y => x + - y) ra rb))).
  assert (HS : 0 <= S1) by apply rsum_squares_nonneg.
  assert (Hn : 0 < INR (length ra)).
  { apply lt_0_INR. destruct ra; [congruence | simpl; lia]. }
  assert (Hq : 0 <= S1 / INR (length ra)).
  { apply Rmult_le_pos; [exact HS |].
    left. apply Rinv_0_lt_compat. exact Hn. }
  exists (sqrt (S1 / INR (length ra))).
  split; [reflexivity |]. split; [apply sqrt_pos |]. split.
  - split.
    + intros H. apply sqrt_eq_0 in H; [| exact Hq].
      assert (E0 : S1 = 0).
      { apply (Rmult_eq_reg_r (/ INR (length ra)));
          [| apply Rinv_neq_0_compat; lra].
        rewrite Rmult_0_l. exact H. }
      apply differences_zero; [exact Hl |].
      apply rsum_squares_zero. exact E0.
    + intros E. subst rb. unfold S1.
      assert (Z : rsum (map (fun d => d * d)
                            (map2 (fun x y => x + - y) ra ra)) = 0).
      { clear. induction ra as [| x ra IH]; simpl; [reflexivity |].
        rewrite IH. lra. }
      rewrite Z. unfold Rdiv. rewrite Rmult_0_l. apply sqrt_0.
  - rewrite <- Hl. unfold S1. rewrite (squares_symmetric rb ra).
    reflexivity.
Qed.

Lemma calc_rmse_zero_iff_equal_witness :
  exists r,
    calc_rmse [[Fin 0]; [Fin 1]] [[Fin 0]; [Fin 3]] = Fin r /\ 0 <= r.
Proof.
  destruct (calc_rmse_zero_iff_equal [[Fin 0]; [Fin 1]] [[Fin 0]; [Fin 3]]
              [0; 1] [0; 3]) as (r & E & Hr & _).
  - reflexivity.
  - reflexivity.
  - reflexivity.
  - discriminate.
  - exists r. split; [exact E | exact Hr].
Defined.

(** ** Scaling and normalisation of a dataset *)


Lemma nth_columns_of (X : matrix) (j : nat) :
  (j < n_columns X)%nat ->
  nth j (columns_of X) [] = map (fun row => nth j row NaN) X.
Proof.
  intros Hj. unfold columns_of.
  pose proof (nth_map_in
                (fun j0 : nat => map (fun row : vec => nth j0 row NaN) X)
                (seq 0 (n_columns X)) j [] 0%nat) as H.
  rewrite length_seq in H. specialize (H Hj).
  rewrite seq_nth in H by exact Hj. exact H.
Qed.

(** A dataset of reals with [k] columns and at least one row. *)
Lemma column_fin (X : matrix) (k j : nat) :
  X <> [] ->
  Forall (fun row => length row = k
                     /\ Forall (fun x => is_finite x = true) row) X ->
  (j < k)%nat ->
  let col := map (fun row => nth j row NaN) X in
  n_columns X = k /\ col <> []
  /\ Forall (fun x => is_finite x = true) col.
Proof.
  intros Hne HX Hj col. split; [| split].
  - destruct X as [| r X]; [congruence |]. inversion HX; subst.
    simpl. tauto.
  - unfold col. destruct X; [congruence | discriminate].
  - unfold col. apply Forall_forall. intros x Hx. apply in_map_iff in Hx.
    destruct Hx as (row & <- & Hrow).
    destruct (proj1 (Forall_forall _ _) HX row Hrow) as [Hl Hf].
    apply (proj1 (Forall_forall _ _) Hf). apply nth_In. lia.
Qed.




Lemma rsum_shift (xs : list R) (m : R) :
  rsum (map (fun x => x + - m) xs) = rsum xs - INR (length xs) * m.
Proof.
  induction xs as [| x xs IH]; [simpl; lra |].
  cbn [map rsum fold_right length]. fold (rsum (map (fun x => x + - m) xs)).
  fold (rsum xs). rewrite IH, S_INR. lra.
Qed.

Lemma rsum_squares_scale (ds : list R) (t : R) :
  t <> 0 ->
  rsum (map (fun z => z * z) (map (fun d => d / t) ds))
  = rsum (map (fun d => d * d) ds) / (t * t).
Proof.
  intros Ht. induction ds as [| d ds IH]; [simpl; lra |].
  cbn [map rsum fold_right].
  fold (rsum (map (fun z => z * z) (map (fun d => d / t) ds))).
  fold (rsum (map (fun d => d * d) ds)). rewrite IH. field. exact Ht.
Qed.

Lemma map_xmul_self_fin (ds : list R) :
  map (fun x => xmul x x) (map Fin ds) = map Fin (map (fun d => d * d) ds).
Proof. rewrite !map_map. reflexivity. Qed.

(** Mean and deviation of a column of reals. *)
Lemma np_mean_fin (xs : list R) :
  xs <> [] -> np_mean (map Fin xs) = Fin (rsum xs / INR (length xs)).
Proof.
  intros Hne. unfold np_mean. rewrite xsum_fin, length_map.
  apply xdiv_fin_nz. apply not_0_INR. destruct xs; [congruence | discriminate].
Qed.

Lemma np_std_fin (ddof : nat) (xs : list R) :
  (ddof < length xs)%nat ->
  let m := rsum xs / INR (length xs) in
  let S2 := rsum (map (fun d => d * d) (map (fun x => x + - m) xs)) in
  np_std ddof (map Fin xs) = Fin (sqrt (S2 / INR (length xs - ddof)))
  /\ 0 <= S2 / INR (length xs - ddof).
Proof.
  intros Hd m S2.
  assert (Hne : xs <> []) by (destruct xs; [simpl in Hd; lia | discriminate]).
  assert (Hn : 0 < INR (length xs - ddof)) by (apply lt_0_INR; lia).
  assert (HS : 0 <= S2) by apply rsum_squares_nonneg.
  assert (Hq : 0 <= S2 / INR (length xs - ddof)).
  { apply Rmult_le_pos; [exact HS |].
    left. apply Rinv_0_lt_compat. exact Hn. }
  split; [| exact Hq].
  unfold np_std. cbv zeta. rewrite np_mean_fin by exact Hne. fold m.
  assert (Edev : map (fun x => xsub x (Fin m)) (map Fin xs)
                 = map Fin (map (fun x => x + - m) xs))
    by (rewrite !map_map; reflexivity).
  rewrite Edev, map_xmul_self_fin, xsum_fin, length_map. fold S2.
  rewrite xdiv_fin_nz by lra. cbn [xsqrt].
  rewrite R_ltb_false by lra. reflexivity.
Qed.

Lemma rsum_const (xs : list R) (c : R) :
  (forall x, In x xs -> x = c) -> rsum xs = INR (length xs) * c.
Proof.
  induction xs as [| x xs IH]; intros H; [simpl; lra |].
  cbn [rsum fold_right length]. fold (rsum xs).
  rewrite IH by (intros y Hy; apply H; right; exact Hy).
  rewrite (H x (or_introl eq_refl)), S_INR. lra.
Qed.

Lemma rsum_squares_of_zero (ds : list R) :
  Forall (fun d => d = 0) ds -> rsum (map (fun d => d * d) ds) = 0.
Proof.
  induction 1 as [| d ds Hd _ IH]; [reflexivity |].
  cbn [map rsum fold_right]. fold (rsum (map (fun d => d * d) ds)).
  rewrite IH, Hd. lra.
Qed.

(** X23.  In exact arithmetic, [normalize_data] on a dataset of reals with
    more rows than [ddof], column by column: the mean returned is the sum
    over the number of rows and the deviation is a real that is never
    negative; it is 0 exactly when the column is constant, and then every
    entry of the normalised column is NaN; otherwise the normalised column
    is made of reals whose sum is 0 and whose squares sum to [n - ddof]
    (zero mean and unit deviation).  All of this is a statement on the
    reals: the program rounds the mean and the deviation, so that on a
    constant column such as 0.1, 0.1, 0.1 its mean is not 0.1, its
    deviation is a tiny positive number and the normalised entries are -1
    instead of NaN. *)
Theorem normalize_data_columns (X : matrix) (k ddof j : nat) :
  X <> [] ->
  Forall (fun row => length row = k
                     /\ Forall (fun x => is_finite x = true) row) X ->
  (ddof < length X)%nat -> (j < k)%nat ->
  let Xn := fst (normalize_data X ddof) in
  let mu_ := fst (snd (normalize_data X ddof)) in
  let sigma := snd (snd (normalize_data X ddof)) in
  exists xs m sg,
    map (fun row => nth j row NaN) X = map Fin xs
    /\ nth j mu_ NaN = Fin m /\ m = rsum xs / INR (length X)
    /\ nth j sigma NaN = Fin sg /\ 0 <= sg
    /\ (sg = 0 <-> forall x, In x xs -> x = nth 0 xs 0)
    /\ (sg <> 0 ->
        exists zs,
          map (fun row => nth j row NaN) Xn = map Fin zs
          /\ rsum zs = 0
          /\ rsum (map (fun z => z * z) zs) = INR (length X - ddof))
    /\ (sg = 0 ->
        Forall (fun z => z = NaN) (map (fun row => nth j row NaN) Xn)).
Proof.
  intros Hne HX Hd Hj. unfold normalize_data. cbn [fst snd]. cbv zeta.
  set (mu_ := map np_mean (columns_of X)).
  set (sigma := map (np_std ddof) (columns_of X)).
  set (Xn := normalize_with X mu_ sigma).
  destruct (column_fin X k j Hne HX Hj) as (Hk & Hc1 & Hc2).
  destruct (finite_list _ Hc2) as [xs Exs].
  assert (Lxs : length xs = length X).
  { apply (f_equal (@length f64)) in Exs. rewrite !length_map in Exs.
    symmetry. exact Exs. }
  assert (Hxs : xs <> []).
  { intros E. rewrite E in Lxs. destruct X; [congruence | discriminate]. }
  set (m := rsum xs / INR (length xs)).
  set (ds := map (fun x => x + - m) xs).
  set (S2 := rsum (map (fun d => d * d) ds)).
  set (q := S2 / INR (length xs - ddof)).
  destruct (np_std_fin ddof xs ltac:(lia)) as [Estd Hq].
  fold m ds S2 q in Estd, Hq.
  assert (Lc : length (columns_of X) = k).
  { unfold columns_of. rewrite length_map, length_seq. exact Hk. }
  assert (Emu : nth j mu_ NaN = Fin m).
  { unfold mu_.
    rewrite (nth_map_in np_mean (columns_of X) j NaN []) by lia.
    rewrite nth_columns_of by lia. rewrite Exs.
    apply np_mean_fin. exact Hxs. }
  assert (Esg : nth j sigma NaN = Fin (sqrt q)).
  { unfold sigma.
    rewrite (nth_map_in (np_std ddof) (columns_of X) j NaN []) by lia.
    rewrite nth_columns_of by lia. rewrite Exs. exact Estd. }
  assert (Hn : 0 < INR (length xs)).
  { apply lt_0_INR. lia. }
  assert (Hnd : 0 < INR (length xs - ddof)) by (apply lt_0_INR; lia).
  assert (HS : 0 <= S2) by apply rsum_squares_nonneg.
  assert (Hzero : sqrt q = 0 <-> Forall (fun d => d = 0) ds).
  { split.
    - intros H. apply sqrt_eq_0 in H; [| exact Hq].
      apply rsum_squares_zero. fold S2. unfold q in H.
      apply (Rmult_eq_reg_r (/ INR (length xs - ddof)));
        [| apply Rinv_neq_0_compat; lra].
      rewrite Rmult_0_l. exact H.
    - intros H. unfold q, S2. rewrite (rsum_squares_of_zero ds H).
      unfold Rdiv. rewrite Rmult_0_l. apply sqrt_0. }
  assert (Ecol : map (fun row => nth j row NaN) Xn
                 = map (fun r => xdiv (Fin (r + - m)) (Fin (sqrt q))) xs).
  { unfold Xn, normalize_with. rewrite map_map.
    rewrite (map_ext_in _
               (fun row => xdiv (xsub (nth j row NaN) (Fin m))
                                (Fin (sqrt q)))).
    - rewrite <- (map_map (fun row => nth j row NaN)
                          (fun x => xdiv (xsub x (Fin m)) (Fin (sqrt q)))).
      rewrite Exs, map_map. reflexivity.
    - intros row Hrow.
      destruct (proj1 (Forall_forall _ _) HX row Hrow) as [Hl _].
      rewrite (nth_zip3 _ _ _ _ j NaN NaN NaN NaN).
      + rewrite Emu, Esg. reflexivity.
      + rewrite length_zip3. unfold mu_, sigma.
        rewrite !length_map. lia. }
  exists xs, m, (sqrt q).
  split; [exact Exs |]. split; [exact Emu |].
  split; [unfold m; rewrite Lxs; reflexivity |].
  split; [exact Esg |]. split; [apply sqrt_pos |]. split; [| split].
  - rewrite Hzero. split.
    + intros H x Hx.
      assert (Hall : forall y, In y xs -> y = m).
      { intros y Hy.
        pose proof (proj1 (Forall_forall _ _) H (y + - m)
                      (in_map (fun x => x + - m) xs y Hy)). lra. }
      rewrite (Hall x Hx). symmetry. apply Hall.
      destruct xs; [congruence | left; reflexivity].
    + intros H. apply Forall_forall. intros d Hdin.
      unfold ds in Hdin. apply in_map_iff in Hdin.
      destruct Hdin as (x & <- & Hx).
      assert (Em : m = nth 0 xs 0).
      { unfold m. rewrite (rsum_const xs (nth 0 xs 0) H). field. lra. }
      rewrite (H x Hx), Em. lra.
  - intros Hsg.
    exists (map (fun d => d / sqrt q) ds). split; [| split].
    + rewrite Ecol. unfold ds. rewrite !map_map.
      apply map_ext. intros r. apply xdiv_fin_nz. exact Hsg.
    + rewrite rsum_scale. unfold ds. rewrite rsum_shift.
      assert (E : rsum xs - INR (length xs) * m = 0)
        by (unfold m; field; lra).
      rewrite E. unfold Rdiv. apply Rmult_0_l.
    + rewrite rsum_squares_scale by exact Hsg. fold S2.
      rewrite sqrt_sqrt by exact Hq. unfold q. rewrite <- Lxs.
      assert (HS0 : S2 <> 0).
      { intros E. apply Hsg. unfold q. rewrite E.
        unfold Rdiv. rewrite Rmult_0_l. apply sqrt_0. }
      field. split; lra.
  - intros Hsg. rewrite Ecol. apply Forall_forall. intros z Hz.
    apply in_map_iff in Hz. destruct Hz as (r & <- & Hr).
    pose proof (proj1 Hzero Hsg) as Hall.
    pose proof (proj1 (Forall_forall _ _) Hall (r + - m)
                  (in_map (fun x => x + - m) xs r Hr)) as E.
    rewrite Hsg, E. cbn [xdiv]. rewrite !R_eqb_true by reflexivity.
    reflexivity.
Qed.

Lemma normalize_data_columns_witness :
  let X := [[Fin 1; Fin 5]; [Fin 3; Fin 5]] in
  exists m sg,
    nth 0 (fst (snd (normalize_data X 0))) NaN = Fin m
    /\ nth 0 (snd (snd (normalize_data X 0))) NaN = Fin sg /\ 0 <= sg.
Proof.
  intros X.
  destruct (normalize_data_columns X 2 0 0)
    as (xs & m & sg & _ & Em & _ & Es & Hs & _).
  - discriminate.
  - repeat constructor.
  - simpl. lia.
  - lia.
  - exists m, sg. split; [exact Em |]. split; [exact Es | exact Hs].
Defined.

(** ** The random point of the hypersphere *)

Lemma norm_fin (us : list R) :
  norm (map Fin us) = Fin (sqrt (rsum (map (fun d => d * d) us))).
Proof.
  unfold norm. rewrite map_xmul_self_fin, xsum_fin. cbn [xsqrt].
  rewrite R_ltb_false; [reflexivity |].
  apply Rle_not_lt. apply rsum_squares_nonneg.
Qed.

Lemma rsum_squares_times (us : list R) (t : R) :
  rsum (map (fun d => d * d) (map (fun x => x * t) us))
  = t * t * rsum (map (fun d => d * d) us).
Proof.
  induction us as [| x us IH]; [simpl; lra |].
  cbn [map rsum fold_right].
  fold (rsum (map (fun d => d * d) (map (fun x => x * t) us))).
  fold (rsum (map (fun d => d * d) us)). rewrite IH. lra.
Qed.

Lemma draw_matrix_nth_row (u : nat -> R) (k rows cols_ i : nat) :
  (i < rows)%nat ->
  nth i (draw_matrix u k rows cols_) []
  = map Fin (map (fun j => u (k + i * cols_ + j)%nat) (seq 0 cols_)).
Proof.
  intros Hi. unfold draw_matrix.
  pose proof (nth_map_in
                (fun i0 : nat =>
                   map (fun j => Fin (u (k + i0 * cols_ + j)%nat))
                       (seq 0 cols_))
                (seq 0 rows) i [] 0%nat) as H.
  rewrite length_seq in H. specialize (H Hi).
  rewrite seq_nth in H by exact Hi. cbn [Nat.add] in H.
  unfold vec in *. rewrite H, map_map. reflexivity.
Qed.

(** X24.  [hypersphere_point] on arrays of reals, for a particle whose normal
    draws are not all 0: the point it returns is at a distance from the origin
    that is the radius drawn, between 0 and the distance from [Gr] to the
    position of the particle (in exact arithmetic). *)
Theorem hypersphere_point_radius (rng_ : RNG) (kg ku n c_ i : nat)
  (Gr pos : matrix) :
  has_shape n c_ Gr -> has_shape n c_ pos ->
  Forall (Forall (fun x => is_finite x = true)) Gr ->
  Forall (Forall (fun x => is_finite x = true)) pos ->
  unit_draws rng_ ->
  (i < n)%nat ->
  (exists j, (j < c_)%nat
             /\ normal_draws rng_ (kg + i * c_ + j)%nat <> 0) ->
  exists rad rmax,
    norm (nth i (hypersphere_point rng_ kg ku Gr pos) []) = Fin rad
    /\ norm (map2 xsub (nth i Gr []) (nth i pos [])) = Fin rmax
    /\ 0 <= rad <= rmax.
Proof.
  intros [LG CG] [Lp Cp] FG Fp Hu Hi (j0 & Hj0 & Hnz).
  assert (Hrows : (0 < n)%nat) by lia.
  unfold hypersphere_point. cbv zeta.
  rewrite Lp, (n_columns_shape n c_ pos (conj Lp Cp) Hrows).
  set (U := draw_matrix (normal_draws rng_) kg n c_).
  set (us := map (fun j => normal_draws rng_ (kg + i * c_ + j)%nat)
                 (seq 0 c_)).
  assert (EU : nth i U [] = map Fin us)
    by (apply draw_matrix_nth_row; exact Hi).
  assert (LU : length U = n) by (apply draw_matrix_shape).
  (* the radius of the hypersphere *)
  assert (HGi : exists gs, nth i Gr [] = map Fin gs).
  { apply finite_list. apply (proj1 (Forall_forall _ _) FG).
    apply nth_In. lia. }
  assert (Hpi : exists ps, nth i pos [] = map Fin ps).
  { apply finite_list. apply (proj1 (Forall_forall _ _) Fp).
    apply nth_In. lia. }
  destruct HGi as [gs EG]. destruct Hpi as [ps Ep].
  set (rmax := sqrt (rsum (map (fun d => d * d)
                               (map2 (fun x y => x + - y) gs ps)))).
  assert (Ermax : norm (map2 xsub (nth i Gr []) (nth i pos [])) = Fin rmax).
  { rewrite EG, Ep, map2_xsub_fin. apply norm_fin. }
  assert (Hrmax : 0 <= rmax) by apply sqrt_pos.
  (* the three lists that are zipped *)
  set (R := map2 (uniform (Fin 0))
                 (map norm (mmap2 xsub Gr pos))
                 (draw_vector (uniform_draws rng_) ku n)).
  assert (Lm : length (mmap2 xsub Gr pos) = n).
  { unfold mmap2. rewrite length_map2. lia. }
  assert (LR : length R = n).
  { unfold R, draw_vector.
    rewrite length_map2, !length_map, length_seq. unfold vec, matrix in *.
    lia. }
  set (ud := uniform_draws rng_ (ku + i)%nat).
  assert (ER : nth i R NaN = Fin (0 + (rmax + - 0) * ud)).
  { unfold R.
    rewrite (nth_map2 _ _ _ i NaN NaN NaN)
      by (unfold draw_vector;
          rewrite length_map2, !length_map, length_seq;
          unfold vec, matrix in *; lia).
    rewrite (nth_map_in norm (mmap2 xsub Gr pos) i NaN [])
      by (unfold vec, matrix in *; lia).
    unfold mmap2.
    pose proof (nth_map2 (map2 xsub) Gr pos i [] [] []) as Hd.
    rewrite length_map2 in Hd. unfold vec, matrix in *.
    rewrite Hd by lia.
    rewrite Ermax. unfold draw_vector.
    rewrite (nth_map_in _ (seq 0 n) i NaN 0%nat)
      by (rewrite length_seq; lia).
    rewrite seq_nth by lia. reflexivity. }
  set (S2 := rsum (map (fun d => d * d) us)).
  assert (HS : 0 < S2).
  { assert (H0 : 0 <= S2) by apply rsum_squares_nonneg.
    destruct (Req_dec_T S2 0) as [E | E]; [| lra].
    exfalso. apply Hnz.
    pose proof (rsum_squares_zero us E) as Hall.
    apply (proj1 (Forall_forall _ _) Hall).
    unfold us. apply in_map_iff. exists j0.
    split; [reflexivity | apply in_seq; lia]. }
  assert (Hsq : 0 < sqrt S2) by (apply sqrt_lt_R0; exact HS).
  assert (EN : nth i (map norm U) NaN = Fin (sqrt S2)).
  { rewrite (nth_map_in norm U i NaN [])
      by (unfold vec, matrix in *; lia).
    unfold vec, matrix in *. rewrite EU. apply norm_fin. }
  set (rad := 0 + (rmax + - 0) * ud).
  assert (Hrad : 0 <= rad <= rmax).
  { unfold rad. pose proof (Hu (ku + i)%nat) as Hud. fold ud in Hud.
    split; nra. }
  assert (Erow :
    nth i (zip3 (fun urow ri ni => map (fun x => xmul x (xdiv ri ni)) urow)
                U R (map norm U)) []
    = map Fin (map (fun x => x * (rad / sqrt S2)) us)).
  { rewrite (nth_zip3 _ _ _ _ i [] [] NaN NaN)
      by (rewrite length_zip3, length_map; unfold vec, matrix in *; lia).
    unfold vec, matrix in *. rewrite EU, ER, EN. fold rad.
    rewrite xdiv_fin_nz by lra.
    rewrite !map_map. reflexivity. }
  exists rad, rmax. split; [| split; [exact Ermax | exact Hrad]].
  fold U R. unfold vec, matrix in *. rewrite Erow.
  rewrite norm_fin, rsum_squares_times. fold S2. f_equal.
  assert (Hc : 0 <= rad / sqrt S2).
  { apply Rmult_le_pos; [lra | left; apply Rinv_0_lt_compat; exact Hsq]. }
  replace (rad / sqrt S2 * (rad / sqrt S2) * S2)
    with (rad * rad).
  - apply sqrt_square. lra.
  - rewrite <- (sqrt_sqrt S2) at 3 by lra. field. lra.
Qed.

Lemma hypersphere_point_radius_witness :
  exists rad rmax,
    norm (nth 0 (hypersphere_point still_rng 0 0 [[Fin 3]] [[Fin 1]]) [])
    = Fin rad
    /\ norm (map2 xsub (nth 0 [[Fin 3]] []) (nth 0 [[Fin 1]] []))
       = Fin rmax
    /\ 0 <= rad <= rmax.
Proof.
  apply (hypersphere_point_radius still_rng 0 0 1 1 0 [[Fin 3]] [[Fin 1]]).
  - split; [reflexivity | repeat constructor].
  - split; [reflexivity | repeat constructor].
  - repeat constructor.
  - repeat constructor.
  - intros k. simpl. lra.
  - lia.
  - exists 0%nat. split; [lia | simpl; lra].
Defined.

(** ** Firing strengths *)

(** X25.  Every firing strength (the product of the premise values of a rule,
    layer 2 of the forward pass) is a real of [[0, 1]] or NaN, whatever the
    parameters and the inputs. *)
Theorem firing_strengths_unit_interval (self : ANFIS) (Xe_ : matrix)
  (i j : nat) :
  unit_or_nan (nth j (nth i (firing_strengths self Xe_) []) NaN).
Proof. apply nth_unit, firing_strengths_range. Qed.

(** ** Class labels, again *)

Lemma concat_columns {T : Type} (l : list T) :
  concat (map (fun y => [y]) l) = l.
Proof. induction l as [| y l IH]; simpl; [| rewrite IH]; reflexivity. Qed.

(** X26.  [build_classes] computes on a vector of labels what
    [build_class_matrix] computes on the same labels in one column, and
    [get_classes] returns its list of classes with its length. On finite labels
    the classes are the labels that occur, once each and in increasing order,
    and row [i] of the matrix has a 1 in the column of the class of sample [i]
    and 0 elsewhere. *)
Theorem build_classes_one_hot (ys : list R) :
  let Y := map Fin ys in
  build_classes Y = build_class_matrix (map (fun y => [y]) Y)
  /\ get_classes Y
     = (length (snd (build_classes Y)), snd (build_classes Y))
  /\ exists us,
       snd (build_classes Y) = map Fin us
       /\ StronglySorted Rlt us
       /\ (forall x, In x us <-> In x ys)
       /\ length (fst (build_classes Y)) = length ys
       /\ forall i j, (i < length ys)%nat -> (j < length us)%nat ->
            nth j (nth i (fst (build_classes Y)) []) NaN
            = if Req_dec_T (nth i ys 0) (nth j us 0) then Fin 1 else Fin 0.
Proof.
  intros Y.
  assert (E : build_classes Y = build_class_matrix (map (fun y => [y]) Y)).
  { unfold build_classes, build_class_matrix. cbv zeta.
    rewrite concat_columns. reflexivity. }
  split; [exact E |]. split; [reflexivity |].
  rewrite E. unfold Y. rewrite map_map.
  exact (build_class_matrix_one_hot ys).
Qed.

(** ** The output of the forward pass *)

(** X27.  When [forward_steps] returns, the object is as it was and the output
    has one row per row of [X] and [n_outputs] entries in every row. *)
Theorem forward_steps_output_shape (X Xe_ f : matrix) (self self' : ANFIS) :
  forward_steps X Xe_ self = (self', Ok f) ->
  self' = self /\ has_shape (length X) (n_outputs self) f.
Proof.
  intros H. split; [exact (forward_steps_state _ _ _ _ _ H) |].
  exact (forward_steps_shape _ _ _ _ _ H).
Qed.

Lemma forward_steps_output_shape_witness :
  exists f,
    forward_steps [[Fin 0]; [Fin 0]] [[Fin 0]; [Fin 0]] two_class_model
    = (two_class_model, Ok f)
    /\ has_shape 2 2 f.
Proof.
  destruct (forward_steps_ok two_class_model [[Fin 0]; [Fin 0]]
              [[Fin 0]; [Fin 0]]) as [f E].
  - discriminate.
  - repeat constructor.
  - exists f. split; [exact E |].
    exact (proj2 (forward_steps_output_shape _ _ _ _ _ E)).
Defined.

(** ** The classification cost on well-shaped data *)








(** ** The construction of the optimiser and the order of the bounds *)


